(** * Online-Fix Store: the main-process handlers, embedded and verified

    A shallow embedding of the Electron main process of the launcher
    (the catalog cache, the remote text fetcher and the
    download-extract-install pipeline), with the properties of its
    specification stated over that embedding.

    Conventions of the embedding.
    - JavaScript exceptions are values of [JS.exn]; a computation that may
      throw and that reads or writes shared state is a function
      [W -> (JS.exn + A) * W] (module [Eff]); [try ... catch] is
      [Eff.try_catch], and a state change made before a throw persists.
    - Library functions whose code is not part of the program
      ([JSON.parse], [JSON.stringify], [iconv.decode], the network, the
      archive tools) are fields of an environment record; every theorem
      holds for all environments.
    - Numbers are integers ([Z]); time is in milliseconds; strings are
      strings of 8-bit characters.
    - The clock stands still during local operations; a request to the
      catalog endpoint takes [latency].
    - The file system of the pipeline is a tree of named entries, and
      [path.join] is modelled for plain components. Writes of the catalog
      cache succeed once its directory exists. The messages of file-system
      errors are abbreviated. A write stream that cannot be opened is
      modelled as a throw.
    - An archive tool reads the archive and rewrites the extraction
      folder; it touches nothing else.
    - The recursion of the copy and of the cleanup is bounded by the depth
      of the call stack, a parameter: exceeding it throws a RangeError, as
      in the engine. *)

From Stdlib Require Import ZArith String Ascii List Bool Lia.
From stdpp Require Import base option list gmap strings pretty.

Set Warnings "-register-all".
Local Open Scope string_scope.
Local Open Scope Z_scope.
Local Open Scope list_scope.

(* ===================================================================== *)
(** ** JavaScript values and exceptions *)
(* ===================================================================== *)

Module JS.

(** The values [JSON.parse] can produce, and [undefined], which reading a
    missing property produces. *)
Inductive value :=
| Undefined
| Null
| Bool (b : bool)
| Num (n : Z)
| Str (s : string)
| Arr (items : list value)
| Obj (fields : list (string * value)).

(** A thrown [Error] object, by constructor; [message] is its [.message]. *)
Inductive exn :=
| SyntaxError (msg : string)
| TypeError (msg : string)
| RangeError (msg : string)
| Error (msg : string).

Definition message (e : exn) : string :=
  match e with
  | SyntaxError m | TypeError m | RangeError m | Error m => m
  end.

(** The own property [k] of an object literal; [undefined] when missing. *)
Fixpoint get_field (k : string) (fields : list (string * value)) : value :=
  match fields with
  | [] => Undefined
  | (k', v) :: rest => if String.eqb k k' then v else get_field k rest
  end.

(** [v.k] for the property names this program reads ([applist], [apps],
    [length], [appid], [name]): reading a property of [undefined] or
    [null] throws a TypeError; arrays and strings have a [length];
    anything else yields [undefined]. *)
Definition prop (v : value) (k : string) : exn + value :=
  match v with
  | Undefined =>
      inl (TypeError ("Cannot read properties of undefined (reading '" +:+ k +:+ "')"))
  | Null =>
      inl (TypeError ("Cannot read properties of null (reading '" +:+ k +:+ "')"))
  | Obj fields => inr (get_field k fields)
  | Arr items =>
      inr (if String.eqb k "length" then Num (Z.of_nat (length items)) else Undefined)
  | Str s =>
      inr (if String.eqb k "length" then Num (Z.of_nat (String.length s)) else Undefined)
  | Bool _ | Num _ => inr Undefined
  end.

(** [String(v)], as used when a value becomes a property key. A number
    is an integer and is printed in decimal digits, which is what the
    program does for the integers a double holds exactly, from
    [-(2^53 - 1)] to [2^53 - 1] ([Data.safe_integer]); beyond, the
    program rounds and, from [10^21] on, prints an exponent, which this
    definition does not follow: what is stated of keys and printed numbers
    is stated for integers of that range. *)
Fixpoint to_string (v : value) : string :=
  match v with
  | Undefined => "undefined"
  | Null => "null"
  | Bool true => "true"
  | Bool false => "false"
  | Num n => pretty n
  | Str s => s
  | Arr items =>
      String.concat ","
        (map (fun x => match x with
                       | Undefined | Null => ""
                       | _ => to_string x
                       end) items)
  | Obj _ => "[object Object]"
  end.

End JS.

(* ===================================================================== *)
(** ** Computations with state and exceptions *)
(* ===================================================================== *)

Module Eff.

Definition M (W A : Type) : Type := W -> (JS.exn + A) * W.

Definition ret {W A} (a : A) : M W A := fun w => (inr a, w).

Definition throw {W A} (e : JS.exn) : M W A := fun w => (inl e, w).

Definition bind {W A B} (c : M W A) (k : A -> M W B) : M W B :=
  fun w =>
    match c w with
    | (inr a, w') => k a w'
    | (inl e, w') => (inl e, w')
    end.

(** [try { c } catch (error) { h error }]. *)
Definition try_catch {W A} (c : M W A) (h : JS.exn -> M W A) : M W A :=
  fun w =>
    match c w with
    | (inr a, w') => (inr a, w')
    | (inl e, w') => h e w'
    end.

Definition get {W} : M W W := fun w => (inr w, w).

Definition put {W} (w' : W) : M W unit := fun _ => (inr tt, w').

(** A pure step that may throw. *)
Definition lift {W A} (r : JS.exn + A) : M W A := fun w => (r, w).

(** [for (const x of xs) { body x }], leaving at the first throw. *)
Fixpoint for_each {W A} (xs : list A) (body : A -> M W unit) : M W unit :=
  match xs with
  | [] => ret tt
  | x :: rest => bind (body x) (fun _ => for_each rest body)
  end.

End Eff.

Notation "x <- c ;; k" := (Eff.bind c (fun x => k))
  (at level 100, c at next level, right associativity).
Notation "c ;;; k" := (Eff.bind c (fun _ => k))
  (at level 100, right associativity).

(* ===================================================================== *)
(** ** The catalog cache ([getSteamAppList] and its handler) *)
(* ===================================================================== *)

Module Catalog.

(** [7 * 24 * 60 * 60 * 1000]: seven days in milliseconds. *)
Definition CACHE_DURATION : Z := 7 * 24 * 60 * 60 * 1000.

(** The cache file [steam_applist.json]: its last-modified time and its
    text. *)
Record file := File { mtime : Z; content : string }.

(** What the catalog code reads and writes: whether the cache directory
    exists, the cache file if any, the clock ([Date.now()]), and the
    number of GET requests sent to the catalog endpoint so far. *)
Record world := World {
  cache_dir : bool;
  cache_file : option file;
  clock : Z;
  fetches : nat
}.

(** The outside of the program: the JSON codec, what a GET of
    [STEAM_APPLIST_URL] yields (a network error, or the response body), and
    how long the request takes. *)
Record env := Env {
  JSON_parse : string -> JS.exn + JS.value;
  JSON_stringify : JS.value -> string;
  remote : JS.exn + string;
  latency : Z
}.

Definition M := Eff.M world.

Definition ensureCacheDir : M unit :=
  w <- Eff.get ;;
  if cache_dir w then Eff.ret tt
  else Eff.put (World true (cache_file w) (clock w) (fetches w)).

(** [fs.existsSync(APPLIST_CACHE_FILE)]. *)
Definition existsSync : M bool :=
  w <- Eff.get ;;
  Eff.ret (match cache_file w with Some _ => true | None => false end).

Definition isCacheValid : M bool :=
  w <- Eff.get ;;
  match cache_file w with
  | None => Eff.ret false
  | Some f =>
      let age := clock w - mtime f in
      Eff.ret (age <? CACHE_DURATION)
  end.

(** [fs.readFileSync(APPLIST_CACHE_FILE, 'utf8')]. *)
Definition readFileSync : M string :=
  w <- Eff.get ;;
  match cache_file w with
  | Some f => Eff.ret (content f)
  | None => Eff.throw (JS.Error "ENOENT: no such file or directory")
  end.

(** [fs.writeFileSync(APPLIST_CACHE_FILE, text, 'utf8')]: the file is
    replaced and stamped with the current time. *)
Definition writeFileSync (text : string) : M unit :=
  w <- Eff.get ;;
  if cache_dir w
  then Eff.put (World true (Some (File (clock w) text)) (clock w) (fetches w))
  else Eff.throw (JS.Error "ENOENT: no such file or directory").

(** [data.applist.apps.length], evaluated for the log line. *)
Definition apps_length (data : JS.value) : JS.exn + JS.value :=
  match JS.prop data "applist" with
  | inl e => inl e
  | inr applist =>
      match JS.prop applist "apps" with
      | inl e => inl e
      | inr apps => JS.prop apps "length"
      end
  end.

(** What the promise of [fetchSteamAppList] settles with (lines 45 to
    57): it resolves with the parsed body, and rejects on a network error,
    on a body that does not parse, and when the log line cannot read
    [data.applist.apps.length]. *)
Definition fetch_outcome (E : env) : JS.exn + JS.value :=
  match remote E with
  | inl err => inl err
  | inr body =>
      match JSON_parse E body with
      | inl e => inl e
      | inr data =>
          match apps_length data with
          | inl e => inl e
          | inr _ => inr data
          end
      end
  end.

(** One GET of the catalog endpoint: the request is counted and takes
    [latency]. *)
Definition fetchSteamAppList (E : env) : M JS.value :=
  w <- Eff.get ;;
  Eff.put (World (cache_dir w) (cache_file w) (clock w + latency E) (S (fetches w))) ;;;
  Eff.lift (fetch_outcome E).

Definition getSteamAppList (E : env) : M JS.value :=
  Eff.try_catch
    (ensureCacheDir ;;;
     valid <- isCacheValid ;;
     if valid then
       cachedData <- readFileSync ;;
       data <- Eff.lift (JSON_parse E cachedData) ;;
       _ <- Eff.lift (apps_length data) ;;
       Eff.ret data
     else
       data <- fetchSteamAppList E ;;
       writeFileSync (JSON_stringify E data) ;;;
       Eff.ret data)
    (fun error =>
       present <- existsSync ;;
       if present then
         cachedData <- readFileSync ;;
         Eff.lift (JSON_parse E cachedData)
       else Eff.throw error).

(** The result object of the [get-steam-applist] handler:
    [{success: true, apps, totalApps, cached}] or
    [{success: false, error, apps: {}}]. *)
Inductive applist_result :=
| AppListOk (apps : gmap string JS.value) (totalApps : JS.value) (cached : bool)
| AppListFail (error : string).

Definition success (r : applist_result) : bool :=
  match r with AppListOk _ _ _ => true | AppListFail _ => false end.

(** [appMap[key] = v]: a property is set, except that assigning to
    [__proto__] sets no property of the object. *)
Definition assign (key : string) (v : JS.value) (appMap : gmap string JS.value)
  : gmap string JS.value :=
  if String.eqb key "__proto__" then appMap else <[key := v]> appMap.

(** [apps.forEach(app => { appMap[app.appid] = app.name; })] on an empty
    [appMap]: only arrays have [forEach]. *)
Fixpoint fill_appMap (apps : list JS.value) (appMap : gmap string JS.value)
  : JS.exn + gmap string JS.value :=
  match apps with
  | [] => inr appMap
  | app :: rest =>
      match JS.prop app "appid" with
      | inl e => inl e
      | inr appid =>
          match JS.prop app "name" with
          | inl e => inl e
          | inr name => fill_appMap rest (assign (JS.to_string appid) name appMap)
          end
      end
  end.

Definition forEach_appMap (apps : JS.value) : JS.exn + gmap string JS.value :=
  match apps with
  | JS.Arr items => fill_appMap items ∅
  | JS.Undefined | JS.Null =>
      match JS.prop apps "forEach" with
      | inl e => inl e
      | inr _ => inl (JS.TypeError "data.applist.apps.forEach is not a function")
      end
  | _ => inl (JS.TypeError "data.applist.apps.forEach is not a function")
  end.

(** The body of the handler's [try] after [getSteamAppList] returned
    [data]: the lookup object and the count. *)
Definition build_lookup (data : JS.value) : JS.exn + (gmap string JS.value * JS.value) :=
  match JS.prop data "applist" with
  | inl e => inl e
  | inr applist =>
      match JS.prop applist "apps" with
      | inl e => inl e
      | inr apps =>
          match forEach_appMap apps with
          | inl e => inl e
          | inr appMap =>
              match JS.prop apps "length" with
              | inl e => inl e
              | inr n => inr (appMap, n)
              end
          end
      end
  end.

(** [ipcMain.handle('get-steam-applist', ...)]: never throws. *)
Definition get_steam_applist (E : env) (w : world) : applist_result * world :=
  match getSteamAppList E w with
  | (inr data, w1) =>
      match build_lookup data with
      | inr (appMap, n) =>
          match isCacheValid w1 with
          | (inr cached, w2) => (AppListOk appMap n cached, w2)
          | (inl error, w2) => (AppListFail (JS.message error), w2)
          end
      | inl error => (AppListFail (JS.message error), w1)
      end
  | (inl error, w1) => (AppListFail (JS.message error), w1)
  end.

(** Whether the cache is valid in a world: what [isCacheValid] answers. *)
Definition valid_in (w : world) : bool :=
  match cache_file w with
  | None => false
  | Some f => clock w - mtime f <? CACHE_DURATION
  end.

End Catalog.

(* ===================================================================== *)
(** ** The remote text fetcher ([fetch-remote-file]) *)
(* ===================================================================== *)

Module Fetcher.

(** Header values and URLs are strings of 8-bit characters (Node decodes
    header bytes as Latin-1). *)

Definition code (c : ascii) : N := N_of_ascii c.

(** Case folding of the [i] flag of a regular expression, which on 8-bit
    characters only identifies [A-Z] with [a-z]. *)
Definition fold_case (c : ascii) : ascii :=
  if ((65 <=? code c) && (code c <=? 90))%N then ascii_of_N (code c + 32) else c.

(** [String.prototype.toLowerCase] on 8-bit characters: [A-Z] and the
    Latin-1 capitals U+00C0..U+00DE except the multiplication sign. *)
Definition lower_char (c : ascii) : ascii :=
  if ((65 <=? code c) && (code c <=? 90)
      || (192 <=? code c) && (code c <=? 222) && negb (code c =? 215))%N
  then ascii_of_N (code c + 32) else c.

Fixpoint toLowerCase (s : string) : string :=
  match s with
  | EmptyString => EmptyString
  | String c rest => String (lower_char c) (toLowerCase rest)
  end.

(** The white space and line terminators [trim] removes, among 8-bit
    characters: TAB, LF, VT, FF, CR, space and no-break space. *)
Definition is_white (c : ascii) : bool :=
  ((9 <=? code c) && (code c <=? 13) || (code c =? 32) || (code c =? 160))%N.

Fixpoint trimStart (s : string) : string :=
  match s with
  | EmptyString => EmptyString
  | String c rest => if is_white c then trimStart rest else s
  end.

Fixpoint trimEnd (s : string) : string :=
  match s with
  | EmptyString => EmptyString
  | String c rest =>
      match trimEnd rest with
      | EmptyString => if is_white c then EmptyString else String c EmptyString
      | rest' => String c rest'
      end
  end.

Definition trim (s : string) : string := trimEnd (trimStart s).

(** [s.includes(sub)]. *)
Fixpoint includes (s sub : string) : bool :=
  String.prefix sub s ||
  match s with
  | EmptyString => false
  | String _ rest => includes rest sub
  end.

(** The rest of [s] after a case-insensitive occurrence of [kw] at its
    start. *)
Fixpoint after_keyword (kw s : string) : option string :=
  match kw, s with
  | EmptyString, _ => Some s
  | String k kw', String c s' =>
      if Ascii.eqb (fold_case k) (fold_case c) then after_keyword kw' s' else None
  | String _ _, EmptyString => None
  end.

(** The longest prefix of [s] with no semicolon: what [[^;]+] takes. *)
Fixpoint until_semicolon (s : string) : string :=
  match s with
  | EmptyString => EmptyString
  | String c rest => if Ascii.eqb c ";" then EmptyString else String c (until_semicolon rest)
  end.

(** A match of [/charset=([^;]+)/i] that starts at the first character. *)
Definition charset_here (s : string) : option string :=
  match after_keyword "charset=" s with
  | Some rest =>
      match until_semicolon rest with
      | EmptyString => None
      | v => Some v
      end
  | None => None
  end.

(** [contentType.match(/charset=([^;]+)/i)]: group 1 of the leftmost match,
    [None] for [null]. *)
Fixpoint charset_match (contentType : string) : option string :=
  match charset_here contentType with
  | Some v => Some v
  | None =>
      match contentType with
      | EmptyString => None
      | String _ rest => charset_match rest
      end
  end.

(** The encoding after the [charsetMatch] test (lines 145 to 151). *)
Definition header_encoding (contentType : string) : string :=
  match charset_match contentType with
  | Some m => toLowerCase (trim m)
  | None => "utf8"
  end.

(** The test of line 154: the windows-1251 override is taken. *)
Definition override_applies (url contentType : string) : bool :=
  includes url "online-fix.me" && String.eqb (header_encoding contentType) "utf8".

(** The encoding handed to [iconv.decode] (lines 144 to 156). *)
Definition chosen_encoding (url contentType : string) : string :=
  if override_applies url contentType then "windows-1251"
  else header_encoding contentType.

(** The decoders: [iconv.decode(buffer, encoding)], which throws on an
    encoding it does not know, and [buffer.toString('utf8')]. *)
Record codec := Codec {
  iconv_decode : string -> string -> JS.exn + string;
  toString_utf8 : string -> string
}.

(** A response: its [content-type] header, if any, and its body. *)
Record response := Response {
  content_type : option string;
  chunks : list string
}.

(** [Buffer.concat(chunks)]. *)
Definition Buffer_concat (chunks : list string) : string := String.concat "" chunks.

(** The [end] callback (lines 139 to 168): the text the promise resolves
    with. *)
Definition on_end (C : codec) (url : string) (res : response) : string :=
  let buffer := Buffer_concat (chunks res) in
  let contentType := match content_type res with
                     | Some h => h
                     | None => ""
                     end in
  let encoding := chosen_encoding url contentType in
  match iconv_decode C buffer encoding with
  | inr data => data
  | inl _ => toString_utf8 C buffer
  end.

(** [ipcMain.handle('fetch-remote-file', ...)]: a network error rejects;
    the status of the response is not looked at. *)
Definition fetch_remote_file (C : codec) (https_get : string -> JS.exn + response)
    (url : string) : JS.exn + string :=
  match https_get url with
  | inl err => inl err
  | inr res => inr (on_end C url res)
  end.

End Fetcher.

(* ===================================================================== *)
(** ** The download-extract-install pipeline ([download-extract-fix]) *)
(* ===================================================================== *)

Module Pipeline.

(** *** The file system

    A directory is the ordered list of its entries, in the order
    [readdirSync] lists them; a path is the list of its components, and
    [path.join(p, c)] for a plain component [c] is [p ++ [c]]. *)

Inductive node :=
| File (data : string)
| Dir (entries : list (string * node)).

Definition path := list string.

(** A component [path.join] keeps as it is: not empty, not [.] or [..],
    and without a separator. *)
Definition plain_name (c : string) : bool :=
  negb (String.eqb c "") && negb (String.eqb c ".") && negb (String.eqb c "..")
  && negb (Fetcher.includes c "/") && negb (Fetcher.includes c "\").

Definition is_dir (n : node) : bool :=
  match n with Dir _ => true | File _ => false end.

Fixpoint find_entry (name : string) (es : list (string * node)) : option node :=
  match es with
  | [] => None
  | (n, x) :: rest => if String.eqb name n then Some x else find_entry name rest
  end.

(** Replace the entry [name], or add it at the end. *)
Fixpoint set_entry (name : string) (x : node) (es : list (string * node))
  : list (string * node) :=
  match es with
  | [] => [(name, x)]
  | (n, y) :: rest =>
      if String.eqb name n then (n, x) :: rest else (n, y) :: set_entry name x rest
  end.

Fixpoint remove_entry (name : string) (es : list (string * node))
  : list (string * node) :=
  match es with
  | [] => []
  | (n, y) :: rest =>
      if String.eqb name n then remove_entry name rest
      else (n, y) :: remove_entry name rest
  end.

Fixpoint lookup (p : path) (n : node) : option node :=
  match p with
  | [] => Some n
  | c :: p' =>
      match n with
      | File _ => None
      | Dir es =>
          match find_entry c es with
          | Some x => lookup p' x
          | None => None
          end
      end
  end.

(** Change the entry at [p], whose parent must be an existing directory:
    [f] sees the entry ([None] when there is none) and answers [None] for
    an error, [Some None] to remove it, [Some (Some x)] to set it. *)
Fixpoint update (p : path) (f : option node -> option (option node)) (n : node)
  : option node :=
  match p, n with
  | [], _ => None
  | _ :: _, File _ => None
  | [c], Dir es =>
      match f (find_entry c es) with
      | Some (Some x) => Some (Dir (set_entry c x es))
      | Some None => Some (Dir (remove_entry c es))
      | None => None
      end
  | c :: p', Dir es =>
      match find_entry c es with
      | Some y =>
          match update p' f y with
          | Some y' => Some (Dir (set_entry c y' es))
          | None => None
          end
      | None => None
      end
  end.

(** [mkdir -p]: every missing directory on the way is created; a file on
    the way is an error. *)
Fixpoint mkdir_p (p : path) (n : node) : option node :=
  match n with
  | File _ => None
  | Dir es =>
      match p with
      | [] => Some n
      | c :: p' =>
          match mkdir_p p' (match find_entry c es with
                            | Some x => x
                            | None => Dir []
                            end) with
          | Some x' => Some (Dir (set_entry c x' es))
          | None => None
          end
      end
  end.

Fixpoint is_prefix (p q : path) : bool :=
  match p, q with
  | [], _ => true
  | c :: p', d :: q' => String.eqb c d && is_prefix p' q'
  | _ :: _, [] => false
  end.

(** Neither path is inside (or equal to) the other. *)
Definition apart (p q : path) : bool :=
  negb (is_prefix p q) && negb (is_prefix q p).

(** *** The world of one run *)

Inductive strategy :=
| ExtractZip
| SevenZip (exe : path)
| WinRAR (exe : path).

(** What a run does that its properties speak of: the GET requests it sends,
    the extraction strategies it attempts, each with its error if it
    failed, and the tools it passes over because nothing exists at their
    path. *)
Inductive event :=
| GET (url : string)
| ATTEMPT (s : strategy) (failure : option JS.exn)
| SKIP (s : strategy).

Record world := World { fs : node; log : list event }.

Record response := Response {
  statusCode : Z;
  location : string;
  body : string
}.

(** The outside of the program: the clock and the environment variables,
    the network ([network k url] is what the GET number [k] of the run, to
    [url], yields: a network error or a response), and the archive tools
    ([run s archive entries] is what strategy [s] leaves in the extraction
    folder, which held [entries], and the error it ends with, if any). *)
Record env := Env {
  now : Z;
  tmpdir : path;
  ProgramFiles : option path;
  ProgramFiles_x86 : option path;
  network : nat -> string -> JS.exn + response;
  run : strategy -> option node -> list (string * node)
        -> list (string * node) * option JS.exn
}.

Definition M := Eff.M world.

Definition ENOENT : JS.exn := JS.Error "ENOENT: no such file or directory".
Definition ENOTDIR : JS.exn := JS.Error "ENOTDIR: not a directory".
Definition EISDIR : JS.exn := JS.Error "EISDIR: illegal operation on a directory".
Definition ENOTEMPTY : JS.exn := JS.Error "ENOTEMPTY: directory not empty".
Definition EEXIST : JS.exn := JS.Error "EEXIST: file already exists".

(** A file-system change that throws [err] when it cannot be made. *)
Definition change (err : JS.exn) (step : node -> option node) : M unit :=
  w <- Eff.get ;;
  match step (fs w) with
  | Some fs' => Eff.put (World fs' (log w))
  | None => Eff.throw err
  end.

Definition existsSync (p : path) : M bool :=
  w <- Eff.get ;;
  Eff.ret (match lookup p (fs w) with Some _ => true | None => false end).

(** A note in the record of the run; the program itself does nothing. *)
Definition record (ev : event) : M unit :=
  w <- Eff.get ;; Eff.put (World (fs w) (log w ++ [ev])).

(** [fs.statSync(p).isDirectory()] (and [lstatSync]: there are no links). *)
Definition isDirectory (p : path) : M bool :=
  w <- Eff.get ;;
  match lookup p (fs w) with
  | Some n => Eff.ret (is_dir n)
  | None => Eff.throw ENOENT
  end.

(** [fs.mkdirSync(p, { recursive: true })]. *)
Definition mkdirSync (p : path) : M unit := change EEXIST (mkdir_p p).

(** [fs.readdirSync(p, { withFileTypes: true })]: names, each with
    whether it is a directory. *)
Definition readdirSync_types (p : path) : M (list (string * bool)) :=
  w <- Eff.get ;;
  match lookup p (fs w) with
  | Some (Dir es) => Eff.ret (map (fun e => (fst e, is_dir (snd e))) es)
  | Some (File _) => Eff.throw ENOTDIR
  | None => Eff.throw ENOENT
  end.

(** [fs.readdirSync(p)]. *)
Definition readdirSync (p : path) : M (list string) :=
  es <- readdirSync_types p ;; Eff.ret (map fst es).

(** What writing a file does to an entry: a directory is in the way,
    anything else becomes the file. *)
Definition put_file (data : string) (cur : option node) : option (option node) :=
  match cur with
  | Some (Dir _) => None
  | _ => Some (Some (File data))
  end.

(** What [unlink] does to an entry: only a file can be removed. *)
Definition drop_file (cur : option node) : option (option node) :=
  match cur with
  | Some (File _) => Some None
  | _ => None
  end.

(** Writing [data] to the file [p], created or replaced. *)
Definition writeFile (p : path) (data : string) : M unit :=
  change EISDIR (update p (put_file data)).

Definition unlinkSync (p : path) : M unit :=
  change ENOENT (update p drop_file).

(** [fs.unlink(p, () => {})]: the outcome is ignored. *)
Definition unlink_ignored (p : path) : M unit :=
  Eff.try_catch (unlinkSync p) (fun _ => Eff.ret tt).

(** The file system after [fs.unlink(p, () => {})]. *)
Definition unlinked (p : path) (n : node) : node :=
  match update p drop_file n with
  | Some n' => n'
  | None => n
  end.

Definition rmdirSync (p : path) : M unit :=
  change ENOTEMPTY
    (update p (fun cur => match cur with
                          | Some (Dir []) => Some None
                          | _ => None
                          end)).

Definition copyFileSync (src dest : path) : M unit :=
  w <- Eff.get ;;
  match lookup src (fs w) with
  | Some (File data) => writeFile dest data
  | Some (Dir _) => Eff.throw EISDIR
  | None => Eff.throw ENOENT
  end.

(** *** The download (lines 281 to 319; the same promise is written again
    in [download-bypass], lines 538 to 575) *)

Fixpoint count_gets (l : list event) : nat :=
  match l with
  | [] => O
  | GET _ :: rest => S (count_gets rest)
  | _ :: rest => count_gets rest
  end.

(** [https.get(url, ...)]: the request is recorded; the answer is the
    [error] event or the response. *)
Definition https_get (E : env) (url : string) : M (JS.exn + response) :=
  w <- Eff.get ;;
  Eff.put (World (fs w) (log w ++ [GET url])) ;;;
  Eff.ret (network E (count_gets (log w)) url).

Definition download_promise (E : env) (url : string) (dest : path) : M unit :=
  writeFile dest "" ;;;
  r <- https_get E url ;;
  match r with
  | inl err => unlink_ignored dest ;;; Eff.throw err
  | inr response =>
      if (statusCode response =? 302) || (statusCode response =? 301) then
        let redirectUrl := location response in
        r' <- https_get E redirectUrl ;;
        match r' with
        | inl err => unlink_ignored dest ;;; Eff.throw err
        | inr redirectResponse => writeFile dest (body redirectResponse)
        end
      else if negb (statusCode response =? 200) then
        Eff.throw (JS.Error ("Failed to download: " +:+ pretty (statusCode response)))
      else writeFile dest (body response)
  end.

(** *** The extraction chain (lines 321 to 394) *)

Definition default_ProgramFiles : path := ["C:"; "Program Files"].
Definition default_ProgramFiles_x86 : path := ["C:"; "Program Files (x86)"].

(** [process.env.X || fallback]. *)
Definition env_or (v : option path) (fallback : path) : path :=
  match v with Some p => p | None => fallback end.

Definition sevenZipPaths (E : env) : list path :=
  [ ["C:"; "Program Files"; "7-Zip"; "7z.exe"];
    ["C:"; "Program Files (x86)"; "7-Zip"; "7z.exe"];
    (env_or (ProgramFiles E) default_ProgramFiles ++ ["7-Zip"; "7z.exe"]);
    (env_or (ProgramFiles_x86 E) default_ProgramFiles_x86 ++ ["7-Zip"; "7z.exe"]) ].

Definition winrarPaths (E : env) : list path :=
  [ ["C:"; "Program Files"; "WinRAR"; "WinRAR.exe"];
    ["C:"; "Program Files (x86)"; "WinRAR"; "WinRAR.exe"];
    (env_or (ProgramFiles E) default_ProgramFiles ++ ["WinRAR"; "WinRAR.exe"]);
    (env_or (ProgramFiles_x86 E) default_ProgramFiles_x86 ++ ["WinRAR"; "WinRAR.exe"]) ].

(** One attempt: the tool reads the archive and rewrites the extraction
    folder; the attempt and its outcome are recorded. The result is the
    error of the attempt, [None] when it completed. *)
Definition attempt (E : env) (s : strategy) (zip dir : path) : M (option JS.exn) :=
  w <- Eff.get ;;
  let held := match lookup dir (fs w) with
              | Some (Dir es) => es
              | _ => []
              end in
  let '(after, failure) := run E s (lookup zip (fs w)) held in
  let fs' := match update dir (fun cur => match cur with
                                          | Some (Dir _) => Some (Some (Dir after))
                                          | _ => None
                                          end) (fs w) with
             | Some n => n
             | None => fs w
             end in
  Eff.put (World fs' (log w ++ [ATTEMPT s failure])) ;;;
  Eff.ret failure.

(** The [for ... of] loop over the known paths of one tool, with its
    [break]: the result is [(extractionSuccess, lastError)]. *)
Fixpoint try_paths (E : env) (tool : path -> strategy) (paths : list path)
    (zip dir : path) (lastError : option JS.exn) : M (bool * option JS.exn) :=
  match paths with
  | [] => Eff.ret (false, lastError)
  | p :: rest =>
      present <- existsSync p ;;
      if present then
        failure <- attempt E (tool p) zip dir ;;
        match failure with
        | None => Eff.ret (true, lastError)
        | Some error => try_paths E tool rest zip dir (Some error)
        end
      else
        record (SKIP (tool p)) ;;;
        try_paths E tool rest zip dir lastError
  end.

(** [lastError?.message || 'Unknown error']. *)
Definition last_message (lastError : option JS.exn) : string :=
  match lastError with
  | Some error => if String.eqb (JS.message error) "" then "Unknown error"
                  else JS.message error
  | None => "Unknown error"
  end.

Definition all_failed (lastError : option JS.exn) : JS.exn :=
  JS.Error ("All extraction methods failed. Last error: "
            +:+ last_message lastError
            +:+ ". Please install 7-Zip or WinRAR.").

Definition extract_archive (E : env) (zip dir : path) : M unit :=
  failure <- attempt E ExtractZip zip dir ;;
  let '(extractionSuccess, lastError) :=
    match failure with
    | None => (true, None)
    | Some error => (false, Some error)
    end in
  r <- (if negb extractionSuccess
        then try_paths E SevenZip (sevenZipPaths E) zip dir lastError
        else Eff.ret (extractionSuccess, lastError)) ;;
  let '(extractionSuccess, lastError) := r in
  r <- (if negb extractionSuccess
        then try_paths E WinRAR (winrarPaths E) zip dir lastError
        else Eff.ret (extractionSuccess, lastError)) ;;
  let '(extractionSuccess, lastError) := r in
  if negb extractionSuccess then Eff.throw (all_failed lastError)
  else Eff.ret tt.

(** *** The source folder (lines 398 to 419)

    [path.join(extractTempPath, appID)] is [extractTempPath ++ [appID]]
    for a plain [appID] ([plain_name]: the identifiers of the program are
    numbers); what is stated of the source folder is stated for plain
    identifiers. *)

(** [contents.find(item => ...)] with a predicate that reads the file
    system. *)
Fixpoint find_item (pred : string -> M bool) (contents : list string)
  : M (option string) :=
  match contents with
  | [] => Eff.ret None
  | item :: rest =>
      hit <- pred item ;;
      if hit then Eff.ret (Some item) else find_item pred rest
  end.

Definition resolve_source (extractTempPath : path) (appID : string) : M path :=
  let appIDFolder := extractTempPath ++ [appID] in
  present <- existsSync appIDFolder ;;
  found <- (if present then isDirectory appIDFolder else Eff.ret false) ;;
  if found then Eff.ret appIDFolder
  else
    contents <- readdirSync extractTempPath ;;
    possibleFolder <-
      find_item (fun item =>
                   let itemPath := extractTempPath ++ [item] in
                   d <- isDirectory itemPath ;;
                   Eff.ret (d && Fetcher.includes item appID))
                contents ;;
    match possibleFolder with
    | Some item =>
        (* [if (possibleFolder)]: the empty string is falsy *)
        if String.eqb item "" then Eff.ret extractTempPath
        else Eff.ret (extractTempPath ++ [item])
    | None => Eff.ret extractTempPath
    end.

(** *** Copy and cleanup (lines 421 to 462)

    Both functions call themselves once per directory level; [stack] is
    the depth the engine allows, beyond which the call throws a
    RangeError. *)

Definition stack_overflow : JS.exn := JS.RangeError "Maximum call stack size exceeded".

Fixpoint copyRecursive (stack : nat) (src dest : path) : M unit :=
  match stack with
  | O => Eff.throw stack_overflow
  | S stack' =>
      entries <- readdirSync_types src ;;
      Eff.for_each entries (fun entry =>
        let srcPath := src ++ [fst entry] in
        let destPath := dest ++ [fst entry] in
        if snd entry then
          present <- existsSync destPath ;;
          (if present then Eff.ret tt else mkdirSync destPath) ;;;
          copyRecursive stack' srcPath destPath
        else copyFileSync srcPath destPath)
  end.

Fixpoint deleteFolderRecursive (stack : nat) (folderPath : path) : M unit :=
  match stack with
  | O => Eff.throw stack_overflow
  | S stack' =>
      present <- existsSync folderPath ;;
      if present then
        files <- readdirSync folderPath ;;
        Eff.for_each files (fun file =>
          let curPath := folderPath ++ [file] in
          d <- isDirectory curPath ;;
          if d then deleteFolderRecursive stack' curPath
          else unlinkSync curPath) ;;;
        rmdirSync folderPath
      else Eff.ret tt
  end.

(** *** The handler *)

Definition tempDir (E : env) : path :=
  tmpdir E ++ ["online-fix-" +:+ pretty (now E)].

(** Lines 271 to 396: the workspace, the download and the extraction;
    the result is [extractTempPath]. [path.join(tempDir, fileName)] is
    [tempDir ++ [fileName]] for a plain [fileName] ([plain_name]); a name
    with a separator, or [..], is normalised by [path.join] into another
    path, which this definition does not follow: what is stated of a run
    is stated for plain file names. *)
Definition download_and_extract (E : env) (url fileName : string) : M path :=
  present <- existsSync (tempDir E) ;;
  (if present then Eff.ret tt else mkdirSync (tempDir E)) ;;;
  let tempZipPath := tempDir E ++ [fileName] in
  download_promise E url tempZipPath ;;;
  let extractTempPath := tempDir E ++ ["extracted"] in
  present <- existsSync extractTempPath ;;
  (if present then Eff.ret tt else mkdirSync extractTempPath) ;;;
  extract_archive E tempZipPath extractTempPath ;;;
  Eff.ret extractTempPath.

(** Lines 398 to 462: the copy into the target folder and the cleanup. *)
Definition install_and_clean (E : env) (stack : nat) (extractTempPath targetFolder : path)
    (appID : string) : M unit :=
  sourceFolder <- resolve_source extractTempPath appID ;;
  copyRecursive stack sourceFolder targetFolder ;;;
  deleteFolderRecursive stack (tempDir E).

(** The result object: [{success: true, message}] or
    [{success: false, error}]. *)
Inductive fix_result :=
| FixOk (message : string)
| FixFail (error : string).

(** [ipcMain.handle('download-extract-fix', ...)]. *)
Definition download_extract_fix (E : env) (stack : nat) (url : string)
    (targetFolder : path) (appID fileName : string) (w : world)
  : fix_result * world :=
  match
    (extractTempPath <- download_and_extract E url fileName ;;
     install_and_clean E stack extractTempPath targetFolder appID) w
  with
  | (inr _, w') => (FixOk "Fix extracted successfully!", w')
  | (inl error, w') => (FixFail (JS.message error), w')
  end.

(** *** The bypass download ([download-bypass], lines 515 to 592)

    [dialog] is the answer of the save dialog: [None] when it was
    cancelled, the chosen path otherwise. The notification shows
    nothing the program reads back. *)
Inductive bypass_result :=
| BypassOk (message : string) (saved : path)
| BypassCancelled (message : string)
| BypassFail (error : string).

Definition download_bypass (E : env) (dialog : option path) (url : string)
    (w : world) : bypass_result * world :=
  match dialog with
  | None => (BypassCancelled "Download cancelled", w)
  | Some savePath =>
      match download_promise E url savePath w with
      | (inr _, w') => (BypassOk "Bypass downloaded successfully!" savePath, w')
      | (inl error, w') => (BypassFail (JS.message error), w')
      end
  end.

End Pipeline.

(* ===================================================================== *)
(** ** The statements of the specification, as definitions *)
(* ===================================================================== *)

Module Readings.

Import Pipeline.

(** The extraction strategies in their order: the library, 7-Zip at each
    known path, WinRAR at each known path. *)
Definition strategies (E : env) : list strategy :=
  ExtractZip :: map SevenZip (sevenZipPaths E) ++ map WinRAR (winrarPaths E).

(** [visits ss evs won]: the record [evs] is that of a chain over the
    candidates [ss] which takes them strictly in order, passes over a tool
    that is not installed, goes on after a failure, and stops at the first
    success; [won] tells whether there was one. *)
Inductive visits : list strategy -> list event -> bool -> Prop :=
| visits_end : visits [] [] false
| visits_skip s ss evs won :
    visits ss evs won -> visits (s :: ss) (SKIP s :: evs) won
| visits_failure s e ss evs won :
    visits ss evs won -> visits (s :: ss) (ATTEMPT s (Some e) :: evs) won
| visits_success s ss : visits (s :: ss) [ATTEMPT s None] true.

(** Whether the tool of a strategy is there: the library always is, an
    external tool when something exists at its path. *)
Definition installed (s : strategy) (n : node) : bool :=
  match s with
  | ExtractZip => true
  | SevenZip exe | WinRAR exe =>
      match lookup exe n with
      | Some _ => true
      | None => false
      end
  end.

(** What the tool of [s] does when it is run on the archive [zip] for the
    folder [dir], on the file system [n]: the file system it leaves (the
    folder holds what the tool left in it) and the error it ends with, if
    any. *)
Definition tool_run (E : env) (s : strategy) (zip dir : path) (n : node)
  : node * option JS.exn :=
  let held := match lookup dir n with
              | Some (Dir es) => es
              | _ => []
              end in
  let '(after, failure) := run E s (lookup zip n) held in
  (match update dir (fun cur => match cur with
                                | Some (Dir _) => Some (Some (Dir after))
                                | _ => None
                                end) n with
   | Some n' => n'
   | None => n
   end,
   failure).

(** [chain E zip dir ss n evs n' won]: starting on the file system [n], the
    candidates [ss] are taken strictly in order. A tool that is not
    installed is passed over and nothing is run. A tool that is installed
    is run on the file system the earlier ones left: when it ends with an
    error the chain goes on from what it left, when it completes the chain
    stops there and no later candidate is looked at. [evs] tells what was
    done, [n'] is the file system at the end, [won] whether a tool
    completed. *)
Inductive chain (E : env) (zip dir : path)
  : list strategy -> node -> list event -> node -> bool -> Prop :=
| chain_end n : chain E zip dir [] n [] n false
| chain_skip s ss n evs n' won :
    installed s n = false ->
    chain E zip dir ss n evs n' won ->
    chain E zip dir (s :: ss) n (SKIP s :: evs) n' won
| chain_failure s e ss n evs n' won :
    installed s n = true ->
    (tool_run E s zip dir n).2 = Some e ->
    chain E zip dir ss (tool_run E s zip dir n).1 evs n' won ->
    chain E zip dir (s :: ss) n (ATTEMPT s (Some e) :: evs) n' won
| chain_success s ss n :
    installed s n = true ->
    (tool_run E s zip dir n).2 = None ->
    chain E zip dir (s :: ss) n [ATTEMPT s None] (tool_run E s zip dir n).1 true.

(** The error of the last failed attempt of a record, [acc] when there is
    none. *)
Fixpoint last_failure (evs : list event) (acc : option JS.exn) : option JS.exn :=
  match evs with
  | [] => acc
  | ATTEMPT _ (Some e) :: rest => last_failure rest (Some e)
  | _ :: rest => last_failure rest acc
  end.

(** The strategy an event is about. *)
Definition candidate (ev : event) : option strategy :=
  match ev with
  | ATTEMPT s _ | SKIP s => Some s
  | GET _ => None
  end.

Definition succeeded (ev : event) : bool :=
  match ev with
  | ATTEMPT _ None => true
  | _ => false
  end.

(** The install source as the specification words it: the child directory
    named exactly [appID]; otherwise the first child directory whose name
    contains [appID]; otherwise the root. *)
Definition resolve_spec (root : path) (entries : list (string * node))
    (appID : string) : path :=
  match List.find (fun e => is_dir (snd e) && String.eqb (fst e) appID) entries with
  | Some e => root ++ [fst e]
  | None =>
      match List.find (fun e => is_dir (snd e) && Fetcher.includes (fst e) appID)
                      entries with
      | Some e => root ++ [fst e]
      | None => root
      end
  end.

(** A directory as a file system has it: no two entries with one name,
    and every name a plain one. *)
Definition well_formed (entries : list (string * node)) : Prop :=
  List.NoDup (map fst entries)
  /\ List.Forall (fun e => plain_name (fst e) = true) entries.

(** The response a download ends with: the first one, or the one the
    single redirect leads to. *)
Definition final_response (E : env) (k : nat) (url : string) : option response :=
  match network E k url with
  | inr r1 =>
      if (statusCode r1 =? 301) || (statusCode r1 =? 302) then
        match network E (S k) (location r1) with
        | inr r2 => Some r2
        | inl _ => None
        end
      else Some r1
  | inl _ => None
  end.

(** The reading of C5 that the code does not follow: whenever the final
    response has a status other than 200, the download fails with an error
    that carries the status. *)
Definition final_status_checked (E : env) (url : string) (dest : path) (w : world)
  : Prop :=
  forall r,
    final_response E (count_gets (log w)) url = Some r ->
    statusCode r <> 200 ->
    (download_promise E url dest w).1
    = inl (JS.Error ("Failed to download: " +:+ pretty (statusCode r))).


(** The computation [c] takes a file system to one related to it by [R],
    whether it returns or throws. *)
Definition preserves {A} (R : node -> node -> Prop) (c : M A) : Prop :=
  forall w, R (fs w) (fs (c w).2).

(** What is at [q] is the same in both file systems. *)
Definition unchanged_at (q : path) (n n' : node) : Prop :=
  lookup q n' = lookup q n.

(** Nothing was changed, or [dir] is there. *)
Definition still_there (dir : path) (n n' : node) : Prop :=
  n' = n \/ lookup dir n' <> None.

(** [s] with every character case-folded. *)
Fixpoint fold_all (s : string) : string :=
  match s with
  | EmptyString => EmptyString
  | String c rest => String (Fetcher.fold_case c) (fold_all rest)
  end.

(** [c] occurs in [s]. *)
Fixpoint mentions (c : ascii) (s : string) : bool :=
  match s with
  | EmptyString => false
  | String d rest => Ascii.eqb c d || mentions c rest
  end.

(** The reading of C9 that the code does not follow: the override is
    taken only when the header gives no charset. *)
Definition override_only_without_charset (url contentType : string) : Prop :=
  Fetcher.override_applies url contentType = true ->
  Fetcher.charset_match contentType = None.

(** The reading of C8 that the code does not follow: a cache file whose
    text does not parse makes the lookup send a request whatever the age
    of the file, and makes it fail when that request fails. *)
Definition corrupt_cache_as_absent (E : Catalog.env) (w : Catalog.world) : Prop :=
  forall f e,
    Catalog.cache_file w = Some f ->
    Catalog.JSON_parse E (Catalog.content f) = inl e ->
    Catalog.fetches (Catalog.getSteamAppList E w).2 = S (Catalog.fetches w)
    /\ (forall err, Catalog.fetch_outcome E = inl err ->
          exists e', (Catalog.getSteamAppList E w).1 = inl e').

End Readings.

(* ===================================================================== *)
(** ** Sample environments and worlds *)
(* ===================================================================== *)

Module Samples.

(** A serializer in the manner of [JSON.stringify] (strings are not
    escaped), and a parser that reads back the documents of a given list
    and rejects every other text. *)

Definition quote : string := String (ascii_of_nat 34) EmptyString.

Fixpoint stringify (v : JS.value) : string :=
  match v with
  | JS.Undefined | JS.Null => "null"
  | JS.Bool true => "true"
  | JS.Bool false => "false"
  | JS.Num n => pretty n
  | JS.Str s => quote +:+ s +:+ quote
  | JS.Arr items => "[" +:+ String.concat "," (map stringify items) +:+ "]"
  | JS.Obj fields =>
      "{" +:+ String.concat ","
                (map (fun kv => match kv with
                                | (k, x) => quote +:+ k +:+ quote +:+ ":" +:+ stringify x
                                end) fields)
          +:+ "}"
  end.

Fixpoint parse_among (docs : list JS.value) (text : string) : JS.exn + JS.value :=
  match docs with
  | [] => inl (JS.SyntaxError "Unexpected token in JSON")
  | d :: rest => if String.eqb (stringify d) text then inr d else parse_among rest text
  end.

Definition app (appid : Z) (name : string) : JS.value :=
  JS.Obj [("appid", JS.Num appid); ("name", JS.Str name)].

Definition catalog (apps : list JS.value) : JS.value :=
  JS.Obj [("applist", JS.Obj [("apps", JS.Arr apps)])].

Definition old_catalog : JS.value := catalog [app 440 "Team Fortress 2"].

Definition new_catalog : JS.value :=
  catalog [app 440 "Team Fortress 2"; app 570 "Dota 2"].

Definition old_lookup : gmap string JS.value :=
  <["440" := JS.Str "Team Fortress 2"]> ∅.

Definition new_lookup : gmap string JS.value :=
  <["570" := JS.Str "Dota 2"]> (<["440" := JS.Str "Team Fortress 2"]> ∅).

Definition unreachable : JS.exn := JS.Error "getaddrinfo ENOTFOUND api.steampowered.com".

(** The catalog endpoint answers with the new catalog after 350 ms. *)
Definition online : Catalog.env :=
  Catalog.Env (parse_among [old_catalog; new_catalog]) stringify
              (inr (stringify new_catalog)) 350.

(** The catalog endpoint cannot be reached. *)
Definition offline : Catalog.env :=
  Catalog.Env (parse_among [old_catalog; new_catalog]) stringify
              (inl unreachable) 30000.

Definition day : Z := 24 * 60 * 60 * 1000.

(** Worlds at time [100 * day]: a cache written one day ago, a cache
    written eight days ago, no cache, and caches of both ages whose
    text is cut short. *)
Definition fresh_world : Catalog.world :=
  Catalog.World true (Some (Catalog.File (99 * day) (stringify old_catalog)))
                (100 * day) 0.

Definition stale_world : Catalog.world :=
  Catalog.World true (Some (Catalog.File (92 * day) (stringify old_catalog)))
                (100 * day) 0.

Definition absent_world : Catalog.world :=
  Catalog.World false None (100 * day) 0.

Definition corrupt_fresh_world : Catalog.world :=
  Catalog.World true (Some (Catalog.File (99 * day) "{")) (100 * day) 0.

Definition corrupt_stale_world : Catalog.world :=
  Catalog.World true (Some (Catalog.File (92 * day) "{")) (100 * day) 0.

(** A disk with a temporary directory, a game folder and 7-Zip. *)
Definition disk : Pipeline.node :=
  Pipeline.Dir
    [("C:", Pipeline.Dir
       [("Temp", Pipeline.Dir []);
        ("Games", Pipeline.Dir
           [("Portal", Pipeline.Dir [("steam_api.dll", Pipeline.File "original")])]);
        ("Program Files", Pipeline.Dir
           [("7-Zip", Pipeline.Dir [("7z.exe", Pipeline.File "7z")])])])].

Definition start : Pipeline.world := Pipeline.World disk [].

Definition game_folder : Pipeline.path := ["C:"; "Games"; "Portal"].

Definition fix_url : string := "https://github.com/fixes/releases/620.zip".
Definition cdn_url : string := "https://objects.githubusercontent.com/620.zip".

(** Three networks: the host answers 404; the host redirects to a CDN
    that serves the archive; the host redirects to a CDN that answers
    404. *)
Definition net_404 (k : nat) (url : string) : JS.exn + Pipeline.response :=
  if String.eqb url fix_url then inr (Pipeline.Response 404 "" "Not Found")
  else inl (JS.Error "getaddrinfo ENOTFOUND").

Definition net_redirect (k : nat) (url : string) : JS.exn + Pipeline.response :=
  if String.eqb url fix_url then inr (Pipeline.Response 302 cdn_url "")
  else if String.eqb url cdn_url then inr (Pipeline.Response 200 "" "PK-archive")
  else inl (JS.Error "getaddrinfo ENOTFOUND").

Definition net_redirect_404 (k : nat) (url : string) : JS.exn + Pipeline.response :=
  if String.eqb url fix_url then inr (Pipeline.Response 302 cdn_url "")
  else if String.eqb url cdn_url then inr (Pipeline.Response 404 "" "Not Found")
  else inl (JS.Error "getaddrinfo ENOTFOUND").

(** Tools: the library rejects the archive and 7-Zip unpacks a folder
    named after the game; or every tool fails. *)
Definition tools_7z (s : Pipeline.strategy) (archive : option Pipeline.node)
    (held : list (string * Pipeline.node))
  : list (string * Pipeline.node) * option JS.exn :=
  match s with
  | Pipeline.ExtractZip =>
      (held, Some (JS.Error "end of central directory record signature not found"))
  | Pipeline.SevenZip _ =>
      (held ++ [("620", Pipeline.Dir [("steam_api.dll", Pipeline.File "fixed")])], None)
  | Pipeline.WinRAR _ => (held, Some (JS.Error "Command failed: WinRAR.exe"))
  end.

Definition tools_none (s : Pipeline.strategy) (archive : option Pipeline.node)
    (held : list (string * Pipeline.node))
  : list (string * Pipeline.node) * option JS.exn :=
  match s with
  | Pipeline.ExtractZip =>
      (held, Some (JS.Error "end of central directory record signature not found"))
  | Pipeline.SevenZip _ => (held, Some (JS.Error "Command failed: 7z.exe"))
  | Pipeline.WinRAR _ => (held, Some (JS.Error "Command failed: WinRAR.exe"))
  end.

Definition machine (network : nat -> string -> JS.exn + Pipeline.response)
    (tools : Pipeline.strategy -> option Pipeline.node -> list (string * Pipeline.node)
             -> list (string * Pipeline.node) * option JS.exn) : Pipeline.env :=
  Pipeline.Env 1700000000000 ["C:"; "Temp"] None None network tools.

Definition workspace : Pipeline.path := ["C:"; "Temp"; "online-fix-1700000000000"].

(** An extraction folder whose archive had a folder named after the
    game with a suffix. *)
Definition unpacked : list (string * Pipeline.node) :=
  [("readme-440.txt", Pipeline.File "read me");
   ("440_fix", Pipeline.Dir [("steam_api.dll", Pipeline.File "fixed")]);
   ("other", Pipeline.Dir [])].

Definition unpacked_world : Pipeline.world :=
  Pipeline.World (Pipeline.Dir [("extracted", Pipeline.Dir unpacked)]) [].

(** A decoder that knows three encodings (and marks what it decoded), and
    rejects every other name as iconv-lite does. *)
Definition sample_codec : Fetcher.codec :=
  Fetcher.Codec
    (fun buffer encoding =>
       if String.eqb encoding "utf8" || String.eqb encoding "utf-8"
          || String.eqb encoding "windows-1251"
       then inr ("[" +:+ encoding +:+ "]" +:+ buffer)
       else inl (JS.Error ("Encoding not recognized: '" +:+ encoding +:+ "'")))
    (fun buffer => "[utf8]" +:+ buffer).

Definition page_utf8_label : Fetcher.response :=
  Fetcher.Response (Some "text/html; charset=utf8") ["<html>"; "</html>"].

Definition page_unknown_label : Fetcher.response :=
  Fetcher.Response (Some "text/html; Charset=KOI8-X ;q=1") ["<html>"; "</html>"].

Definition page_no_label : Fetcher.response :=
  Fetcher.Response None ["<html>"; "</html>"].

End Samples.

(* ===================================================================== *)
(** ** The plugin update ([update-onlinefix-appids], lines 595 to 684) *)
(* ===================================================================== *)

Module Plugin.

Import Pipeline.

Definition possiblePaths (E : env) : list path :=
  [ ["C:"; "Program Files (x86)"; "Steam"];
    ["C:"; "Program Files"; "Steam"];
    (env_or (ProgramFiles E) default_ProgramFiles ++ ["Steam"]);
    (env_or (ProgramFiles_x86 E) default_ProgramFiles_x86 ++ ["Steam"]) ].

(** The loop of lines 612 to 619: the first candidate that exists and
    holds [steam.exe]. *)
Fixpoint find_steam (paths : list path) : M (option path) :=
  match paths with
  | [] => Eff.ret None
  | p :: rest =>
      present <- existsSync p ;;
      marked <- (if present then existsSync (p ++ ["steam.exe"]) else Eff.ret false) ;;
      if marked then Eff.ret (Some p) else find_steam rest
  end.

Definition appIDs_url : string :=
  "https://raw.githubusercontent.com/ShayneVi/OnlineFix-Plugin/main/appIDs.txt".

(** The promise of lines 640 to 663: the text of the response, after at
    most one redirect. [text] is [Buffer.concat(chunks).toString('utf8')]
    as the bytes [writeFileSync(..., 'utf8')] writes for it. *)
Definition fetch_text (E : env) (text : string -> string) (url : string) : M string :=
  r <- https_get E url ;;
  match r with
  | inl err => Eff.throw err
  | inr response =>
      if (statusCode response =? 302) || (statusCode response =? 301) then
        let redirectUrl := location response in
        r' <- https_get E redirectUrl ;;
        match r' with
        | inl err => Eff.throw err
        | inr redirectResponse => Eff.ret (text (body redirectResponse))
        end
      else if negb (statusCode response =? 200) then
        Eff.throw (JS.Error ("Failed to download: " +:+ pretty (statusCode response)))
      else Eff.ret (text (body response))
  end.

(** The result object: [{success: true, message, path}] or
    [{success: false, error}]. *)
Inductive update_result :=
| UpdateOk (message : string) (saved : path)
| UpdateFail (error : string).

Definition steam_not_found : string :=
  "Steam installation not found. Please ensure Steam is installed.".

Definition plugin_not_found : string :=
  "OnlineFix plugin not found. Please install the plugin first.".

(** The body of the [try]: an early [return] is a result, a throw goes to
    the [catch]. *)
Definition update_body (E : env) (text : string -> string) : M update_result :=
  steamPath <- find_steam (possiblePaths E) ;;
  match steamPath with
  | None => Eff.ret (UpdateFail steam_not_found)
  | Some steamPath =>
      let pluginPath := steamPath ++ ["plugins"; "onlinefix"] in
      let appIDsPath := pluginPath ++ ["appIDs.txt"] in
      present <- existsSync pluginPath ;;
      if negb present then Eff.ret (UpdateFail plugin_not_found)
      else
        fileContent <- fetch_text E text appIDs_url ;;
        writeFile appIDsPath fileContent ;;;
        Eff.ret (UpdateOk "appIDs.txt updated successfully!" appIDsPath)
  end.

(** [ipcMain.handle('update-onlinefix-appids', ...)]. *)
Definition update_onlinefix_appids (E : env) (text : string -> string) (w : world)
  : update_result * world :=
  match update_body E text w with
  | (inr result, w') => (result, w')
  | (inl error, w') => (UpdateFail (JS.message error), w')
  end.

(** The first candidate of [paths] that holds [steam.exe] on the disk
    [n]. *)
Definition steam_at (n : node) (paths : list path) : option path :=
  List.find (fun p =>
               match lookup p n with
               | Some _ =>
                   match lookup (p ++ ["steam.exe"]) n with
                   | Some _ => true
                   | None => false
                   end
               | None => false
               end) paths.

End Plugin.

(* ===================================================================== *)
(** ** The renderer ([renderer.js]) *)
(* ===================================================================== *)

Module Renderer.

(** The two variables of the script. *)
Record state := State {
  steamAppListCache : gmap string JS.value;
  steamAppListLoaded : bool
}.

Definition initial : state := State ∅ false.

(** [window.electronAPI.getSteamAppList()], whose code is not part of the
    program, is a parameter: a call changes the outside [W] and resolves
    with a result object or rejects. *)
Definition api (W : Type) : Type := W -> (JS.exn + Catalog.applist_result) * W.

(** [loadSteamAppList]: what it returns, and the variables and the
    outside after it. *)
Definition loadSteamAppList {W} (getSteamAppList : api W) (s : state) (w : W)
  : gmap string JS.value * state * W :=
  if steamAppListLoaded s then (steamAppListCache s, s, w)
  else
    match getSteamAppList w with
    | (inr (Catalog.AppListOk apps _ _), w') =>
        (apps, State apps true, w')
    | (inr (Catalog.AppListFail _), w') => (∅, s, w')
    | (inl _, w') => (∅, s, w')
    end.

(** The API of the preload script, when it hands the call to the handler
    of the main process and hands its answer back. *)
Definition handler_api (E : Catalog.env) : api Catalog.world :=
  fun w => (inr (Catalog.get_steam_applist E w).1, (Catalog.get_steam_applist E w).2).

(** Whether a value counts as true in a condition. *)
Definition truthy (v : JS.value) : bool :=
  match v with
  | JS.Undefined | JS.Null => false
  | JS.Bool b => b
  | JS.Num n => negb (n =? 0)
  | JS.Str s => negb (String.eqb s "")
  | JS.Arr _ | JS.Obj _ => true
  end.

(** [getGameNameFromAppID], for a numeric identifier of the range that a
    double holds exactly ([Data.safe_integer]: its key and its text are
    its decimal digits, which name no inherited property of an object). *)
Definition getGameNameFromAppID (s : state) (appID : Z) : JS.value :=
  match steamAppListCache s !! pretty appID with
  | Some name => if truthy name then name else JS.Str ("Game " +:+ pretty appID)
  | None => JS.Str ("Game " +:+ pretty appID)
  end.

End Renderer.

(* ===================================================================== *)
(** ** Catalogs and trees, as data *)
(* ===================================================================== *)

Module Data.

Import Pipeline.

(** The catalog document for a list of identifiers and names:
    [{applist: {apps: [{appid, name}, ...]}}]. *)
Definition app_value (e : Z * string) : JS.value :=
  JS.Obj [("appid", JS.Num (fst e)); ("name", JS.Str (snd e))].

Definition catalog_value (entries : list (Z * string)) : JS.value :=
  JS.Obj [("applist", JS.Obj [("apps", JS.Arr (map app_value entries))])].

(** The integers a double holds exactly, [Number.MIN_SAFE_INTEGER] to
    [Number.MAX_SAFE_INTEGER]: for these [String(n)] is the decimal
    numeral. *)
Definition safe_integer (n : Z) : Prop :=
  -9007199254740991 <= n <= 9007199254740991.

(** The name of the last entry with identifier [id]. *)
Fixpoint last_name (id : Z) (entries : list (Z * string)) : option string :=
  match entries with
  | [] => None
  | (i, name) :: rest =>
      match last_name id rest with
      | Some later => Some later
      | None => if i =? id then Some name else None
      end
  end.

(** The number of directory levels of a tree. *)
Fixpoint depth (n : node) : nat :=
  match n with
  | File _ => O
  | Dir es =>
      S ((fix deepest (l : list (string * node)) : nat :=
            match l with
            | [] => O
            | (_, x) :: rest => Nat.max (depth x) (deepest rest)
            end) es)
  end.

(** No directory of the tree has two entries of one name. *)
Fixpoint distinct_names (n : node) : Prop :=
  match n with
  | File _ => True
  | Dir es =>
      List.NoDup (map fst es)
      /\ (fix each (l : list (string * node)) : Prop :=
            match l with
            | [] => True
            | (_, x) :: rest => distinct_names x /\ each rest
            end) es
  end.

(** The text does not start with an underscore. *)
Definition plain_head (s : string) : Prop :=
  match s with
  | EmptyString => True
  | String c _ => c <> "_"%char
  end.

(** The catalog store [dt] milliseconds later. *)
Definition later (dt : Z) (w : Catalog.world) : Catalog.world :=
  Catalog.World (Catalog.cache_dir w) (Catalog.cache_file w)
                (Catalog.clock w + dt) (Catalog.fetches w).

(** Removing an entry, whatever it is. *)
Definition erase (cur : option node) : option (option node) := Some None.

(** What [rmdir] does to an entry: only an empty directory can be
    removed (the rule of [rmdirSync]). *)
Definition drop_empty_dir (cur : option node) : option (option node) :=
  match cur with
  | Some (Dir []) => Some None
  | _ => None
  end.

(** The body of the loop of [copyRecursive], for one entry of the source
    directory. *)
Definition copy_entry (stack : nat) (src dest : path) (entry : string * bool) : M unit :=
  let srcPath := src ++ [fst entry] in
  let destPath := dest ++ [fst entry] in
  if snd entry then
    present <- existsSync destPath ;;
    (if present then Eff.ret tt else mkdirSync destPath) ;;;
    copyRecursive stack srcPath destPath
  else copyFileSync srcPath destPath.

(** An entry as [readdirSync] with [withFileTypes] lists it. *)
Definition dirent (e : string * node) : string * bool := (fst e, is_dir (snd e)).

End Data.

(* ===================================================================== *)
(** ** A machine with Steam *)
(* ===================================================================== *)

Module Installed.

Import Pipeline.

Definition steam : path := ["C:"; "Program Files (x86)"; "Steam"].

(** Steam with the plugin and a file of identifiers; Steam without the
    plugin. *)
Definition with_plugin : node :=
  Dir [("C:", Dir
     [("Program Files (x86)", Dir
        [("Steam", Dir
           [("steam.exe", File "MZ");
            ("plugins", Dir
               [("onlinefix", Dir [("appIDs.txt", File "440");
                                   ("plugin.json", File "{}")])])])])])].

Definition without_plugin : node :=
  Dir [("C:", Dir
     [("Program Files (x86)", Dir
        [("Steam", Dir [("steam.exe", File "MZ")])])])].

Definition net_ids (k : nat) (url : string) : JS.exn + response :=
  if String.eqb url Plugin.appIDs_url then inr (Response 200 "" "440 570 620")
  else inl (JS.Error "getaddrinfo ENOTFOUND").

Definition net_500 (k : nat) (url : string) : JS.exn + response :=
  if String.eqb url Plugin.appIDs_url then inr (Response 500 "" "Internal Server Error")
  else inl (JS.Error "getaddrinfo ENOTFOUND").

Definition machine (network : nat -> string -> JS.exn + response) : env :=
  Env 1700000000000 ["C:"; "Temp"] None None network Samples.tools_none.

End Installed.

(* ===================================================================== *)
(** ** An unpacked fix beside a game folder *)
(* ===================================================================== *)

Module Staged.

Import Pipeline.

Definition source : path := ["C:"; "Temp"; "fix"].

Definition target : path := ["C:"; "Games"; "Portal"].

Definition payload : list (string * node) :=
  [("steam_api.dll", File "fixed");
   ("docs", Dir [("readme.txt", File "read me")])].

Definition disk : node :=
  Dir [("C:", Dir
     [("Temp", Dir [("fix", Dir payload)]);
      ("Games", Dir
         [("Portal", Dir [("steam_api.dll", File "original");
                          ("save.dat", File "progress")])])])].

Definition staged : world := World disk [].

End Staged.

(* ===================================================================== *)
(** * Properties of the catalog cache *)
(* ===================================================================== *)

Section CatalogProperties.

Import Catalog Readings.

Variable E : env.

Lemma fetchSteamAppList_run (w : world) :
  fetchSteamAppList E w =
  (fetch_outcome E,
   World (cache_dir w) (cache_file w) (clock w + latency E) (S (fetches w))).
Proof. reflexivity. Qed.

Lemma ensureCacheDir_run (w : world) :
  ensureCacheDir w = (inr tt, World true (cache_file w) (clock w) (fetches w)).
Proof.
  unfold ensureCacheDir, Eff.bind, Eff.get, Eff.put, Eff.ret; simpl.
  destruct w as [[] c t n]; reflexivity.
Qed.

(** The lookup when the cache file is younger than seven days: the network
    is not used and the file is not written; the result is the parsed text
    of the file, and the parse error when the text does not parse. *)
Lemma getSteamAppList_fresh (w : world) (f : file) :
  cache_file w = Some f ->
  clock w - mtime f < CACHE_DURATION ->
  getSteamAppList E w =
  (JSON_parse E (content f), World true (Some f) (clock w) (fetches w)).
Proof.
  intros Hf Hage.
  unfold getSteamAppList, Eff.try_catch, Eff.bind.
  rewrite ensureCacheDir_run.
  unfold isCacheValid, readFileSync, existsSync, Eff.bind, Eff.get, Eff.ret,
    Eff.lift, Eff.throw; simpl.
  rewrite Hf; simpl.
  apply Z.ltb_lt in Hage; rewrite Hage; simpl.
  destruct (JSON_parse E (content f)) as [e|data] eqn:Hp; simpl.
  - rewrite Hp; reflexivity.
  - destruct (apps_length data); simpl; [rewrite Hp|]; reflexivity.
Qed.

(** The lookup when the cache file is seven days old or older. *)
Lemma getSteamAppList_stale (w : world) (f : file) :
  cache_file w = Some f ->
  CACHE_DURATION <= clock w - mtime f ->
  getSteamAppList E w =
  match fetch_outcome E with
  | inr data =>
      (inr data,
       World true
         (Some (File (clock w + latency E) (JSON_stringify E data)))
         (clock w + latency E) (S (fetches w)))
  | inl _ =>
      (JSON_parse E (content f),
       World true (Some f) (clock w + latency E) (S (fetches w)))
  end.
Proof.
  intros Hf Hage.
  unfold getSteamAppList, Eff.try_catch, Eff.bind.
  rewrite ensureCacheDir_run.
  unfold isCacheValid, Eff.bind, Eff.get, Eff.ret; simpl.
  rewrite Hf; simpl.
  apply Z.ltb_ge in Hage; rewrite Hage; simpl.
  unfold fetchSteamAppList, Eff.bind, Eff.get, Eff.put, Eff.lift; simpl.
  destruct (fetch_outcome E) as [err|data]; simpl.
  - unfold existsSync, readFileSync, Eff.bind, Eff.get, Eff.ret, Eff.lift; simpl.
    reflexivity.
  - reflexivity.
Qed.

(** The lookup when there is no cache file. *)
Lemma getSteamAppList_absent (w : world) :
  cache_file w = None ->
  getSteamAppList E w =
  match fetch_outcome E with
  | inr data =>
      (inr data,
       World true
         (Some (File (clock w + latency E) (JSON_stringify E data)))
         (clock w + latency E) (S (fetches w)))
  | inl err =>
      (inl err, World true None (clock w + latency E) (S (fetches w)))
  end.
Proof.
  intros Hf.
  unfold getSteamAppList, Eff.try_catch, Eff.bind.
  rewrite ensureCacheDir_run.
  unfold isCacheValid, Eff.bind, Eff.get, Eff.ret; simpl.
  rewrite Hf; simpl.
  unfold fetchSteamAppList, Eff.bind, Eff.get, Eff.put, Eff.lift; simpl.
  destruct (fetch_outcome E) as [err|data]; simpl; reflexivity.
Qed.

(** The handler in terms of the lookup: the [cached] field is the validity
    of the cache file after the lookup. *)
Lemma get_steam_applist_run (w : world) :
  get_steam_applist E w =
  match getSteamAppList E w with
  | (inr data, w1) =>
      match build_lookup data with
      | inr (appMap, n) => (AppListOk appMap n (valid_in w1), w1)
      | inl error => (AppListFail (JS.message error), w1)
      end
  | (inl error, w1) => (AppListFail (JS.message error), w1)
  end.
Proof.
  unfold get_steam_applist.
  destruct (getSteamAppList E w) as [[error|data] w1]; [reflexivity|].
  destruct (build_lookup data) as [error|[appMap n]]; [reflexivity|].
  unfold isCacheValid, valid_in, Eff.bind, Eff.get, Eff.ret; simpl.
  destruct (cache_file w1); reflexivity.
Qed.

(** C2. Seven days are 604800000 ms. For a cache file of age
    [a = clock - mtime]: when [a] is below seven days the lookup returns
    the parse of the file's text, sends no request and leaves the file as
    it is; when [a] is seven days or more and the remote fetch succeeds
    with [data], the lookup returns [data], has sent one request, and the
    cache file now holds [JSON.stringify(data)]. *)
Theorem cache_age_decides_fetch (w : world) (f : file) :
  cache_file w = Some f ->
  (clock w - mtime f < 604800000 ->
     (getSteamAppList E w).1 = JSON_parse E (content f)
     /\ fetches (getSteamAppList E w).2 = fetches w
     /\ cache_file (getSteamAppList E w).2 = Some f)
  /\
  (604800000 <= clock w - mtime f ->
     forall data, fetch_outcome E = inr data ->
       (getSteamAppList E w).1 = inr data
       /\ fetches (getSteamAppList E w).2 = S (fetches w)
       /\ cache_file (getSteamAppList E w).2 =
            Some (File (clock w + latency E) (JSON_stringify E data))).
Proof.
  intros Hf; split.
  - intros Hage. rewrite (getSteamAppList_fresh w f Hf Hage). auto.
  - intros Hage data Hfetch.
    rewrite (getSteamAppList_stale w f Hf Hage), Hfetch. auto.
Qed.

(** C3. A stale cache file and a failed fetch: the lookup returns the
    parsed stale snapshot and leaves the file as it is, and the handler
    answers with a success object built from it. No cache file and a
    failed fetch: the lookup throws the error of the fetch, and the handler
    answers with a failure object carrying its message. *)
Theorem stale_fallback_absent_failure (w : world) (err : JS.exn) :
  fetch_outcome E = inl err ->
  (forall f data appMap n,
     cache_file w = Some f ->
     604800000 <= clock w - mtime f ->
     JSON_parse E (content f) = inr data ->
     build_lookup data = inr (appMap, n) ->
     (getSteamAppList E w).1 = inr data
     /\ cache_file (getSteamAppList E w).2 = Some f
     /\ success (get_steam_applist E w).1 = true
     /\ exists cached, (get_steam_applist E w).1 = AppListOk appMap n cached)
  /\
  (cache_file w = None ->
     (getSteamAppList E w).1 = inl err
     /\ (get_steam_applist E w).1 = AppListFail (JS.message err)).
Proof.
  intros Hfetch; split.
  - intros f data appMap n Hf Hage Hparse Hbuild.
    rewrite get_steam_applist_run.
    rewrite (getSteamAppList_stale w f Hf Hage), Hfetch, Hparse; simpl.
    rewrite Hbuild; simpl. eauto.
  - intros Hf.
    rewrite get_steam_applist_run.
    rewrite (getSteamAppList_absent w Hf), Hfetch; simpl. auto.
Qed.

(** X3. The [cached] flag after a fetch that succeeded, from a stale or an
    absent cache: the file was just written, so the flag is [true]. *)
Lemma cached_after_fetch (w : world) (data : JS.value)
    (appMap : gmap string JS.value) (n : JS.value) :
  valid_in w = false ->
  fetch_outcome E = inr data ->
  build_lookup data = inr (appMap, n) ->
  (get_steam_applist E w).1 = AppListOk appMap n true.
Proof.
  intros Hvalid Hfetch Hbuild.
  rewrite get_steam_applist_run.
  unfold valid_in in Hvalid.
  destruct (cache_file w) as [f|] eqn:Hf.
  - apply Z.ltb_ge in Hvalid.
    rewrite (getSteamAppList_stale w f Hf Hvalid), Hfetch, Hbuild; simpl.
    unfold valid_in; simpl. rewrite Z.sub_diag. reflexivity.
  - rewrite (getSteamAppList_absent w Hf), Hfetch, Hbuild; simpl.
    unfold valid_in; simpl. rewrite Z.sub_diag. reflexivity.
Qed.

(** X4. The [cached] flag after the stale fallback: the file is still stale,
    so the flag is [false] (requests take time, not give it back). *)
Lemma cached_after_stale_fallback (w : world) (f : file) (err : JS.exn)
    (data : JS.value) (appMap : gmap string JS.value) (n : JS.value) :
  cache_file w = Some f ->
  604800000 <= clock w - mtime f ->
  0 <= latency E ->
  fetch_outcome E = inl err ->
  JSON_parse E (content f) = inr data ->
  build_lookup data = inr (appMap, n) ->
  (get_steam_applist E w).1 = AppListOk appMap n false.
Proof.
  intros Hf Hage Hlat Hfetch Hparse Hbuild.
  rewrite get_steam_applist_run.
  rewrite (getSteamAppList_stale w f Hf Hage), Hfetch, Hparse, Hbuild; simpl.
  unfold valid_in; simpl.
  replace (clock w + latency E - mtime f <? CACHE_DURATION) with false; [reflexivity|].
  symmetry; apply Z.ltb_ge. unfold CACHE_DURATION. lia.
Qed.

(** C8, amended. Whether a request is sent depends on the age of the cache
    file alone, not on whether its text parses. With a text that does not
    parse: a file of seven days or more makes the lookup send one request,
    and when that request fails the lookup fails (with the parse error: the
    file is no fallback); a file younger than seven days makes the lookup
    fail with the parse error without sending a request. *)
Theorem corrupt_cache_by_age (w : world) (f : file) (e : JS.exn) :
  cache_file w = Some f ->
  JSON_parse E (content f) = inl e ->
  (604800000 <= clock w - mtime f ->
     fetches (getSteamAppList E w).2 = S (fetches w)
     /\ (forall err, fetch_outcome E = inl err ->
           (getSteamAppList E w).1 = inl e
           /\ (get_steam_applist E w).1 = AppListFail (JS.message e)))
  /\
  (clock w - mtime f < 604800000 ->
     fetches (getSteamAppList E w).2 = fetches w
     /\ (getSteamAppList E w).1 = inl e
     /\ (get_steam_applist E w).1 = AppListFail (JS.message e)).
Proof.
  intros Hf Hparse; split; intros Hage.
  - rewrite get_steam_applist_run, (getSteamAppList_stale w f Hf Hage).
    split.
    + destruct (fetch_outcome E); reflexivity.
    + intros err Hfetch. rewrite Hfetch, Hparse; simpl. auto.
  - rewrite get_steam_applist_run, (getSteamAppList_fresh w f Hf Hage), Hparse.
    simpl. auto.
Qed.

End CatalogProperties.

Lemma cache_age_decides_fetch_witness :
  (Catalog.getSteamAppList Samples.offline Samples.fresh_world).1
    = inr Samples.old_catalog
  /\ Catalog.fetches (Catalog.getSteamAppList Samples.offline Samples.fresh_world).2 = O
  /\ (Catalog.getSteamAppList Samples.online Samples.stale_world).1
    = inr Samples.new_catalog
  /\ Catalog.fetches (Catalog.getSteamAppList Samples.online Samples.stale_world).2 = 1%nat.
Proof.
  destruct (cache_age_decides_fetch Samples.offline Samples.fresh_world _ eq_refl)
    as [Hfresh _].
  destruct (cache_age_decides_fetch Samples.online Samples.stale_world _ eq_refl)
    as [_ Hstale].
  destruct Hfresh as (H1 & H2 & _); [vm_compute; reflexivity|].
  destruct (Hstale ltac:(vm_compute; discriminate) Samples.new_catalog eq_refl)
    as (H3 & H4 & _).
  repeat split; assumption.
Defined.

Lemma stale_fallback_absent_failure_witness :
  Catalog.success (Catalog.get_steam_applist Samples.offline Samples.stale_world).1 = true
  /\ (Catalog.get_steam_applist Samples.offline Samples.absent_world).1
     = Catalog.AppListFail "getaddrinfo ENOTFOUND api.steampowered.com".
Proof.
  destruct (stale_fallback_absent_failure Samples.offline Samples.stale_world
              Samples.unreachable eq_refl) as [Hstale _].
  destruct (stale_fallback_absent_failure Samples.offline Samples.absent_world
              Samples.unreachable eq_refl) as [_ Habsent].
  destruct (Hstale _ Samples.old_catalog Samples.old_lookup (JS.Num 1) eq_refl
              ltac:(vm_compute; discriminate) eq_refl eq_refl) as (_ & _ & H & _).
  destruct (Habsent eq_refl) as [_ H'].
  split; assumption.
Defined.

(** C4 at its failing inputs. With no cache file and the endpoint up, the
    data is fetched (one request) and the flag is [true]; with a stale
    cache file and the endpoint down, the data is read from the cache file
    and the flag is [false]. *)
Theorem cached_flag_is_validity_not_origin :
  Catalog.get_steam_applist Samples.online Samples.absent_world =
    (Catalog.AppListOk Samples.new_lookup (JS.Num 2) true,
     Catalog.World true
       (Some (Catalog.File (100 * Samples.day + 350)
                (Samples.stringify Samples.new_catalog)))
       (100 * Samples.day + 350) 1)
  /\
  Catalog.get_steam_applist Samples.offline Samples.stale_world =
    (Catalog.AppListOk Samples.old_lookup (JS.Num 1) false,
     Catalog.World true
       (Some (Catalog.File (92 * Samples.day)
                (Samples.stringify Samples.old_catalog)))
       (100 * Samples.day + 30000) 1).
Proof. split; vm_compute; reflexivity. Qed.

(** C8 as stated fails: a cut-short cache file written one day ago, with
    the endpoint up, and no request is sent. *)
Lemma corrupt_fresh_cache_is_not_refetched :
  ~ Readings.corrupt_cache_as_absent Samples.online Samples.corrupt_fresh_world.
Proof.
  intros H.
  destruct (H _ (JS.SyntaxError "Unexpected token in JSON") eq_refl eq_refl)
    as [Hfetch _].
  vm_compute in Hfetch. discriminate.
Qed.

Lemma corrupt_cache_by_age_witness :
  (Catalog.get_steam_applist Samples.offline Samples.corrupt_stale_world).1
    = Catalog.AppListFail "Unexpected token in JSON"
  /\ Catalog.fetches (Catalog.getSteamAppList Samples.online Samples.corrupt_fresh_world).2 = O.
Proof.
  destruct (corrupt_cache_by_age Samples.offline Samples.corrupt_stale_world _
              (JS.SyntaxError "Unexpected token in JSON") eq_refl eq_refl)
    as [Hstale _].
  destruct (corrupt_cache_by_age Samples.online Samples.corrupt_fresh_world _
              (JS.SyntaxError "Unexpected token in JSON") eq_refl eq_refl)
    as [_ Hfresh].
  destruct (Hstale ltac:(vm_compute; discriminate)) as [_ H1].
  destruct (H1 Samples.unreachable eq_refl) as [_ H2].
  destruct Hfresh as (H3 & _); [vm_compute; reflexivity|].
  split; assumption.
Defined.

(* ===================================================================== *)
(** * Properties of the remote text fetcher *)
(* ===================================================================== *)

Section FetcherProperties.

Import Fetcher Readings.

Local Arguments String.append !s1 s2 : simpl nomatch.

Lemma after_keyword_sound (kw s rest : string) :
  after_keyword kw s = Some rest ->
  exists k, s = k +:+ rest /\ fold_all k = fold_all kw.
Proof.
  revert s; induction kw as [|a kw IH]; intros s H; simpl in H.
  - exists EmptyString. simpl. split; [congruence|reflexivity].
  - destruct s as [|c s]; [discriminate|].
    destruct (Ascii.eqb (fold_case a) (fold_case c)) eqn:Hc; [|discriminate].
    apply Ascii.eqb_eq in Hc.
    destruct (IH _ H) as (k & -> & Hk).
    exists (String c k). simpl. split; [reflexivity|congruence].
Qed.

Lemma after_keyword_complete (kw k rest : string) :
  fold_all k = fold_all kw ->
  after_keyword kw (k +:+ rest) = Some rest.
Proof.
  revert k; induction kw as [|a kw IH]; intros k H.
  - destruct k; [reflexivity|discriminate].
  - destruct k as [|c k]; [discriminate|].
    simpl in H. injection H as Hc Hk. simpl.
    rewrite Hc, Ascii.eqb_refl. apply IH, Hk.
Qed.

Lemma until_semicolon_split (s : string) :
  exists rest, s = until_semicolon s +:+ rest
               /\ (rest = EmptyString \/ exists r, rest = String ";" r).
Proof.
  induction s as [|c s (rest & Hs & Hrest)]; simpl.
  - exists EmptyString. auto.
  - destruct (Ascii.eqb c ";") eqn:Hc.
    + apply Ascii.eqb_eq in Hc; subst c. exists (String ";" s). eauto.
    + exists rest. simpl. split; [congruence|assumption].
Qed.

Lemma until_semicolon_free (s : string) :
  mentions ";" (until_semicolon s) = false.
Proof.
  induction s as [|c s IH]; cbn [until_semicolon]; [reflexivity|].
  destruct (Ascii.eqb c ";") eqn:Hc; cbn [mentions]; [reflexivity|].
  rewrite Ascii.eqb_sym, Hc. exact IH.
Qed.

Lemma charset_here_sound (s v : string) :
  charset_here s = Some v ->
  exists kw rest,
    s = kw +:+ v +:+ rest
    /\ fold_all kw = "charset="
    /\ v <> EmptyString
    /\ mentions ";" v = false
    /\ (rest = EmptyString \/ exists r, rest = String ";" r).
Proof.
  unfold charset_here. intros H.
  destruct (after_keyword "charset=" s) as [tail|] eqn:Hk; [|discriminate].
  destruct (after_keyword_sound _ _ _ Hk) as (kw & -> & Hkw).
  destruct (until_semicolon_split tail) as (rest & Htail & Hrest).
  pose proof (until_semicolon_free tail) as Hfree.
  destruct (until_semicolon tail) as [|c u] eqn:Hu; [discriminate|].
  injection H as <-.
  exists kw, rest. repeat split; try assumption; [congruence|discriminate].
Qed.

Lemma charset_here_complete (kw rest : string) (c : ascii) :
  fold_all kw = "charset=" ->
  c <> ";"%char ->
  exists v, charset_here (kw +:+ String c rest) = Some v.
Proof.
  intros Hkw Hc. unfold charset_here.
  rewrite (after_keyword_complete "charset=" kw (String c rest) Hkw). simpl.
  destruct (Ascii.eqb c ";") eqn:E; [apply Ascii.eqb_eq in E; contradiction|].
  eauto.
Qed.

(** X10. [charset_match] is the leftmost match of [/charset=([^;]+)/i]: the
    text splits into a prefix, the keyword in any case, the captured run
    of characters other than semicolons, which is not empty and ends at a
    semicolon or at the end, and no match starts earlier. *)
Lemma charset_match_leftmost (s v : string) :
  charset_match s = Some v ->
  exists pre kw rest,
    s = pre +:+ kw +:+ v +:+ rest
    /\ fold_all kw = "charset="
    /\ v <> EmptyString
    /\ mentions ";" v = false
    /\ (rest = EmptyString \/ exists r, rest = String ";" r)
    /\ forall pre' kw' c rest',
         s = pre' +:+ kw' +:+ String c rest' ->
         fold_all kw' = "charset=" -> c <> ";"%char ->
         (String.length pre <= String.length pre')%nat.
Proof.
  induction s as [|a s IH]; cbn [charset_match]; intros H.
  - vm_compute in H. discriminate.
  - destruct (charset_here (String a s)) as [u|] eqn:Hh.
    + injection H as ->.
      destruct (charset_here_sound _ _ Hh) as (kw & rest & Hs & Hkw & Hv & Hfree & Hrest).
      exists EmptyString, kw, rest. simpl.
      repeat split; try assumption. intros; lia.
    + destruct (IH H) as (pre & kw & rest & Hs & Hkw & Hv & Hfree & Hrest & Hleft).
      exists (String a pre), kw, rest. simpl.
      repeat split; try assumption; [congruence|].
      intros pre' kw' c rest' Hs' Hkw' Hc.
      destruct pre' as [|b pre']; simpl in Hs'.
      * destruct (charset_here_complete kw' rest' c Hkw' Hc) as (u & Hu).
        rewrite <- Hs' in Hu. congruence.
      * injection Hs' as _ Hs'. simpl.
        apply le_n_S. eapply Hleft; eassumption.
Qed.

(** When [charset_match] finds nothing, the text has no occurrence of the
    keyword followed by a character other than a semicolon. *)
Lemma charset_match_none (s : string) :
  charset_match s = None ->
  forall pre kw c rest,
    s = pre +:+ kw +:+ String c rest -> fold_all kw = "charset=" -> c = ";"%char.
Proof.
  intros H pre; revert s H.
  induction pre as [|b pre IH]; intros s H kw c rest Hs Hkw; simpl in Hs.
  - destruct (ascii_dec c ";") as [|Hc]; [assumption|].
    destruct (charset_here_complete kw rest c Hkw Hc) as (u & Hu).
    rewrite <- Hs in Hu.
    destruct s; cbn [charset_match] in H; rewrite Hu in H; discriminate.
  - subst s. cbn [charset_match] in H.
    destruct (charset_here (String b (pre +:+ kw +:+ String c rest))); [discriminate|].
    eapply IH; [exact H|reflexivity|assumption].
Qed.

Variable C : codec.

(** C9, amended. With [contentType] the header (or the empty text) and
    [buffer] the bytes received: (1) when the header gives a charset the
    encoding is that charset, trimmed and in lower case, and [utf8] when it
    gives none, unless the override is taken; (2) the override to
    windows-1251 is taken exactly for a URL that mentions online-fix.me
    when the encoding so far is [utf8], that is when the header gives no
    charset or gives [utf8] itself; (3) once the response has arrived the
    handler resolves: with the decoding under the chosen encoding, and
    with the UTF-8 decoding of the bytes when that decoding throws. *)
Theorem encoding_choice_and_fallback (url : string) (res : response) :
  let contentType := match content_type res with Some h => h | None => "" end in
  let buffer := Buffer_concat (chunks res) in
  (forall m, charset_match contentType = Some m ->
             override_applies url contentType = false ->
             chosen_encoding url contentType = toLowerCase (trim m))
  /\ (charset_match contentType = None ->
      override_applies url contentType = false ->
      chosen_encoding url contentType = "utf8")
  /\ (override_applies url contentType = true <->
      includes url "online-fix.me" = true
      /\ (charset_match contentType = None
          \/ exists m, charset_match contentType = Some m
                       /\ toLowerCase (trim m) = "utf8"))
  /\ (override_applies url contentType = true ->
      chosen_encoding url contentType = "windows-1251")
  /\ (forall https_get data,
        https_get url = inr res ->
        iconv_decode C buffer (chosen_encoding url contentType) = inr data ->
        fetch_remote_file C https_get url = inr data)
  /\ (forall https_get e,
        https_get url = inr res ->
        iconv_decode C buffer (chosen_encoding url contentType) = inl e ->
        fetch_remote_file C https_get url = inr (toString_utf8 C buffer)).
Proof.
  intros contentType buffer.
  assert (Hiff : override_applies url contentType = true <->
                 includes url "online-fix.me" = true
                 /\ (charset_match contentType = None
                     \/ exists m, charset_match contentType = Some m
                                  /\ toLowerCase (trim m) = "utf8")).
  { unfold override_applies, header_encoding.
    rewrite andb_true_iff, String.eqb_eq.
    destruct (charset_match contentType) as [m|].
    - split; intros [Hurl Hm]; (split; [exact Hurl|]).
      + right. eauto.
      + destruct Hm as [Hm|(m' & Hm' & Hm)]; congruence.
    - split; intros [Hurl _]; auto. }
  split; [|split; [|split; [exact Hiff|split; [|split]]]].
  - intros m Hm Hov. unfold chosen_encoding, header_encoding. rewrite Hov, Hm. reflexivity.
  - intros Hm Hov. unfold chosen_encoding, header_encoding. rewrite Hov, Hm. reflexivity.
  - intros Hov. unfold chosen_encoding. rewrite Hov. reflexivity.
  - intros https_get data Hres Hd. unfold fetch_remote_file, on_end.
    rewrite Hres. fold contentType buffer. rewrite Hd. reflexivity.
  - intros https_get e Hres He. unfold fetch_remote_file, on_end.
    rewrite Hres. fold contentType buffer. rewrite He. reflexivity.
Qed.

End FetcherProperties.

(** C9 as stated fails: the header names [utf8] itself, and the override
    is taken all the same. *)
Lemma override_despite_explicit_charset :
  ~ Readings.override_only_without_charset "https://online-fix.me/games/" "text/html; charset=utf8".
Proof.
  intros H. specialize (H eq_refl). vm_compute in H. discriminate.
Qed.

Lemma encoding_choice_and_fallback_witness :
  Fetcher.fetch_remote_file Samples.sample_codec
    (fun _ => inr Samples.page_unknown_label) "https://example.org/"
    = inr "[utf8]<html></html>"
  /\ Fetcher.chosen_encoding "https://example.org/" "text/html; Charset=KOI8-X ;q=1"
     = "koi8-x"
  /\ Fetcher.chosen_encoding "https://online-fix.me/games/" "" = "windows-1251".
Proof.
  destruct (encoding_choice_and_fallback Samples.sample_codec
              "https://example.org/" Samples.page_unknown_label)
    as (Hcs & _ & _ & _ & _ & Hfall).
  destruct (encoding_choice_and_fallback Samples.sample_codec
              "https://online-fix.me/games/" Samples.page_no_label)
    as (_ & _ & _ & Hov & _ & _).
  split; [|split].
  - exact (Hfall (fun _ => inr Samples.page_unknown_label)
             (JS.Error "Encoding not recognized: 'koi8-x'") eq_refl eq_refl).
  - exact (Hcs "KOI8-X " eq_refl eq_refl).
  - exact (Hov eq_refl).
Defined.

(* ===================================================================== *)
(** * Properties of the file system *)
(* ===================================================================== *)

Section FileSystemFacts.

Import Pipeline.

Lemma find_entry_set_same (c : string) (x : node) (es : list (string * node)) :
  find_entry c (set_entry c x es) = Some x.
Proof.
  induction es as [|[n y] es IH]; simpl.
  - rewrite String.eqb_refl. reflexivity.
  - destruct (String.eqb c n) eqn:Hc; simpl; rewrite Hc; [reflexivity|exact IH].
Qed.

Lemma find_entry_set_other (c d : string) (x : node) (es : list (string * node)) :
  String.eqb c d = false ->
  find_entry d (set_entry c x es) = find_entry d es.
Proof.
  intros Hcd. induction es as [|[n y] es IH]; simpl.
  - rewrite String.eqb_sym, Hcd. reflexivity.
  - destruct (String.eqb c n) eqn:Hc; simpl.
    + apply String.eqb_eq in Hc; subst n.
      rewrite (String.eqb_sym d c), Hcd. reflexivity.
    + rewrite IH. reflexivity.
Qed.

Lemma find_entry_remove_same (c : string) (es : list (string * node)) :
  find_entry c (remove_entry c es) = None.
Proof.
  induction es as [|[n y] es IH]; simpl; [reflexivity|].
  destruct (String.eqb c n) eqn:Hc; simpl; [exact IH|].
  rewrite Hc. exact IH.
Qed.

Lemma find_entry_remove_other (c d : string) (es : list (string * node)) :
  String.eqb c d = false ->
  find_entry d (remove_entry c es) = find_entry d es.
Proof.
  intros Hcd. induction es as [|[n y] es IH]; simpl; [reflexivity|].
  destruct (String.eqb c n) eqn:Hc; simpl.
  - apply String.eqb_eq in Hc; subst n.
    rewrite String.eqb_sym, Hcd. exact IH.
  - rewrite IH. reflexivity.
Qed.

Lemma lookup_app (p q : path) (n : node) :
  lookup (p ++ q) n =
  match lookup p n with
  | Some x => lookup q x
  | None => None
  end.
Proof.
  revert n; induction p as [|c p IH]; intros n; simpl; [reflexivity|].
  destruct n as [|es]; [reflexivity|].
  destruct (find_entry c es); [apply IH|reflexivity].
Qed.

Lemma apart_cons (c d : string) (p q : path) :
  apart (c :: p) (d :: q) = true ->
  String.eqb c d = false \/ (c = d /\ apart p q = true).
Proof.
  unfold apart; simpl. rewrite (String.eqb_sym d c).
  destruct (String.eqb c d) eqn:Hcd; simpl; [|auto].
  apply String.eqb_eq in Hcd. auto.
Qed.

Lemma apart_nil_r (p : path) : apart p [] = false.
Proof. unfold apart. destruct p; reflexivity. Qed.

Lemma apart_nil_l (q : path) : apart [] q = false.
Proof. reflexivity. Qed.

Lemma is_prefix_app (p s : path) : is_prefix p (p ++ s) = true.
Proof.
  induction p as [|c p IH]; simpl; [reflexivity|].
  rewrite String.eqb_refl. exact IH.
Qed.

(** A path apart from [p] is apart from every path inside [p]. *)
Lemma apart_inside (p s q : path) :
  apart p q = true -> apart (p ++ s) q = true.
Proof.
  revert q; induction p as [|c p IH]; intros q H.
  - rewrite apart_nil_l in H. discriminate.
  - destruct q as [|d q]; [rewrite apart_nil_r in H; discriminate|].
    destruct (apart_cons _ _ _ _ H) as [Hcd|[-> Hpq]].
    + unfold apart; simpl. rewrite (String.eqb_sym d c), Hcd. reflexivity.
    + specialize (IH _ Hpq). unfold apart in *; simpl.
      rewrite String.eqb_refl. exact IH.
Qed.

Lemma lookup_cons (c : string) (p : path) (es : list (string * node)) :
  lookup (c :: p) (Dir es) =
  match find_entry c es with
  | Some x => lookup p x
  | None => None
  end.
Proof. reflexivity. Qed.

Lemma update_last (c : string) (f : option node -> option (option node))
    (es : list (string * node)) :
  update [c] f (Dir es) =
  match f (find_entry c es) with
  | Some (Some x) => Some (Dir (set_entry c x es))
  | Some None => Some (Dir (remove_entry c es))
  | None => None
  end.
Proof. reflexivity. Qed.

Lemma update_deeper (c c' : string) (p : path)
    (f : option node -> option (option node)) (es : list (string * node)) :
  update (c :: c' :: p) f (Dir es) =
  match find_entry c es with
  | Some y =>
      match update (c' :: p) f y with
      | Some y' => Some (Dir (set_entry c y' es))
      | None => None
      end
  | None => None
  end.
Proof. reflexivity. Qed.

(** [update] leaves alone what is apart from the path it changes. *)
Lemma update_apart (p q : path) (f : option node -> option (option node))
    (n n' : node) :
  update p f n = Some n' ->
  apart p q = true ->
  lookup q n' = lookup q n.
Proof.
  revert q n n'; induction p as [|c p IH]; intros q n n' Hup Hpq.
  - discriminate.
  - destruct q as [|d q]; [rewrite apart_nil_r in Hpq; discriminate|].
    destruct n as [|es]; [destruct p; discriminate|].
    destruct (apart_cons _ _ _ _ Hpq) as [Hcd|[<- Hpq']].
    + (* another entry of this directory *)
      destruct p as [|c' p].
      * rewrite update_last in Hup.
        destruct (f (find_entry c es)) as [[x|]|]; inversion Hup; subst;
          rewrite !lookup_cons.
        -- rewrite (find_entry_set_other _ _ _ _ Hcd). reflexivity.
        -- rewrite (find_entry_remove_other _ _ _ Hcd). reflexivity.
      * rewrite update_deeper in Hup.
        destruct (find_entry c es) as [y|]; [|discriminate].
        destruct (update (c' :: p) f y) as [y'|]; inversion Hup; subst.
        rewrite !lookup_cons, (find_entry_set_other _ _ _ _ Hcd). reflexivity.
    + (* the same entry: the change is further down *)
      destruct p as [|c' p]; [destruct q; discriminate|].
      rewrite update_deeper in Hup.
      destruct (find_entry c es) as [y|] eqn:Hy; [|discriminate].
      destruct (update (c' :: p) f y) as [y'|] eqn:Hy'; inversion Hup; subst.
      rewrite !lookup_cons, find_entry_set_same, Hy.
      apply (IH _ _ _ Hy' Hpq').
Qed.

Lemma lookup_empty_dir (q : path) : q <> [] -> lookup q (Dir []) = None.
Proof. destruct q; [congruence|reflexivity]. Qed.

(** [mkdir -p] leaves alone what is apart from the directory it makes. *)
Lemma mkdir_p_apart (p q : path) (n n' : node) :
  mkdir_p p n = Some n' ->
  apart p q = true ->
  lookup q n' = lookup q n.
Proof.
  revert q n n'; induction p as [|c p IH]; intros q n n' Hmk Hpq.
  - rewrite apart_nil_l in Hpq. discriminate.
  - destruct q as [|d q]; [rewrite apart_nil_r in Hpq; discriminate|].
    destruct n as [|es]; [discriminate|].
    simpl in Hmk.
    destruct (mkdir_p p (match find_entry c es with Some x => x | None => Dir [] end))
      as [x'|] eqn:Hx; inversion Hmk; subst.
    destruct (apart_cons _ _ _ _ Hpq) as [Hcd|[<- Hpq']]; simpl.
    + rewrite (find_entry_set_other _ _ _ _ Hcd). reflexivity.
    + rewrite find_entry_set_same.
      rewrite (IH _ _ _ Hx Hpq').
      destruct (find_entry c es); [reflexivity|].
      apply lookup_empty_dir. intros ->. rewrite apart_nil_r in Hpq'. discriminate.
Qed.

(** After [update], the entry is what [f] made of it. *)
Lemma update_lookup (p : path) (f : option node -> option (option node))
    (n n' : node) :
  update p f n = Some n' ->
  exists r, f (lookup p n) = Some r /\ lookup p n' = r.
Proof.
  revert n n'; induction p as [|c p IH]; intros n n' Hup; [discriminate|].
  destruct n as [|es]; [destruct p; discriminate|].
  destruct p as [|c' p].
  - rewrite update_last in Hup.
    assert (Hcur : lookup [c] (Dir es) = find_entry c es).
    { rewrite lookup_cons. destruct (find_entry c es); reflexivity. }
    rewrite Hcur.
    destruct (f (find_entry c es)) as [[x|]|] eqn:Hf; inversion Hup; subst;
      rewrite lookup_cons.
    + rewrite find_entry_set_same. eauto.
    + rewrite find_entry_remove_same. eauto.
  - rewrite update_deeper in Hup.
    destruct (find_entry c es) as [y|] eqn:Hy; [|discriminate].
    destruct (update (c' :: p) f y) as [y'|] eqn:Hy'; inversion Hup; subst.
    destruct (IH _ _ Hy') as (r & Hr & Hl).
    exists r. rewrite !lookup_cons, find_entry_set_same, Hy. auto.
Qed.

(** Where one [update] went through, another one at the same path goes
    through when its function accepts the entry. *)
Lemma update_again (p : path) (f g : option node -> option (option node))
    (n n1 : node) (r : option node) :
  update p f n = Some n1 ->
  g (lookup p n1) = Some r ->
  exists n2, update p g n1 = Some n2 /\ lookup p n2 = r.
Proof.
  revert n n1; induction p as [|c p IH]; intros n n1 Hup Hg; [discriminate|].
  destruct n as [|es]; [destruct p; discriminate|].
  destruct p as [|c' p].
  - rewrite update_last in Hup.
    assert (exists es1, n1 = Dir es1) as [es1 ->].
    { destruct (f (find_entry c es)) as [[x|]|]; inversion Hup; eauto. }
    rewrite update_last.
    assert (Hg' : g (find_entry c es1) = Some r).
    { rewrite lookup_cons in Hg. destruct (find_entry c es1); exact Hg. }
    rewrite Hg'. destruct r as [x|].
    + eexists; split; [reflexivity|]. rewrite lookup_cons, find_entry_set_same. reflexivity.
    + eexists; split; [reflexivity|]. rewrite lookup_cons, find_entry_remove_same. reflexivity.
  - rewrite update_deeper in Hup.
    destruct (find_entry c es) as [y|] eqn:Hy; [|discriminate].
    destruct (update (c' :: p) f y) as [y'|] eqn:Hy'; inversion Hup; subst.
    rewrite lookup_cons, find_entry_set_same in Hg.
    destruct (IH _ _ Hy' Hg) as (n2 & Hn2 & Hl).
    exists (Dir (set_entry c n2 (set_entry c y' es))). split.
    + rewrite update_deeper, find_entry_set_same, Hn2. reflexivity.
    + rewrite lookup_cons, find_entry_set_same. exact Hl.
Qed.

End FileSystemFacts.

(* ===================================================================== *)
(** * What the first phase of a run preserves *)
(* ===================================================================== *)

Section Preservation.

Import Pipeline Readings.

(** A relation between the file system before and after, reflexive and
    transitive. *)
Variable R : node -> node -> Prop.
Hypothesis R_refl : forall n, R n n.
Hypothesis R_trans : forall a b c, R a b -> R b c -> R a c.

Lemma preserves_ret {A} (a : A) : preserves R (Eff.ret a).
Proof. intros w. apply R_refl. Qed.

Lemma preserves_throw {A} (e : JS.exn) : preserves R (Eff.throw (A := A) e).
Proof. intros w. apply R_refl. Qed.

Lemma preserves_bind {A B} (c : M A) (k : A -> M B) :
  preserves R c -> (forall a, preserves R (k a)) -> preserves R (Eff.bind c k).
Proof.
  intros Hc Hk w. unfold Eff.bind.
  specialize (Hc w). destruct (c w) as [[e|a] w']; simpl in *; [exact Hc|].
  exact (R_trans _ _ _ Hc (Hk a w')).
Qed.

Lemma preserves_try_catch {A} (c : M A) (h : JS.exn -> M A) :
  preserves R c -> (forall e, preserves R (h e)) -> preserves R (Eff.try_catch c h).
Proof.
  intros Hc Hh w. unfold Eff.try_catch.
  specialize (Hc w). destruct (c w) as [[e|a] w']; simpl in *; [|exact Hc].
  exact (R_trans _ _ _ Hc (Hh e w')).
Qed.

Lemma preserves_change (err : JS.exn) (step : node -> option node) :
  (forall n n', step n = Some n' -> R n n') ->
  preserves R (change err step).
Proof.
  intros Hstep w. unfold change, Eff.bind, Eff.get, Eff.put, Eff.throw; simpl.
  destruct (step (fs w)) as [n'|] eqn:Hn; simpl; [|apply R_refl].
  apply (Hstep _ _ Hn).
Qed.

Lemma preserves_record (ev : event) : preserves R (record ev).
Proof. intros w. apply R_refl. Qed.

Lemma preserves_existsSync (p : path) : preserves R (existsSync p).
Proof. intros w. apply R_refl. Qed.

Variable E : env.

Lemma preserves_https_get (url : string) : preserves R (https_get E url).
Proof. intros w. apply R_refl. Qed.

(** The directory the phase works in, and what every change inside it
    does. *)
Variable dir : path.
Hypothesis R_update :
  forall c s f n n', update (dir ++ c :: s) f n = Some n' -> R n n'.
Hypothesis R_mkdir :
  forall s n n', mkdir_p (dir ++ s) n = Some n' -> R n n'.

Lemma preserves_mkdirSync (s : path) : preserves R (mkdirSync (dir ++ s)).
Proof. apply preserves_change. intros n n'. apply R_mkdir. Qed.

Lemma preserves_writeFile (c : string) (data : string) :
  preserves R (writeFile (dir ++ [c]) data).
Proof. apply preserves_change. intros n n'. apply R_update. Qed.

Lemma preserves_unlink_ignored (c : string) :
  preserves R (unlink_ignored (dir ++ [c])).
Proof.
  apply preserves_try_catch; [|intros; apply preserves_ret].
  apply preserves_change. intros n n'. apply R_update.
Qed.

Lemma preserves_download_promise (url : string) (c : string) :
  preserves R (download_promise E url (dir ++ [c])).
Proof.
  unfold download_promise.
  apply preserves_bind; [apply preserves_writeFile|intros _].
  apply preserves_bind; [apply preserves_https_get|intros [err|response]].
  - apply preserves_bind; [apply preserves_unlink_ignored|intros; apply preserves_throw].
  - destruct ((statusCode response =? 302) || (statusCode response =? 301)).
    + apply preserves_bind; [apply preserves_https_get|intros [err|redirectResponse]].
      * apply preserves_bind;
          [apply preserves_unlink_ignored|intros; apply preserves_throw].
      * apply preserves_writeFile.
    + destruct (negb (statusCode response =? 200)).
      * apply preserves_throw.
      * apply preserves_writeFile.
Qed.

Lemma preserves_attempt (s : strategy) (zip : path) (c : string) :
  preserves R (attempt E s zip (dir ++ [c])).
Proof.
  intros w. unfold attempt, Eff.bind, Eff.get, Eff.put, Eff.ret; simpl.
  destruct (run E s (lookup zip (fs w)) _) as [after failure]; simpl.
  destruct (update (dir ++ [c]) _ (fs w)) as [n|] eqn:Hn; [|apply R_refl].
  exact (R_update _ _ _ _ _ Hn).
Qed.

Lemma preserves_try_paths (tool : path -> strategy) (paths : list path)
    (zip : path) (c : string) (lastError : option JS.exn) :
  preserves R (try_paths E tool paths zip (dir ++ [c]) lastError).
Proof.
  revert lastError.
  induction paths as [|p paths IH]; intros lastError; simpl.
  - apply preserves_ret.
  - apply preserves_bind; [apply preserves_existsSync|intros [|]].
    + apply preserves_bind; [apply preserves_attempt|intros [error|]].
      * apply IH.
      * apply preserves_ret.
    + apply preserves_bind; [apply preserves_record|intros _; apply IH].
Qed.

Lemma preserves_extract_archive (zip : path) (c : string) :
  preserves R (extract_archive E zip (dir ++ [c])).
Proof.
  unfold extract_archive.
  apply preserves_bind; [apply preserves_attempt|intros failure].
  assert (Hlast : forall r : bool * option JS.exn,
            preserves R (let '(extractionSuccess, lastError) := r in
                         if negb extractionSuccess
                         then Eff.throw (all_failed lastError)
                         else Eff.ret tt)).
  { intros [[|] lastError]; [apply preserves_ret|apply preserves_throw]. }
  assert (Hwinrar : forall r : bool * option JS.exn,
            preserves R (let '(extractionSuccess, lastError) := r in
                         if negb extractionSuccess
                         then try_paths E WinRAR (winrarPaths E) zip (dir ++ [c]) lastError
                         else Eff.ret (extractionSuccess, lastError))).
  { intros [[|] lastError]; [apply preserves_ret|apply preserves_try_paths]. }
  destruct failure as [error|]; cbn [negb].
  - apply preserves_bind; [apply preserves_try_paths|intros r].
    destruct r as [b lastError].
    apply preserves_bind; [apply (Hwinrar (b, lastError))|intros r; apply Hlast].
  - apply preserves_bind; [apply preserves_ret|intros r].
    destruct r as [b lastError].
    apply preserves_bind; [apply (Hwinrar (b, lastError))|intros r; apply Hlast].
Qed.

(** The workspace, the download and the extraction, when [dir] is the
    temporary directory of the run. *)
Lemma preserves_download_and_extract (url fileName : string) :
  dir = tempDir E ->
  preserves R (download_and_extract E url fileName).
Proof.
  intros Hdir. unfold download_and_extract. rewrite <- Hdir.
  apply preserves_bind; [apply preserves_existsSync|intros present].
  apply preserves_bind.
  { destruct present; [apply preserves_ret|].
    rewrite <- (app_nil_r dir). apply preserves_mkdirSync. }
  intros _.
  apply preserves_bind; [apply preserves_download_promise|intros _].
  apply preserves_bind; [apply preserves_existsSync|intros present'].
  apply preserves_bind.
  { destruct present'; [apply preserves_ret|apply preserves_mkdirSync]. }
  intros _.
  apply preserves_bind; [apply preserves_extract_archive|intros _].
  apply preserves_ret.
Qed.

End Preservation.

Section WorkspaceFacts.

Import Pipeline Readings.

Lemma writeFile_run (p : path) (data : string) (w : world) :
  writeFile p data w =
  match update p (put_file data) (fs w) with
  | Some fs' => (inr tt, World fs' (log w))
  | None => (inl EISDIR, w)
  end.
Proof.
  unfold writeFile, change, Eff.bind, Eff.get, Eff.put, Eff.throw; simpl.
  destruct (update p (put_file data) (fs w)); reflexivity.
Qed.

Lemma unlink_ignored_run (p : path) (w : world) :
  unlink_ignored p w = (inr tt, World (unlinked p (fs w)) (log w)).
Proof.
  unfold unlink_ignored, unlinkSync, unlinked, change, Eff.try_catch, Eff.bind,
    Eff.get, Eff.put, Eff.throw, Eff.ret; simpl.
  destruct (update p drop_file (fs w)); [reflexivity|].
  destruct w; reflexivity.
Qed.

Lemma count_gets_app (l1 l2 : list event) :
  count_gets (l1 ++ l2) = (count_gets l1 + count_gets l2)%nat.
Proof.
  induction l1 as [|[u|s f|s] l1 IH]; simpl; rewrite ?IH; reflexivity.
Qed.

(** A change inside a directory leaves that directory in place. *)
Lemma update_ancestor (dir : path) (c : string) (s : path)
    (f : option node -> option (option node)) (n n' : node) :
  update (dir ++ c :: s) f n = Some n' ->
  exists es, lookup dir n' = Some (Dir es).
Proof.
  revert n n'; induction dir as [|d dir IH]; intros n n' Hup.
  - change ([] ++ c :: s) with (c :: s) in Hup.
    destruct n as [|es0]; [destruct s; discriminate|].
    destruct s as [|c' s].
    + rewrite update_last in Hup.
      destruct (f (find_entry c es0)) as [[x|]|]; inversion Hup; simpl; eauto.
    + rewrite update_deeper in Hup.
      destruct (find_entry c es0) as [y|]; [|discriminate].
      destruct (update (c' :: s) f y); inversion Hup; simpl; eauto.
  - change ((d :: dir) ++ c :: s) with (d :: (dir ++ c :: s)) in Hup.
    destruct (dir ++ c :: s) as [|c' rest] eqn:Hrest.
    { destruct dir; discriminate. }
    destruct n as [|es0]; [discriminate|].
    rewrite update_deeper in Hup.
    destruct (find_entry d es0) as [y|]; [|discriminate].
    destruct (update (c' :: rest) f y) as [y'|] eqn:Hy'; inversion Hup; subst.
    rewrite lookup_cons, find_entry_set_same.
    exact (IH _ _ Hy').
Qed.

(** [mkdir -p] leaves every directory on the way in place. *)
Lemma mkdir_p_ancestor (dir s : path) (n n' : node) :
  mkdir_p (dir ++ s) n = Some n' ->
  exists es, lookup dir n' = Some (Dir es).
Proof.
  revert n n'; induction dir as [|d dir IH]; intros n n' Hmk.
  - change ([] ++ s) with s in Hmk.
    destruct s as [|c s]; destruct n as [|es0]; simpl in Hmk; try discriminate.
    + inversion Hmk; simpl; eauto.
    + destruct (mkdir_p s _); inversion Hmk; simpl; eauto.
  - destruct n as [|es0]; [discriminate|].
    simpl in Hmk.
    destruct (mkdir_p (dir ++ s) _) as [x'|] eqn:Hx; inversion Hmk; subst.
    rewrite lookup_cons, find_entry_set_same. exact (IH _ _ Hx).
Qed.

End WorkspaceFacts.

(* ===================================================================== *)
(** * Properties of the pipeline *)
(* ===================================================================== *)

Section PipelineProperties.

Import Pipeline Readings.

Variable E : env.

(** The handler when the first phase throws: the failure object carries
    the message, and nothing more is done. *)
Lemma download_extract_fix_early_failure (stack : nat) (url : string)
    (targetFolder : path) (appID fileName : string) (w w' : world) (e : JS.exn) :
  download_and_extract E url fileName w = (inl e, w') ->
  download_extract_fix E stack url targetFolder appID fileName w
  = (FixFail (JS.message e), w').
Proof.
  intros H. unfold download_extract_fix, Eff.bind. rewrite H. reflexivity.
Qed.


(** X14. A run whose first phase throws: the handler answers with the failure
    and removes nothing. Either the disk is as it was before the run, or
    the temporary directory is on it. *)
Lemma early_failure_leaves_workspace (stack : nat) (url : string)
    (targetFolder : path) (appID fileName : string) (w w' : world) (e : JS.exn) :
  download_and_extract E url fileName w = (inl e, w') ->
  download_extract_fix E stack url targetFolder appID fileName w
    = (FixFail (JS.message e), w')
  /\ (fs w' = fs w \/ lookup (tempDir E) (fs w') <> None).
Proof.
  intros Hfail. split.
  - apply download_extract_fix_early_failure, Hfail.
  - assert (H : preserves (still_there (tempDir E))
                 (download_and_extract E url fileName)).
    { apply (preserves_download_and_extract (still_there (tempDir E)))
        with (dir := tempDir E); [| | | |reflexivity].
      - intros n. left. reflexivity.
      - intros a b c [->|Hab] [->|Hbc]; unfold still_there; auto.
      - intros c s f n n' Hup. right.
        destruct (update_ancestor _ _ _ _ _ _ Hup) as (es & ->). discriminate.
      - intros s n n' Hmk. right.
        destruct (mkdir_p_ancestor _ _ _ _ Hmk) as (es & ->). discriminate. }
    specialize (H w). rewrite Hfail in H. exact H.
Qed.

End PipelineProperties.



(** C1 at its failing inputs. The host answers 404: the handler returns
    the failure and the workspace it made is still on the disk, with the
    empty archive file in it. Every extraction method fails: the same,
    with the archive and the extraction folder. When the run succeeds the
    workspace is gone. *)
Theorem workspace_left_behind_on_failure :
  Pipeline.lookup Samples.workspace Samples.disk = None
  /\
  (let out := Pipeline.download_extract_fix
                (Samples.machine Samples.net_404 Samples.tools_7z)
                64 Samples.fix_url Samples.game_folder "620" "620.zip" Samples.start in
   out.1 = Pipeline.FixFail "Failed to download: 404"
   /\ Pipeline.lookup Samples.workspace (Pipeline.fs out.2)
      = Some (Pipeline.Dir [("620.zip", Pipeline.File "")]))
  /\
  (let out := Pipeline.download_extract_fix
                (Samples.machine Samples.net_redirect Samples.tools_none)
                64 Samples.fix_url Samples.game_folder "620" "620.zip" Samples.start in
   out.1 = Pipeline.FixFail
             "All extraction methods failed. Last error: Command failed: 7z.exe. Please install 7-Zip or WinRAR."
   /\ Pipeline.lookup Samples.workspace (Pipeline.fs out.2)
      = Some (Pipeline.Dir [("620.zip", Pipeline.File "PK-archive");
                            ("extracted", Pipeline.Dir [])]))
  /\
  (let out := Pipeline.download_extract_fix
                (Samples.machine Samples.net_redirect Samples.tools_7z)
                64 Samples.fix_url Samples.game_folder "620" "620.zip" Samples.start in
   out.1 = Pipeline.FixOk "Fix extracted successfully!"
   /\ Pipeline.lookup Samples.workspace (Pipeline.fs out.2) = None
   /\ Pipeline.lookup Samples.game_folder (Pipeline.fs out.2)
      = Some (Pipeline.Dir [("steam_api.dll", Pipeline.File "fixed")])).
Proof. repeat split; vm_compute; reflexivity. Qed.

(* ===================================================================== *)
(** * Properties of the download *)
(* ===================================================================== *)

Section DownloadProperties.

Import Pipeline Readings.

Variable E : env.

(** The download, step by step: the stream is opened, the first request
    is sent, and its answer decides. *)
Lemma download_promise_run (url : string) (dest : path) (w : world) :
  download_promise E url dest w =
  match update dest (put_file "") (fs w) with
  | None => (inl EISDIR, w)
  | Some fs1 =>
      let k := count_gets (log w) in
      match network E k url with
      | inl err => (inl err, World (unlinked dest fs1) (log w ++ [GET url]))
      | inr r1 =>
          if (statusCode r1 =? 302) || (statusCode r1 =? 301) then
            match network E (S k) (location r1) with
            | inl err =>
                (inl err,
                 World (unlinked dest fs1) (log w ++ [GET url; GET (location r1)]))
            | inr r2 =>
                writeFile dest (body r2)
                  (World fs1 (log w ++ [GET url; GET (location r1)]))
            end
          else if negb (statusCode r1 =? 200) then
            (inl (JS.Error ("Failed to download: " +:+ pretty (statusCode r1))),
             World fs1 (log w ++ [GET url]))
          else writeFile dest (body r1) (World fs1 (log w ++ [GET url]))
      end
  end.
Proof.
  unfold download_promise.
  unfold Eff.bind at 1. rewrite writeFile_run.
  destruct (update dest (put_file "") (fs w)) as [fs1|]; [|reflexivity].
  unfold Eff.bind at 1.
  change (https_get E url (World fs1 (log w)))
    with (inr (A := JS.exn) (network E (count_gets (log w)) url),
          World fs1 (log w ++ [GET url])).
  cbv zeta.
  destruct (network E (count_gets (log w)) url) as [err|r1].
  - unfold Eff.bind. rewrite unlink_ignored_run. reflexivity.
  - destruct ((statusCode r1 =? 302) || (statusCode r1 =? 301));
      [|destruct (negb (statusCode r1 =? 200)); reflexivity].
    unfold Eff.bind at 1.
    change (https_get E (location r1) (World fs1 (log w ++ [GET url])))
      with (inr (A := JS.exn)
              (network E (count_gets (log w ++ [GET url])) (location r1)),
            World fs1 ((log w ++ [GET url]) ++ [GET (location r1)])).
    assert (Hk : count_gets (log w ++ [GET url]) = S (count_gets (log w))).
    { rewrite count_gets_app. simpl. lia. }
    rewrite Hk, <- app_assoc. simpl app.
    destruct (network E (S (count_gets (log w))) (location r1)) as [err|r2];
      [|reflexivity].
    unfold Eff.bind. rewrite unlink_ignored_run. reflexivity.
Qed.

(** A file written where the stream was opened: the write goes through
    and the file holds the data. *)
Lemma write_after_open (dest : path) (data : string) (n fs1 : node)
    (l : list event) :
  update dest (put_file "") n = Some fs1 ->
  exists fs2,
    writeFile dest data (World fs1 l) = (inr tt, World fs2 l)
    /\ lookup dest fs2 = Some (File data).
Proof.
  intros Hopen.
  destruct (update_lookup _ _ _ _ Hopen) as (r & Hr & Hl).
  assert (r = Some (File "")) as ->.
  { unfold put_file in Hr. destruct (lookup dest n) as [[|]|]; congruence. }
  destruct (update_again dest (put_file "") (put_file data) n fs1 (Some (File data)) Hopen)
    as (fs2 & Hfs2 & Hl2).
  { rewrite Hl. reflexivity. }
  exists fs2. rewrite writeFile_run. simpl. rewrite Hfs2. auto.
Qed.


End DownloadProperties.

(** C5 at its failing input. The host redirects to a CDN that answers
    404: two requests are sent, the download succeeds, and the page of the
    error is what the archive file holds. The same 404 as a first response
    fails the download with an error that carries the status. *)
Theorem redirected_error_page_saved_as_archive :
  (let out := Pipeline.download_promise
                (Samples.machine Samples.net_redirect_404 Samples.tools_7z)
                Samples.fix_url ["C:"; "Temp"; "620.zip"] Samples.start in
   out.1 = inr tt
   /\ Pipeline.log out.2 = [Pipeline.GET Samples.fix_url; Pipeline.GET Samples.cdn_url]
   /\ Pipeline.lookup ["C:"; "Temp"; "620.zip"] (Pipeline.fs out.2)
      = Some (Pipeline.File "Not Found"))
  /\
  (Pipeline.download_promise (Samples.machine Samples.net_404 Samples.tools_7z)
     Samples.fix_url ["C:"; "Temp"; "620.zip"] Samples.start).1
  = inl (JS.Error "Failed to download: 404")
  /\
  (Pipeline.download_bypass
     (Samples.machine Samples.net_redirect_404 Samples.tools_7z)
     (Some ["C:"; "Temp"; "bypass.zip"]) Samples.fix_url Samples.start).1
  = Pipeline.BypassOk "Bypass downloaded successfully!" ["C:"; "Temp"; "bypass.zip"].
Proof. repeat split; vm_compute; reflexivity. Qed.

(** The reading of C5 fails there: the final response has status 404 and
    the download does not fail. *)
Lemma redirected_status_is_not_checked :
  ~ Readings.final_status_checked
      (Samples.machine Samples.net_redirect_404 Samples.tools_7z)
      Samples.fix_url ["C:"; "Temp"; "620.zip"] Samples.start.
Proof.
  intros H.
  specialize (H (Pipeline.Response 404 "" "Not Found") eq_refl ltac:(discriminate)).
  vm_compute in H. discriminate.
Qed.


(* ===================================================================== *)
(** * Properties of the extraction chain *)
(* ===================================================================== *)

Section ExtractionProperties.

Import Pipeline Readings.

Local Arguments String.append !s1 s2 : simpl nomatch.

(** What [visits] says of a record, in three plain facts: the strategies
    it mentions are the first ones of the list, in its order; when the
    chain won, the record ends with the one success; when it lost, every
    candidate was visited and none succeeded. *)
Lemma visits_in_order (ss : list strategy) (evs : list event) (won : bool) :
  visits ss evs won ->
  map candidate evs = map Some (take (length evs) ss).
Proof.
  induction 1; simpl; congruence.
Qed.

Lemma visits_won (ss : list strategy) (evs : list event) :
  visits ss evs true ->
  exists init s,
    evs = init ++ [ATTEMPT s None] /\ forallb (fun ev => negb (succeeded ev)) init = true.
Proof.
  intros H. remember true as won eqn:Hwon.
  induction H as [|s ss evs won H IH|s e ss evs won H IH|s ss]; [discriminate| | |].
  - destruct (IH Hwon) as (init & s' & -> & Hinit).
    exists (SKIP s :: init), s'. auto.
  - destruct (IH Hwon) as (init & s' & -> & Hinit).
    exists (ATTEMPT s (Some e) :: init), s'. auto.
  - exists [], s. auto.
Qed.

Lemma visits_lost (ss : list strategy) (evs : list event) :
  visits ss evs false ->
  map candidate evs = map Some ss
  /\ forallb (fun ev => negb (succeeded ev)) evs = true.
Proof.
  intros H. remember false as won eqn:Hwon.
  induction H as [|s ss evs won H IH|s e ss evs won H IH|s ss]; simpl.
  - auto.
  - destruct (IH Hwon) as [-> ->]. auto.
  - destruct (IH Hwon) as [-> ->]. auto.
  - discriminate.
Qed.

Lemma visits_app_won (ss1 ss2 : list strategy) (evs : list event) :
  visits ss1 evs true -> visits (ss1 ++ ss2) evs true.
Proof.
  intros H. remember true as won eqn:Hwon.
  induction H; simpl; subst; try discriminate; constructor; auto.
Qed.

Lemma visits_app_lost (ss1 ss2 : list strategy) (evs1 evs2 : list event) (won : bool) :
  visits ss1 evs1 false -> visits ss2 evs2 won ->
  visits (ss1 ++ ss2) (evs1 ++ evs2) won.
Proof.
  intros H1 H2. remember false as lost eqn:Hlost.
  induction H1; simpl; subst; try discriminate; try constructor; auto.
Qed.

Lemma last_failure_app (l1 l2 : list event) (acc : option JS.exn) :
  last_failure (l1 ++ l2) acc = last_failure l2 (last_failure l1 acc).
Proof.
  revert acc; induction l1 as [|[u|s [e|]|s] l1 IH]; intros acc; simpl; auto.
Qed.

Lemma prefix_append (m b : string) : String.prefix m (m +:+ b) = true.
Proof.
  induction m as [|c m IH]; simpl; [destruct b; reflexivity|].
  destruct (ascii_dec c c); [exact IH|contradiction].
Qed.

Lemma includes_unfold (s sub : string) :
  Fetcher.includes s sub =
  String.prefix sub s || match s with
                         | EmptyString => false
                         | String _ rest => Fetcher.includes rest sub
                         end.
Proof. destruct s; reflexivity. Qed.

Lemma includes_append (a m b : string) :
  Fetcher.includes (a +:+ m +:+ b) m = true.
Proof.
  induction a as [|c a IH].
  - simpl. rewrite includes_unfold, prefix_append. reflexivity.
  - change (String c a +:+ m +:+ b) with (String c (a +:+ m +:+ b)).
    rewrite includes_unfold, IH. apply orb_true_r.
Qed.

Lemma append_assoc (a b c : string) : (a +:+ b) +:+ c = a +:+ b +:+ c.
Proof. induction a as [|x a IH]; simpl; [reflexivity|]. rewrite IH. reflexivity. Qed.

(** The message of the final error holds the message of the last failure
    and the hint. *)
Lemma all_failed_message (error : JS.exn) :
  Fetcher.includes (JS.message (all_failed (Some error))) (JS.message error) = true
  /\ Fetcher.includes (JS.message (all_failed (Some error)))
       "Please install 7-Zip or WinRAR." = true.
Proof.
  unfold all_failed, last_message. cbn [JS.message]. split.
  - destruct (String.eqb (JS.message error) "") eqn:Hm.
    + apply String.eqb_eq in Hm. rewrite Hm. reflexivity.
    + apply includes_append.
  - change ". Please install 7-Zip or WinRAR."
      with (". " +:+ "Please install 7-Zip or WinRAR." +:+ "").
    set (lm := if String.eqb (JS.message error) "" then "Unknown error"
               else JS.message error).
    rewrite <- (append_assoc lm ". " ("Please install 7-Zip or WinRAR." +:+ "")).
    rewrite <- (append_assoc "All extraction methods failed. Last error: "
                  (lm +:+ ". ") ("Please install 7-Zip or WinRAR." +:+ "")).
    apply includes_append.
Qed.

Variable E : env.

(** A chain decides what is done: its record, the file system it leaves
    and its outcome are determined by the file system it starts on. *)
Lemma chain_deterministic (zip dir : path) (ss : list strategy) (n : node)
    (evs1 evs2 : list event) (n1 n2 : node) (won1 won2 : bool) :
  chain E zip dir ss n evs1 n1 won1 ->
  chain E zip dir ss n evs2 n2 won2 ->
  evs1 = evs2 /\ n1 = n2 /\ won1 = won2.
Proof.
  intros H1; revert evs2 n2 won2.
  induction H1 as [n|s ss n evs n' won Hi H IH|s e ss n evs n' won Hi Ho H IH|s ss n Hi Ho];
    intros evs2 n2 won2 H2; inversion H2; subst; try congruence.
  - auto.
  - destruct (IH _ _ _ ltac:(eassumption)) as (-> & -> & ->). auto.
  - assert (e0 = e) as -> by congruence.
    destruct (IH _ _ _ ltac:(eassumption)) as (-> & -> & ->). auto.
  - auto.
Qed.

(** The record of a chain is one that [visits] describes. *)
Lemma chain_visits (zip dir : path) (ss : list strategy) (n n' : node)
    (evs : list event) (won : bool) :
  chain E zip dir ss n evs n' won -> visits ss evs won.
Proof. induction 1; constructor; assumption. Qed.

Lemma chain_app_won (zip dir : path) (ss1 ss2 : list strategy) (n n' : node)
    (evs : list event) :
  chain E zip dir ss1 n evs n' true -> chain E zip dir (ss1 ++ ss2) n evs n' true.
Proof.
  intros H. remember true as won eqn:Hwon.
  induction H; simpl; subst; try discriminate.
  - apply chain_skip; auto.
  - apply chain_failure; auto.
  - apply chain_success; auto.
Qed.

Lemma chain_app_lost (zip dir : path) (ss1 ss2 : list strategy) (n n1 n2 : node)
    (evs1 evs2 : list event) (won : bool) :
  chain E zip dir ss1 n evs1 n1 false ->
  chain E zip dir ss2 n1 evs2 n2 won ->
  chain E zip dir (ss1 ++ ss2) n (evs1 ++ evs2) n2 won.
Proof.
  intros H1 H2. remember false as lost eqn:Hlost.
  induction H1; simpl; subst; try discriminate.
  - exact H2.
  - apply chain_skip; auto.
  - apply chain_failure; auto.
Qed.

(** One attempt runs the tool: its outcome and what it leaves are the
    tool's. *)
Lemma attempt_run (s : strategy) (zip dir : path) (w : world) :
  attempt E s zip dir w
  = (inr (tool_run E s zip dir (fs w)).2,
     World (tool_run E s zip dir (fs w)).1
           (log w ++ [ATTEMPT s (tool_run E s zip dir (fs w)).2])).
Proof.
  unfold attempt, tool_run, Eff.bind, Eff.get, Eff.put, Eff.ret; simpl.
  destruct (run E s (lookup zip (fs w)) _) as [after failure]; reflexivity.
Qed.

(** The loop over the paths of one tool is a chain over them. *)
Lemma try_paths_chain (tool : path -> strategy) (paths : list path)
    (zip dir : path) (lastError : option JS.exn) (w : world) :
  (forall p n, installed (tool p) n = match lookup p n with
                                      | Some _ => true
                                      | None => false
                                      end) ->
  exists evs won lastError' fs',
    try_paths E tool paths zip dir lastError w
    = (inr (won, lastError'), World fs' (log w ++ evs))
    /\ chain E zip dir (map tool paths) (fs w) evs fs' won
    /\ (won = false -> lastError' = last_failure evs lastError).
Proof.
  intros Htool. revert lastError w.
  induction paths as [|p paths IH]; intros lastError w; cbn [try_paths map].
  - exists [], false, lastError, (fs w).
    rewrite app_nil_r. destruct w. split; [reflexivity|]. split; [constructor|reflexivity].
  - unfold Eff.bind at 1. unfold existsSync at 1, Eff.bind at 1, Eff.get, Eff.ret.
    pose proof (Htool p (fs w)) as Hp.
    destruct (lookup p (fs w)) as [x|].
    + unfold Eff.bind at 1. rewrite attempt_run.
      destruct (tool_run E (tool p) zip dir (fs w)).2 as [error|] eqn:Hout.
      * destruct (IH (Some error)
                    (World (tool_run E (tool p) zip dir (fs w)).1
                           (log w ++ [ATTEMPT (tool p) (Some error)])))
          as (evs & won & le & fs2 & -> & Hchain & Hlast).
        exists (ATTEMPT (tool p) (Some error) :: evs), won, le, fs2.
        cbn [log]. rewrite <- app_assoc.
        split; [reflexivity|]. split; [|exact Hlast].
        apply chain_failure; assumption.
      * exists [ATTEMPT (tool p) None], true, lastError,
          (tool_run E (tool p) zip dir (fs w)).1.
        split; [reflexivity|]. split; [|discriminate].
        apply chain_success; assumption.
    + unfold Eff.bind at 1, record, Eff.bind at 1, Eff.get, Eff.put.
      destruct (IH lastError (World (fs w) (log w ++ [SKIP (tool p)])))
        as (evs & won & le & fs2 & -> & Hchain & Hlast).
      exists (SKIP (tool p) :: evs), won, le, fs2.
      cbn [log]. rewrite <- app_assoc.
      split; [reflexivity|]. split; [|exact Hlast].
      apply chain_skip; assumption.
Qed.

(** The extraction, in one equation, and the chain it is. *)
Lemma extract_archive_chain (zip dir : path) (w : world) :
  exists evs won r fs',
    extract_archive E zip dir w = (r, World fs' (log w ++ evs))
    /\ chain E zip dir (strategies E) (fs w) evs fs' won
    /\ (exists rest,
          evs = ATTEMPT ExtractZip (tool_run E ExtractZip zip dir (fs w)).2 :: rest)
    /\ (won = true -> r = inr tt)
    /\ (won = false ->
        exists error,
          last_failure evs None = Some error /\ r = inl (all_failed (Some error))).
Proof.
  unfold extract_archive, strategies.
  unfold Eff.bind at 1. rewrite attempt_run.
  destruct (tool_run E ExtractZip zip dir (fs w)).2 as [error|] eqn:Hout; cbn [negb].
  - (* the library failed: 7-Zip *)
    unfold Eff.bind at 1.
    destruct (try_paths_chain SevenZip (sevenZipPaths E) zip dir (Some error)
                (World (tool_run E ExtractZip zip dir (fs w)).1
                       (log w ++ [ATTEMPT ExtractZip (Some error)]))
                (fun p n => eq_refl))
      as (evs1 & won1 & le1 & fs2 & -> & Hc1 & Hl1).
    cbn [log fs] in *. rewrite <- app_assoc. cbn [app].
    destruct won1; cbn [negb].
    + (* 7-Zip succeeded *)
      exists (ATTEMPT ExtractZip (Some error) :: evs1), true, (inr tt), fs2.
      split; [reflexivity|]. split.
      { apply chain_failure; [reflexivity|exact Hout|]. apply chain_app_won, Hc1. }
      split; [eauto|]. split; [reflexivity|discriminate].
    + (* 7-Zip failed or is not installed: WinRAR *)
      unfold Eff.bind at 1.
      destruct (try_paths_chain WinRAR (winrarPaths E) zip dir le1
                  (World fs2 (log w ++ ATTEMPT ExtractZip (Some error) :: evs1))
                  (fun p n => eq_refl))
        as (evs2 & won2 & le2 & fs3 & -> & Hc2 & Hl2).
      cbn [log fs] in *. rewrite <- app_assoc. cbn [app].
      assert (Hchain : chain E zip dir
                         (ExtractZip :: map SevenZip (sevenZipPaths E)
                            ++ map WinRAR (winrarPaths E))
                         (fs w)
                         (ATTEMPT ExtractZip (Some error) :: evs1 ++ evs2) fs3 won2).
      { apply chain_failure; [reflexivity|exact Hout|].
        eapply chain_app_lost; eassumption. }
      destruct won2; cbn [negb].
      * exists (ATTEMPT ExtractZip (Some error) :: evs1 ++ evs2), true, (inr tt), fs3.
        split; [reflexivity|]. split; [exact Hchain|].
        split; [eauto|]. split; [reflexivity|discriminate].
      * assert (Hlast : last_failure (ATTEMPT ExtractZip (Some error) :: evs1 ++ evs2) None
                        = le2).
        { cbn [last_failure]. rewrite last_failure_app, <- (Hl1 eq_refl), (Hl2 eq_refl).
          reflexivity. }
        assert (exists error', le2 = Some error') as [error' ->].
        { rewrite <- Hlast. cbn [last_failure].
          clear. generalize (evs1 ++ evs2) as l. generalize error as e.
          intros e l; revert e;
            induction l as [|[u|s [e'|]|s] l IH]; intros e; cbn [last_failure]; eauto. }
        exists (ATTEMPT ExtractZip (Some error) :: evs1 ++ evs2), false,
          (inl (all_failed (Some error'))), fs3.
        split; [reflexivity|]. split; [exact Hchain|].
        split; [eauto|]. split; [discriminate|]. eauto.
  - (* the library succeeded *)
    exists [ATTEMPT ExtractZip None], true, (inr tt),
      (tool_run E ExtractZip zip dir (fs w)).1.
    split; [reflexivity|]. split; [apply chain_success; [reflexivity|exact Hout]|].
    split; [eauto|]. split; [reflexivity|discriminate].
Qed.

(** C6. An extraction is a chain over the library, 7-Zip at each known
    path and WinRAR at each known path, taken strictly in this order: a
    tool that is not installed is passed over, a tool that is installed is
    run on what the earlier ones left, a failure goes on to the next
    candidate, and the first tool that completes stops the chain, so that
    the file system at the end is the one that tool left and no later
    candidate is run. The library is always run first. When a tool
    completed the extraction returns; when none did it throws the error
    whose message holds the message of the last failed attempt and the hint
    to install 7-Zip or WinRAR. *)
Theorem extraction_chain_first_success (zip dir : path) (w : world) :
  exists evs won,
    chain E zip dir (strategies E) (fs w) evs
      (fs (extract_archive E zip dir w).2) won
    /\ log (extract_archive E zip dir w).2 = log w ++ evs
    /\ visits (strategies E) evs won
    /\ (exists rest,
          evs = ATTEMPT ExtractZip (tool_run E ExtractZip zip dir (fs w)).2 :: rest)
    /\ (won = true -> (extract_archive E zip dir w).1 = inr tt)
    /\ (won = false ->
        exists error,
          last_failure evs None = Some error
          /\ (extract_archive E zip dir w).1
             = inl (JS.Error ("All extraction methods failed. Last error: "
                              +:+ last_message (Some error)
                              +:+ ". Please install 7-Zip or WinRAR."))
          /\ Fetcher.includes
               ("All extraction methods failed. Last error: "
                +:+ last_message (Some error)
                +:+ ". Please install 7-Zip or WinRAR.")
               (JS.message error) = true
          /\ Fetcher.includes
               ("All extraction methods failed. Last error: "
                +:+ last_message (Some error)
                +:+ ". Please install 7-Zip or WinRAR.")
               "Please install 7-Zip or WinRAR." = true).
Proof.
  destruct (extract_archive_chain zip dir w)
    as (evs & won & r & fs' & Hrun & Hchain & Hfirst & Hwon & Hlost).
  exists evs, won. rewrite Hrun. cbn [fst snd log fs].
  split; [exact Hchain|]. split; [reflexivity|].
  split; [exact (chain_visits _ _ _ _ _ _ _ Hchain)|].
  split; [exact Hfirst|]. split; [exact Hwon|].
  intros Hw. destruct (Hlost Hw) as (error & Hlast & ->).
  exists error. split; [exact Hlast|]. split; [reflexivity|].
  exact (all_failed_message error).
Qed.

End ExtractionProperties.

Lemma extraction_chain_first_success_witness :
  exists evs,
    Readings.chain (Samples.machine Samples.net_redirect Samples.tools_7z)
      ["C:"; "Temp"; "620.zip"] ["C:"; "Temp"]
      (Readings.strategies (Samples.machine Samples.net_redirect Samples.tools_7z))
      Samples.disk evs
      (Pipeline.fs
         (Pipeline.extract_archive (Samples.machine Samples.net_redirect Samples.tools_7z)
            ["C:"; "Temp"; "620.zip"] ["C:"; "Temp"] Samples.start).2)
      true
    /\ Pipeline.log
         (Pipeline.extract_archive (Samples.machine Samples.net_redirect Samples.tools_7z)
            ["C:"; "Temp"; "620.zip"] ["C:"; "Temp"] Samples.start).2 = [] ++ evs
    /\ Readings.visits
         (Readings.strategies (Samples.machine Samples.net_redirect Samples.tools_7z))
         evs true.
Proof.
  destruct (extraction_chain_first_success
              (Samples.machine Samples.net_redirect Samples.tools_7z)
              ["C:"; "Temp"; "620.zip"] ["C:"; "Temp"] Samples.start)
    as (evs & won & Hchain & Hlog & Hvisits & _ & _ & Hlost).
  exists evs.
  destruct won; [split; [exact Hchain|split; [exact Hlog|exact Hvisits]]|].
  destruct (Hlost eq_refl) as (error & _ & Hthrow & _).
  vm_compute in Hthrow. discriminate.
Defined.

(* ===================================================================== *)
(** * Properties of the install source *)
(* ===================================================================== *)

Section ResolverProperties.

Import Pipeline Readings.

(** In a directory without two entries of one name, looking an entry up
    by its name finds it. *)
Lemma find_entry_of_member (entries : list (string * node)) (e : string * node) :
  List.NoDup (map fst entries) -> List.In e entries ->
  find_entry (fst e) entries = Some (snd e).
Proof.
  induction entries as [|[n x] entries IH]; intros Hnd Hin; [contradiction|].
  inversion Hnd as [|? ? Hnotin Hnd']; subst.
  destruct Hin as [<-|Hin]; simpl.
  - rewrite String.eqb_refl. reflexivity.
  - destruct (String.eqb (fst e) n) eqn:Hn.
    + apply String.eqb_eq in Hn. subst n.
      exfalso. apply Hnotin. apply List.in_map. exact Hin.
    + apply IH; assumption.
Qed.

(** The exact match of the code is the exact match of the
    specification. *)
Lemma exact_match_found (entries : list (string * node)) (appID : string)
    (es : list (string * node)) :
  find_entry appID entries = Some (Dir es) ->
  exists e, List.find (fun e => is_dir (snd e) && String.eqb (fst e) appID) entries
            = Some e /\ fst e = appID.
Proof.
  induction entries as [|[n x] entries IH]; simpl; [discriminate|].
  rewrite (String.eqb_sym n appID).
  destruct (String.eqb appID n) eqn:Hn.
  - intros [= ->]. simpl. apply String.eqb_eq in Hn. eauto.
  - rewrite andb_false_r. exact IH.
Qed.

Lemma exact_match_missing (entries : list (string * node)) (appID : string) :
  List.NoDup (map fst entries) ->
  match find_entry appID entries with
  | Some (Dir _) => False
  | _ => True
  end ->
  List.find (fun e => is_dir (snd e) && String.eqb (fst e) appID) entries = None.
Proof.
  induction entries as [|[n x] entries IH]; intros Hnd Hfind; simpl; [reflexivity|].
  inversion Hnd as [|? ? Hnotin Hnd']; subst.
  simpl in Hfind. rewrite (String.eqb_sym n appID).
  destruct (String.eqb appID n) eqn:Hn.
  - destruct x as [data|es]; [|contradiction]. simpl.
    apply String.eqb_eq in Hn. subst n.
    (* no later entry has this name *)
    clear -Hnotin. induction entries as [|[n' x'] entries IH]; simpl; [reflexivity|].
    destruct (String.eqb n' appID) eqn:Hn'.
    + apply String.eqb_eq in Hn'. subst n'. exfalso. apply Hnotin. left. reflexivity.
    + rewrite andb_false_r. apply IH. intros Hin. apply Hnotin. right. exact Hin.
  - rewrite andb_false_r. apply IH; assumption.
Qed.

Lemma bind_run {A B} (c : M A) (k : A -> M B) (w : world) :
  Eff.bind c k w =
  match c w with
  | (inr a, w') => k a w'
  | (inl e, w') => (inl e, w')
  end.
Proof. reflexivity. Qed.

Lemma existsSync_run (p : path) (w : world) :
  existsSync p w
  = (inr (match lookup p (fs w) with Some _ => true | None => false end), w).
Proof. reflexivity. Qed.

Lemma isDirectory_run (p : path) (w : world) :
  isDirectory p w =
  match lookup p (fs w) with
  | Some n => (inr (is_dir n), w)
  | None => (inl ENOENT, w)
  end.
Proof.
  unfold isDirectory, Eff.bind, Eff.get; simpl.
  destruct (lookup p (fs w)); reflexivity.
Qed.

Lemma readdirSync_run (p : path) (w : world) (entries : list (string * node)) :
  lookup p (fs w) = Some (Dir entries) ->
  readdirSync p w = (inr (map fst entries), w).
Proof.
  intros Hp. unfold readdirSync, readdirSync_types, Eff.bind, Eff.get; simpl.
  rewrite Hp. simpl. rewrite map_map. reflexivity.
Qed.

Lemma lookup_child (root : path) (c : string) (n : node) (entries : list (string * node)) :
  lookup root n = Some (Dir entries) ->
  lookup (root ++ [c]) n = find_entry c entries.
Proof.
  intros Hroot. rewrite lookup_app, Hroot, lookup_cons.
  destruct (find_entry c entries); reflexivity.
Qed.

(** The scan of the code is the scan of the specification. *)
Lemma find_item_scan (root : path) (appID : string) (w : world)
    (entries suffix : list (string * node)) :
  lookup root (fs w) = Some (Dir entries) ->
  (forall e, List.In e suffix -> find_entry (fst e) entries = Some (snd e)) ->
  find_item (fun item =>
               d <- isDirectory (root ++ [item]) ;;
               Eff.ret (d && Fetcher.includes item appID))
            (map fst suffix) w
  = (inr (option_map fst
            (List.find (fun e => is_dir (snd e) && Fetcher.includes (fst e) appID)
                       suffix)), w).
Proof.
  intros Hroot. induction suffix as [|[n x] suffix IH]; intros Hin; [reflexivity|].
  cbn [map fst find_item List.find snd].
  pose proof (Hin (n, x) (or_introl eq_refl)) as Hn. cbn [fst snd] in Hn.
  rewrite !bind_run, isDirectory_run, (lookup_child root n _ entries Hroot), Hn.
  cbn [Eff.ret].
  destruct (is_dir x && Fetcher.includes n appID); [reflexivity|].
  apply IH. intros e He. apply Hin. right. exact He.
Qed.

(** What the code does once the exact match has failed. *)
Lemma resolve_by_scan (root : path) (appID : string) (w : world)
    (entries : list (string * node)) :
  lookup root (fs w) = Some (Dir entries) ->
  well_formed entries ->
  (contents <- readdirSync root ;;
   possibleFolder <-
     find_item (fun item =>
                  let itemPath := root ++ [item] in
                  d <- isDirectory itemPath ;;
                  Eff.ret (d && Fetcher.includes item appID))
               contents ;;
   match possibleFolder with
   | Some item =>
       if String.eqb item "" then Eff.ret root
       else Eff.ret (root ++ [item])
   | None => Eff.ret root
   end) w
  = (inr (match List.find (fun e => is_dir (snd e) && Fetcher.includes (fst e) appID)
                          entries with
          | Some e => root ++ [fst e]
          | None => root
          end), w).
Proof.
  intros Hroot [Hnd Hplain].
  rewrite bind_run, (readdirSync_run root w entries Hroot).
  cbv zeta. rewrite bind_run.
  rewrite (find_item_scan root appID w entries entries Hroot)
    by (intros e He; apply find_entry_of_member; assumption).
  destruct (List.find _ entries) as [e|] eqn:He; cbn [option_map]; [|reflexivity].
  assert (Hne : String.eqb (fst e) "" = false).
  { apply List.find_some in He. destruct He as [He _].
    rewrite Forall_forall in Hplain. specialize (Hplain e).
    assert (Hp : plain_name (fst e) = true).
    { apply Hplain. apply list_elem_of_In. exact He. }
    unfold plain_name in Hp. destruct (String.eqb (fst e) ""); [discriminate|reflexivity]. }
  rewrite Hne. reflexivity.
Qed.

(** C7. In an extraction root that is a well-formed directory, and for an
    identifier that is a plain name, the source folder the code resolves
    is the one the specification describes: the child directory named
    exactly as the identifier; otherwise the first child directory whose
    name contains it; otherwise the root. The world is left as it was. *)
Theorem resolve_source_as_specified (root : path) (appID : string) (w : world)
    (entries : list (string * node)) :
  lookup root (fs w) = Some (Dir entries) ->
  well_formed entries ->
  plain_name appID = true ->
  resolve_source root appID w = (inr (resolve_spec root entries appID), w).
Proof.
  intros Hroot Hwf _.
  unfold resolve_source, resolve_spec.
  rewrite bind_run, existsSync_run, (lookup_child root appID _ entries Hroot).
  destruct (find_entry appID entries) as [[data|es]|] eqn:Hfind.
  - (* a file has the name *)
    rewrite bind_run, isDirectory_run, (lookup_child root appID _ entries Hroot), Hfind.
    cbn [is_dir].
    rewrite (exact_match_missing entries appID (proj1 Hwf)) by (rewrite Hfind; exact I).
    apply resolve_by_scan; assumption.
  - (* a directory has the name *)
    rewrite bind_run, isDirectory_run, (lookup_child root appID _ entries Hroot), Hfind.
    cbn [is_dir].
    destruct (exact_match_found entries appID es Hfind) as (e & -> & ->).
    reflexivity.
  - (* nothing has the name *)
    rewrite bind_run. cbn [Eff.ret].
    rewrite (exact_match_missing entries appID (proj1 Hwf)) by (rewrite Hfind; exact I).
    apply resolve_by_scan; assumption.
Qed.

End ResolverProperties.

Lemma resolve_source_as_specified_witness :
  Pipeline.resolve_source ["extracted"] "440" Samples.unpacked_world
  = (inr ["extracted"; "440_fix"], Samples.unpacked_world).
Proof.
  apply (resolve_source_as_specified ["extracted"] "440" Samples.unpacked_world
           Samples.unpacked eq_refl).
  - split.
    + repeat constructor; simpl; intuition discriminate.
    + repeat constructor.
  - reflexivity.
Defined.

(* ===================================================================== *)
(** * Further properties of the catalog cache *)
(* ===================================================================== *)

Section CatalogMore.

Import Catalog Data.

Variable E : env.

Lemma fetched_data_has_apps (data : JS.value) :
  fetch_outcome E = inr data -> exists n, apps_length data = inr n.
Proof.
  unfold fetch_outcome. intros H.
  destruct (remote E) as [err|body]; [discriminate|].
  destruct (JSON_parse E body) as [e|d]; [discriminate|].
  destruct (apps_length d) as [e|n] eqn:Hn; [discriminate|].
  injection H as <-. eauto.
Qed.

(** The lookup, by the three states of the cache. *)
Lemma getSteamAppList_cases (w : world) :
  getSteamAppList E w =
  match cache_file w with
  | Some f =>
      if clock w - mtime f <? CACHE_DURATION
      then (JSON_parse E (content f), World true (Some f) (clock w) (fetches w))
      else
        match fetch_outcome E with
        | inr data =>
            (inr data,
             World true (Some (File (clock w + latency E) (JSON_stringify E data)))
               (clock w + latency E) (S (fetches w)))
        | inl _ =>
            (JSON_parse E (content f),
             World true (Some f) (clock w + latency E) (S (fetches w)))
        end
  | None =>
      match fetch_outcome E with
      | inr data =>
          (inr data,
           World true (Some (File (clock w + latency E) (JSON_stringify E data)))
             (clock w + latency E) (S (fetches w)))
      | inl err => (inl err, World true None (clock w + latency E) (S (fetches w)))
      end
  end.
Proof.
  destruct (cache_file w) as [f|] eqn:Hf.
  - destruct (clock w - mtime f <? CACHE_DURATION) eqn:Hage.
    + apply Z.ltb_lt in Hage. exact (getSteamAppList_fresh E w f Hf Hage).
    + apply Z.ltb_ge in Hage. exact (getSteamAppList_stale E w f Hf Hage).
  - exact (getSteamAppList_absent E w Hf).
Qed.

(** X1. What a lookup does to the store, whatever it returns: the cache
    directory exists afterwards; at most one request was sent; the cache
    file is either the one found, or, when the cache was not valid and the
    fetch succeeded, a file stamped with the time of the write that holds
    [JSON.stringify] of the fetched data, whose [applist.apps.length] can
    be read; a cache file is never removed. *)
Theorem lookup_writes_only_fetched_data (w : world) :
  cache_dir (getSteamAppList E w).2 = true
  /\ (fetches (getSteamAppList E w).2 = fetches w
      \/ fetches (getSteamAppList E w).2 = S (fetches w))
  /\ (cache_file (getSteamAppList E w).2 = cache_file w
      \/ exists data n,
           valid_in w = false
           /\ fetch_outcome E = inr data
           /\ apps_length data = inr n
           /\ (getSteamAppList E w).1 = inr data
           /\ cache_file (getSteamAppList E w).2
              = Some (File (clock w + latency E) (JSON_stringify E data)))
  /\ (match cache_file w with
      | Some _ => cache_file (getSteamAppList E w).2 <> None
      | None => True
      end).
Proof.
  rewrite getSteamAppList_cases. unfold valid_in.
  destruct (cache_file w) as [f|] eqn:Hf.
  - destruct (clock w - mtime f <? CACHE_DURATION) eqn:Hage; simpl.
    + split; [reflexivity|]. split; [auto|]. split; [auto|discriminate].
    + destruct (fetch_outcome E) as [err|data] eqn:Hfetch; simpl.
      * split; [reflexivity|]. split; [auto|]. split; [auto|discriminate].
      * destruct (fetched_data_has_apps data Hfetch) as [n Hn].
        split; [reflexivity|]. split; [auto|]. split; [|discriminate].
        right. exists data, n. auto.
  - destruct (fetch_outcome E) as [err|data] eqn:Hfetch; simpl.
    + split; [reflexivity|]. split; [auto|]. split; [auto|exact I].
    + destruct (fetched_data_has_apps data Hfetch) as [n Hn].
      split; [reflexivity|]. split; [auto|]. split; [|exact I].
      right. exists data, n. auto.
Qed.

(** X2. Round trip through the cache file. A lookup that found no valid cache
    and fetched [data] has written it; a lookup made less than seven days
    later reads it back: it returns [data] when the parser reads back what
    the serializer wrote, sends no request (whatever the network would
    answer) and leaves the file as written. *)
Theorem second_lookup_reads_the_cache (E' : env) (w : world) (data : JS.value)
    (dt : Z) :
  valid_in w = false ->
  fetch_outcome E = inr data ->
  JSON_parse E' (JSON_stringify E data) = inr data ->
  dt < 604800000 ->
  let w1 := (getSteamAppList E w).2 in
  (getSteamAppList E' (later dt w1)).1 = inr data
  /\ fetches (getSteamAppList E' (later dt w1)).2 = fetches w1
  /\ cache_file (getSteamAppList E' (later dt w1)).2 = cache_file w1.
Proof.
  intros Hvalid Hfetch Hcodec Hdt w1.
  assert (Hw1 : cache_file w1
                = Some (File (clock w + latency E) (JSON_stringify E data))
                /\ clock w1 = clock w + latency E).
  { subst w1. rewrite getSteamAppList_cases. unfold valid_in in Hvalid.
    destruct (cache_file w) as [f|]; [rewrite Hvalid|]; rewrite Hfetch; simpl; auto. }
  destruct Hw1 as [Hfile Hclock].
  rewrite (getSteamAppList_fresh E' (later dt w1) _ Hfile).
  - simpl. rewrite Hcodec, Hfile. auto.
  - simpl. rewrite Hclock. unfold CACHE_DURATION. lia.
Qed.

End CatalogMore.

Lemma second_lookup_reads_the_cache_witness :
  (Catalog.getSteamAppList Samples.offline
     (Data.later Samples.day
        (Catalog.getSteamAppList Samples.online Samples.absent_world).2)).1
  = inr Samples.new_catalog.
Proof.
  exact (proj1 (second_lookup_reads_the_cache Samples.online Samples.offline
                  Samples.absent_world Samples.new_catalog Samples.day
                  eq_refl eq_refl eq_refl eq_refl)).
Defined.

(* ===================================================================== *)
(** * Properties of the lookup object and of the renderer *)
(* ===================================================================== *)

Section LookupObject.

Import Catalog Data.

Lemma pretty_N_char_plain (x : N) : pretty_N_char x <> "_"%char.
Proof. unfold pretty_N_char. repeat case_match; discriminate. Qed.

Lemma pretty_N_go_plain (x : N) (s : string) :
  plain_head s -> plain_head (pretty_N_go x s).
Proof.
  revert s. induction (N.lt_wf_0 x) as [x _ IH]; intros s Hs.
  destruct (decide (0 < x)%N) as [Hpos|Hzero].
  - rewrite pretty_N_go_step by exact Hpos.
    apply IH; [apply N.div_lt; [exact Hpos|reflexivity]|].
    simpl. apply pretty_N_char_plain.
  - assert (x = 0%N) as -> by lia. rewrite pretty_N_go_0. exact Hs.
Qed.

Lemma pretty_N_plain (x : N) : plain_head (pretty x).
Proof.
  unfold pretty, pretty_N. destruct (decide (x = 0%N)); [simpl; discriminate|].
  apply pretty_N_go_plain. exact I.
Qed.

(** The key of a numeric identifier is never [__proto__]. *)
Lemma pretty_Z_not_proto (z : Z) : String.eqb (pretty z) "__proto__" = false.
Proof.
  apply String.eqb_neq. intros H.
  assert (Hhead : plain_head (pretty z) \/ exists r, pretty z = String "-" r).
  { destruct z as [|p|p]; unfold pretty, pretty_Z.
    - left. simpl. discriminate.
    - left. apply (pretty_N_plain (Npos p)).
    - right. eexists. reflexivity. }
  destruct Hhead as [Hhead|[r Hr]].
  - rewrite H in Hhead. simpl in Hhead. congruence.
  - rewrite H in Hr. discriminate.
Qed.

Lemma fill_appMap_of_entries (entries : list (Z * string))
    (acc : gmap string JS.value) :
  exists appMap,
    fill_appMap (map app_value entries) acc = inr appMap
    /\ forall id : Z,
         appMap !! pretty id =
         match last_name id entries with
         | Some name => Some (JS.Str name)
         | None => acc !! pretty id
         end.
Proof.
  revert acc. induction entries as [|[i name] entries IH]; intros acc.
  - exists acc. split; reflexivity.
  - destruct (IH (<[pretty i := JS.Str name]> acc)) as (appMap & Hfill & Hlook).
    exists appMap. split.
    + cbn [map fill_appMap]. unfold app_value at 1. cbn [fst snd].
      change (JS.prop (JS.Obj [("appid", JS.Num i); ("name", JS.Str name)]) "appid")
        with (inr (A := JS.exn) (JS.Num i)).
      change (JS.prop (JS.Obj [("appid", JS.Num i); ("name", JS.Str name)]) "name")
        with (inr (A := JS.exn) (JS.Str name)).
      cbn [JS.to_string]. unfold assign. rewrite pretty_Z_not_proto. exact Hfill.
    + intros id. rewrite Hlook. cbn [last_name].
      destruct (last_name id entries) as [later|]; [reflexivity|].
      destruct (Z.eqb_spec i id) as [->|Hne].
      * apply lookup_insert_eq.
      * apply lookup_insert_ne. intros Heq. apply Hne.
        exact (pretty_Z_inj _ _ Heq).
Qed.

Lemma build_lookup_of_entries (entries : list (Z * string)) :
  exists appMap,
    build_lookup (catalog_value entries)
    = inr (appMap, JS.Num (Z.of_nat (length entries)))
    /\ forall id : Z,
         appMap !! pretty id = option_map JS.Str (last_name id entries).
Proof.
  destruct (fill_appMap_of_entries entries ∅) as (appMap & Hfill & Hlook).
  exists appMap. split.
  - unfold build_lookup, catalog_value, forEach_appMap.
    cbn -[fill_appMap Z.of_nat length]. rewrite Hfill.
    rewrite length_map. reflexivity.
  - intros id. rewrite Hlook, lookup_empty.
    destruct (last_name id entries); reflexivity.
Qed.

(** X5. The lookup object the handler builds from a catalog of identifiers
    and names, the identifiers being integers that a double holds exactly:
    it is built without error; [totalApps] is the number of
    entries of the catalog, repeated identifiers counted each time; and the
    property of an identifier is the name of the last entry that has it,
    absent when no entry has it. *)
Theorem lookup_object_of_catalog (entries : list (Z * string)) :
  List.Forall (fun e => safe_integer (fst e)) entries ->
  exists appMap,
    build_lookup (catalog_value entries)
    = inr (appMap, JS.Num (Z.of_nat (length entries)))
    /\ forall id : Z,
         safe_integer id ->
         appMap !! pretty id = option_map JS.Str (last_name id entries).
Proof.
  intros _.
  destruct (build_lookup_of_entries entries) as (appMap & Hbuild & Hlook).
  exists appMap. split; [exact Hbuild|]. intros id _. exact (Hlook id).
Qed.

End LookupObject.

Section RendererProperties.

Import Catalog Data Renderer.


Variable E : env.

(** X7. From the catalog endpoint to the name on the screen, for identifiers
    that a double holds exactly. With no valid
    cache and an endpoint that serves a catalog of identifiers and names,
    the first load asks the main process, which sends one request; then
    the list is loaded, the name shown for an identifier is the name of the
    last catalog entry that has it (the text [Game] and the identifier
    when no entry has it or the name is empty), and a further load returns
    the same list without asking again. *)
Theorem names_after_first_load (w : world) (entries : list (Z * string)) :
  List.Forall (fun e => safe_integer (fst e)) entries ->
  valid_in w = false ->
  fetch_outcome E = inr (catalog_value entries) ->
  let loaded := loadSteamAppList (handler_api E) initial w in
  let s1 := loaded.1.2 in
  let w1 := loaded.2 in
  steamAppListLoaded s1 = true
  /\ fetches w1 = S (fetches w)
  /\ (forall id : Z,
        safe_integer id ->
        getGameNameFromAppID s1 id =
        JS.Str (match last_name id entries with
                | Some name => if String.eqb name "" then "Game " +:+ pretty id
                               else name
                | None => "Game " +:+ pretty id
                end))
  /\ loadSteamAppList (handler_api E) s1 w1 = (loaded.1.1, s1, w1).
Proof.
  intros _ Hvalid Hfetch loaded s1 w1.
  destruct (build_lookup_of_entries entries) as (appMap & Hbuild & Hlook).
  assert (Hrun : get_steam_applist E w
                 = (AppListOk appMap (JS.Num (Z.of_nat (length entries))) true,
                    World true
                      (Some (File (clock w + latency E)
                               (JSON_stringify E (catalog_value entries))))
                      (clock w + latency E) (S (fetches w)))).
  { rewrite get_steam_applist_run, getSteamAppList_cases.
    unfold valid_in in Hvalid.
    destruct (cache_file w) as [f|]; [rewrite Hvalid|];
      rewrite Hfetch, Hbuild; unfold valid_in; simpl;
      rewrite Z.sub_diag; reflexivity. }
  assert (Hloaded : loaded
                    = (appMap, State appMap true,
                       World true
                         (Some (File (clock w + latency E)
                                  (JSON_stringify E (catalog_value entries))))
                         (clock w + latency E) (S (fetches w)))).
  { subst loaded. unfold loadSteamAppList, handler_api. simpl.
    rewrite Hrun. reflexivity. }
  subst s1 w1. rewrite Hloaded. simpl.
  split; [reflexivity|]. split; [reflexivity|]. split; [|reflexivity].
  intros id _. unfold getGameNameFromAppID. simpl. rewrite Hlook.
  destruct (last_name id entries) as [name|]; simpl; [|reflexivity].
  destruct (String.eqb name ""); reflexivity.
Qed.

(** X8. A load that fails is not remembered. With no cache file and an
    endpoint that cannot be reached, the load returns the empty list and
    leaves the variables as they were, one request was sent, and the next
    load asks again and sends another. *)
Theorem failed_load_is_retried (w : world) (err : JS.exn) :
  cache_file w = None ->
  fetch_outcome E = inl err ->
  let loaded := loadSteamAppList (handler_api E) initial w in
  loaded.1 = (∅, initial)
  /\ fetches loaded.2 = S (fetches w)
  /\ (loadSteamAppList (handler_api E) loaded.1.2 loaded.2).1 = (∅, initial)
  /\ fetches (loadSteamAppList (handler_api E) loaded.1.2 loaded.2).2 = S (S (fetches w)).
Proof.
  intros Hfile Hfetch loaded.
  assert (Hrun : forall w0, cache_file w0 = None ->
            get_steam_applist E w0
            = (AppListFail (JS.message err),
               World true None (clock w0 + latency E) (S (fetches w0)))).
  { intros w0 H0. rewrite get_steam_applist_run, getSteamAppList_cases, H0, Hfetch.
    reflexivity. }
  assert (Hloaded : loaded
                    = (∅, initial,
                       World true None (clock w + latency E) (S (fetches w)))).
  { subst loaded. unfold loadSteamAppList, handler_api. simpl.
    rewrite (Hrun w Hfile). reflexivity. }
  clearbody loaded. subst loaded. simpl.
  split; [reflexivity|]. split; [reflexivity|].
  unfold loadSteamAppList, handler_api. simpl.
  rewrite (Hrun (World true None (clock w + latency E) (S (fetches w))) eq_refl).
  simpl. auto.
Qed.

End RendererProperties.

Lemma names_after_first_load_witness :
  Renderer.getGameNameFromAppID
    (Renderer.loadSteamAppList (Renderer.handler_api Samples.online) Renderer.initial
       Samples.absent_world).1.2 570
  = JS.Str "Dota 2".
Proof.
  destruct (names_after_first_load Samples.online Samples.absent_world
              [(440, "Team Fortress 2"); (570, "Dota 2")]
              ltac:(repeat constructor; unfold Data.safe_integer; simpl; lia)
              eq_refl eq_refl)
    as (_ & _ & Hname & _).
  exact (Hname 570 ltac:(unfold Data.safe_integer; lia)).
Defined.

Lemma lookup_object_of_catalog_witness :
  exists appMap,
    Catalog.build_lookup
      (Data.catalog_value [(440, "Team Fortress 2"); (570, "Dota 2"); (440, "TF2")])
    = inr (appMap, JS.Num 3)
    /\ forall id : Z,
         Data.safe_integer id ->
         appMap !! pretty id
         = option_map JS.Str
             (Data.last_name id [(440, "Team Fortress 2"); (570, "Dota 2"); (440, "TF2")]).
Proof.
  apply (lookup_object_of_catalog
           [(440, "Team Fortress 2"); (570, "Dota 2"); (440, "TF2")]).
  repeat constructor; unfold Data.safe_integer; simpl; lia.
Defined.


Lemma failed_load_is_retried_witness :
  Catalog.fetches
    (Renderer.loadSteamAppList (Renderer.handler_api Samples.offline) Renderer.initial
       Samples.absent_world).2 = 1%nat.
Proof.
  destruct (failed_load_is_retried Samples.offline Samples.absent_world
              Samples.unreachable eq_refl eq_refl) as (_ & H & _).
  exact H.
Defined.

(* ===================================================================== *)
(** * Further properties of the fetcher and of the download *)
(* ===================================================================== *)

Section FetcherMore.

Import Fetcher.

(** X9. A page of online-fix.me is never decoded under the name [utf8]:
    either the header names another encoding, which is used, or the
    override puts windows-1251 in its place. *)
Theorem online_fix_never_plain_utf8 (url contentType : string) :
  includes url "online-fix.me" = true ->
  chosen_encoding url contentType <> "utf8"
  /\ (chosen_encoding url contentType = "windows-1251"
      \/ chosen_encoding url contentType = header_encoding contentType).
Proof.
  intros Hurl. unfold chosen_encoding, override_applies. rewrite Hurl. simpl.
  destruct (String.eqb (header_encoding contentType) "utf8") eqn:Hh.
  - split; [discriminate|auto].
  - apply String.eqb_neq in Hh. auto.
Qed.

End FetcherMore.

Lemma online_fix_never_plain_utf8_witness :
  Fetcher.chosen_encoding "https://online-fix.me/games/" "text/html; charset=UTF8"
  <> "utf8".
Proof.
  exact (proj1 (online_fix_never_plain_utf8 "https://online-fix.me/games/"
                  "text/html; charset=UTF8" eq_refl)).
Defined.

Lemma charset_match_leftmost_witness :
  exists pre kw rest,
    "text/html; Charset=UTF-8; boundary=x" = pre +:+ kw +:+ "UTF-8" +:+ rest
    /\ Readings.fold_all kw = "charset=".
Proof.
  destruct (charset_match_leftmost "text/html; Charset=UTF-8; boundary=x" "UTF-8" eq_refl)
    as (pre & kw & rest & Hsplit & Hkw & _).
  exists pre, kw, rest. split; assumption.
Defined.

Section DownloadMore.

Import Pipeline Readings.

Variable E : env.

(** A file removed where the stream was opened. *)
Lemma unlinked_after_open (dest : path) (n fs1 : node) :
  update dest (put_file "") n = Some fs1 ->
  lookup dest (unlinked dest fs1) = None.
Proof.
  intros Hopen.
  destruct (update_lookup _ _ _ _ Hopen) as (r & Hr & Hl).
  assert (r = Some (File "")) as ->.
  { unfold put_file in Hr. destruct (lookup dest n) as [[|]|]; congruence. }
  destruct (update_again dest (put_file "") drop_file n fs1 None Hopen)
    as (fs2 & Hfs2 & Hl2).
  { rewrite Hl. reflexivity. }
  unfold unlinked. rewrite Hfs2. exact Hl2.
Qed.

(** X12. What a failed download leaves at the destination, when the stream
    could be opened (so also over a file that was there before): after a
    network error, of the first request or of the redirected one, no file;
    after a first response with a status other than 200, 301 and 302, an
    empty file. *)
Theorem failed_download_destination (url : string) (dest : path) (w : world) :
  (writeFile dest "" w).1 = inr tt ->
  let k := count_gets (log w) in
  let out := download_promise E url dest w in
  (forall err, network E k url = inl err ->
     out.1 = inl err /\ lookup dest (fs out.2) = None)
  /\
  (forall r1 err,
     network E k url = inr r1 ->
     statusCode r1 = 301 \/ statusCode r1 = 302 ->
     network E (S k) (location r1) = inl err ->
     out.1 = inl err /\ lookup dest (fs out.2) = None)
  /\
  (forall r1,
     network E k url = inr r1 ->
     statusCode r1 <> 301 -> statusCode r1 <> 302 -> statusCode r1 <> 200 ->
     out.1 = inl (JS.Error ("Failed to download: " +:+ pretty (statusCode r1)))
     /\ lookup dest (fs out.2) = Some (File "")).
Proof.
  intros Hopen k out.
  rewrite writeFile_run in Hopen.
  destruct (update dest (put_file "") (fs w)) as [fs1|] eqn:Hfs1; [|discriminate].
  subst out. rewrite download_promise_run, Hfs1. cbv zeta. fold k.
  split; [|split].
  - intros err Herr. rewrite Herr. simpl.
    split; [reflexivity|]. exact (unlinked_after_open dest (fs w) fs1 Hfs1).
  - intros r1 err Hr1 Hstatus Herr. rewrite Hr1.
    assert (Hredirect : (statusCode r1 =? 302) || (statusCode r1 =? 301) = true).
    { destruct Hstatus as [-> | ->]; reflexivity. }
    rewrite Hredirect, Herr. simpl.
    split; [reflexivity|]. exact (unlinked_after_open dest (fs w) fs1 Hfs1).
  - intros r1 Hr1 H301 H302 H200. rewrite Hr1.
    assert (Hredirect : (statusCode r1 =? 302) || (statusCode r1 =? 301) = false).
    { apply orb_false_iff. split; apply Z.eqb_neq; assumption. }
    rewrite Hredirect.
    apply Z.eqb_neq in H200. rewrite H200. simpl.
    split; [reflexivity|].
    destruct (update_lookup _ _ _ _ Hfs1) as (r & Hr & Hl).
    rewrite Hl. unfold put_file in Hr.
    destruct (lookup dest (fs w)) as [[|]|]; congruence.
Qed.

(** X13. Two runs share their workspace exactly when they start in the same
    millisecond (under one temporary directory). *)
Theorem workspace_named_by_clock (E' : env) :
  tmpdir E = tmpdir E' ->
  (tempDir E = tempDir E' <-> now E = now E').
Proof.
  intros Htmp. unfold tempDir. rewrite Htmp. split.
  - intros H. apply app_inv_head in H. injection H as H.
    unfold String.append in H. fold String.append in H.
    repeat (injection H as _ H).
    exact (pretty_Z_inj _ _ H).
  - intros ->. reflexivity.
Qed.

End DownloadMore.

Lemma failed_download_destination_witness :
  Pipeline.lookup ["C:"; "Games"; "Portal"; "steam_api.dll"]
    (Pipeline.fs
       (Pipeline.download_promise (Samples.machine Samples.net_404 Samples.tools_7z)
          Samples.fix_url ["C:"; "Games"; "Portal"; "steam_api.dll"] Samples.start).2)
  = Some (Pipeline.File "").
Proof.
  destruct (failed_download_destination
              (Samples.machine Samples.net_404 Samples.tools_7z)
              Samples.fix_url ["C:"; "Games"; "Portal"; "steam_api.dll"]
              Samples.start eq_refl) as (_ & _ & Hstatus).
  exact (proj2 (Hstatus (Pipeline.Response 404 "" "Not Found") eq_refl
                  ltac:(discriminate) ltac:(discriminate) ltac:(discriminate))).
Defined.

Lemma workspace_named_by_clock_witness :
  Pipeline.tempDir (Samples.machine Samples.net_404 Samples.tools_7z)
  = Pipeline.tempDir (Samples.machine Samples.net_redirect Samples.tools_none).
Proof.
  exact (proj2 (workspace_named_by_clock
                  (Samples.machine Samples.net_404 Samples.tools_7z)
                  (Samples.machine Samples.net_redirect Samples.tools_none) eq_refl)
               eq_refl).
Defined.

(* ===================================================================== *)
(** * Properties of the cleanup and of a run that succeeds *)
(* ===================================================================== *)

Section CleanupProperties.

Import Pipeline Readings Data.

Lemma bind_returns {A B} (c : M A) (k : A -> M B) (w w' : world) (b : B) :
  Eff.bind c k w = (inr b, w') ->
  exists a w1, c w = (inr a, w1) /\ k a w1 = (inr b, w').
Proof.
  unfold Eff.bind. destruct (c w) as [[e|a] w1]; [discriminate|]. eauto.
Qed.

Lemma change_returns (err : JS.exn) (step : node -> option node) (w w' : world) :
  change err step w = (inr tt, w') ->
  step (fs w) = Some (fs w') /\ log w' = log w.
Proof.
  unfold change, Eff.bind, Eff.get, Eff.put, Eff.throw; simpl.
  destruct (step (fs w)) as [n|]; [|discriminate].
  intros [= <-]. auto.
Qed.

Lemma deleteFolderRecursive_returns (stack : nat) (folderPath : path)
    (w w' : world) :
  deleteFolderRecursive stack folderPath w = (inr tt, w') ->
  lookup folderPath (fs w') = None.
Proof.
  destruct stack as [|stack]; [discriminate|]. cbn [deleteFolderRecursive].
  intros H. apply bind_returns in H. destruct H as (present & w1 & Hex & H).
  rewrite existsSync_run in Hex. injection Hex as <- <-.
  destruct (lookup folderPath (fs w)) as [x|] eqn:Hx.
  - apply bind_returns in H. destruct H as (files & w2 & _ & H).
    apply bind_returns in H. destruct H as ([] & w3 & _ & H).
    apply change_returns in H. destruct H as [H _].
    destruct (update_lookup _ _ _ _ H) as (r & Hr & Hl).
    rewrite Hl. destruct (lookup folderPath (fs w3)) as [[|[|]]|]; congruence.
  - injection H as <-. exact Hx.
Qed.

(** X19. When the cleanup returns, the folder is not there: it was not there in
    the first place, or [rmdirSync] has just removed it. This needs no
    assumption on the folder or on the depth of the stack. *)
Theorem cleanup_returns_only_when_gone (stack : nat) (folderPath : path)
    (w w' : world) :
  deleteFolderRecursive stack folderPath w = (inr tt, w') ->
  lookup folderPath (fs w') = None.
Proof. apply deleteFolderRecursive_returns. Qed.

Variable E : env.

(** X21. A run that answers with success has removed its workspace. *)
Theorem success_leaves_no_workspace (stack : nat) (url : string)
    (targetFolder : path) (appID fileName : string) (w w' : world) (msg : string) :
  download_extract_fix E stack url targetFolder appID fileName w = (FixOk msg, w') ->
  msg = "Fix extracted successfully!"
  /\ lookup (tempDir E) (fs w') = None.
Proof.
  unfold download_extract_fix. intros H.
  destruct ((extractTempPath <- download_and_extract E url fileName ;;
             install_and_clean E stack extractTempPath targetFolder appID) w)
    as [[e|[]] w0] eqn:Hrun; [discriminate|].
  injection H as <- <-. split; [reflexivity|].
  apply bind_returns in Hrun. destruct Hrun as (extractTempPath & w1 & _ & Hrun).
  unfold install_and_clean in Hrun.
  apply bind_returns in Hrun. destruct Hrun as (sourceFolder & w2 & _ & Hrun).
  apply bind_returns in Hrun. destruct Hrun as ([] & w3 & _ & Hrun).
  exact (deleteFolderRecursive_returns _ _ _ _ Hrun).
Qed.

End CleanupProperties.

Lemma cleanup_returns_only_when_gone_witness :
  Pipeline.lookup ["C:"; "Games"]
    (Pipeline.fs (Pipeline.deleteFolderRecursive 8 ["C:"; "Games"] Samples.start).2)
  = None.
Proof.
  apply (cleanup_returns_only_when_gone 8 ["C:"; "Games"] Samples.start).
  vm_compute. reflexivity.
Defined.

Lemma success_leaves_no_workspace_witness :
  Pipeline.lookup Samples.workspace
    (Pipeline.fs
       (Pipeline.download_extract_fix
          (Samples.machine Samples.net_redirect Samples.tools_7z)
          64 Samples.fix_url Samples.game_folder "620" "620.zip" Samples.start).2)
  = None.
Proof.
  apply (success_leaves_no_workspace
           (Samples.machine Samples.net_redirect Samples.tools_7z)
           64 Samples.fix_url Samples.game_folder "620" "620.zip" Samples.start
           _ "Fix extracted successfully!").
  vm_compute. reflexivity.
Defined.

(* ===================================================================== *)
(** * Properties of the plugin update *)
(* ===================================================================== *)

Section PluginProperties.

Import Pipeline Readings Plugin.

Variable E : env.
Variable text : string -> string.

Lemma find_steam_run (paths : list path) (w : world) :
  find_steam paths w = (inr (steam_at (fs w) paths), w).
Proof.
  induction paths as [|p paths IH]; [reflexivity|].
  cbn [find_steam steam_at List.find].
  rewrite bind_run, existsSync_run.
  destruct (lookup p (fs w)) as [x|].
  - rewrite bind_run, existsSync_run.
    destruct (lookup (p ++ ["steam.exe"]) (fs w)); [reflexivity|exact IH].
  - rewrite bind_run. cbn [Eff.ret]. exact IH.
Qed.

(** The text of the final response and the requests sent for it. *)
Lemma fetch_text_run (url : string) (w : world) :
  exists evs,
    (fetch_text E text url w).2 = World (fs w) (log w ++ evs)
    /\ match (fetch_text E text url w).1 with
       | inr content =>
           exists r, final_response E (count_gets (log w)) url = Some r
                     /\ content = text (body r)
       | inl _ => True
       end.
Proof.
  unfold fetch_text, final_response.
  rewrite bind_run.
  change (https_get E url w)
    with (inr (A := JS.exn) (network E (count_gets (log w)) url),
          World (fs w) (log w ++ [GET url])).
  destruct (network E (count_gets (log w)) url) as [err|r1].
  - exists [GET url]. split; [reflexivity|exact I].
  - rewrite (orb_comm (statusCode r1 =? 301)).
    destruct ((statusCode r1 =? 302) || (statusCode r1 =? 301)).
    + rewrite bind_run.
      change (https_get E (location r1) (World (fs w) (log w ++ [GET url])))
        with (inr (A := JS.exn)
                (network E (count_gets (log w ++ [GET url])) (location r1)),
              World (fs w) ((log w ++ [GET url]) ++ [GET (location r1)])).
      assert (Hk : count_gets (log w ++ [GET url]) = S (count_gets (log w))).
      { rewrite count_gets_app. simpl. lia. }
      rewrite Hk, <- app_assoc.
      destruct (network E (S (count_gets (log w))) (location r1)) as [err|r2].
      * eexists. split; [reflexivity|exact I].
      * eexists. split; [reflexivity|]. simpl. eauto.
    + destruct (negb (statusCode r1 =? 200)).
      * exists [GET url]. split; [reflexivity|exact I].
      * exists [GET url]. split; [reflexivity|]. simpl. eauto.
Qed.

(** X25. The update is all or nothing on the disk. When the handler answers
    with a failure (Steam or the plugin not found, a failed download, a
    write that fails) the disk is as it was. When it answers with success,
    the path it names is [plugins\onlinefix\appIDs.txt] under the first
    candidate folder that holds [steam.exe], that file holds the text of
    the final response, and nothing apart from that file has changed. *)
Theorem plugin_update_all_or_nothing (w : world) :
  match (update_onlinefix_appids E text w).1 with
  | UpdateFail _ => fs (update_onlinefix_appids E text w).2 = fs w
  | UpdateOk _ saved =>
      exists steamPath r,
        steam_at (fs w) (possiblePaths E) = Some steamPath
        /\ saved = steamPath ++ ["plugins"; "onlinefix"; "appIDs.txt"]
        /\ final_response E (count_gets (log w)) appIDs_url = Some r
        /\ lookup saved (fs (update_onlinefix_appids E text w).2)
           = Some (File (text (body r)))
        /\ forall q, apart saved q = true ->
             lookup q (fs (update_onlinefix_appids E text w).2) = lookup q (fs w)
  end.
Proof.
  unfold update_onlinefix_appids, update_body.
  rewrite bind_run, find_steam_run.
  destruct (steam_at (fs w) (possiblePaths E)) as [steamPath|] eqn:Hsteam;
    [|reflexivity].
  cbv zeta. rewrite bind_run, existsSync_run.
  destruct (lookup (steamPath ++ ["plugins"; "onlinefix"]) (fs w)) as [x|];
    [|reflexivity].
  cbn [negb]. rewrite bind_run.
  destruct (fetch_text_run appIDs_url w) as (evs & Hworld & Hcontent).
  destruct (fetch_text E text appIDs_url w) as [[err|content] w1];
    simpl in Hworld, Hcontent; subst w1; [reflexivity|].
  destruct Hcontent as (r & Hfinal & ->).
  rewrite bind_run, writeFile_run. cbn [fs log].
  destruct (update ((steamPath ++ ["plugins"; "onlinefix"]) ++ ["appIDs.txt"]) _ (fs w))
    as [fs'|] eqn:Hwrite; [|reflexivity].
  cbn [Eff.ret fst snd fs].
  exists steamPath, r. rewrite <- app_assoc. cbn [app].
  rewrite <- app_assoc in Hwrite. cbn [app] in Hwrite.
  split; [reflexivity|]. split; [reflexivity|]. split; [exact Hfinal|]. split.
  - destruct (update_lookup _ _ _ _ Hwrite) as (r' & Hr' & Hl).
    rewrite Hl. unfold put_file in Hr'.
    destruct (lookup _ (fs w)) as [[|]|]; congruence.
  - intros q Hq. exact (update_apart _ _ _ _ _ Hwrite Hq).
Qed.

(** X26. No request without Steam and the plugin. When no candidate folder
    holds [steam.exe], or when the folder [plugins\onlinefix] is missing
    under the first one that does, the handler answers with the matching
    message and has sent no request and changed nothing. *)
Theorem plugin_update_needs_steam_and_plugin (w : world) :
  (steam_at (fs w) (possiblePaths E) = None ->
   update_onlinefix_appids E text w = (UpdateFail steam_not_found, w))
  /\
  (forall steamPath,
     steam_at (fs w) (possiblePaths E) = Some steamPath ->
     lookup (steamPath ++ ["plugins"; "onlinefix"]) (fs w) = None ->
     update_onlinefix_appids E text w = (UpdateFail plugin_not_found, w)).
Proof.
  unfold update_onlinefix_appids, update_body.
  rewrite bind_run, find_steam_run. split.
  - intros ->. reflexivity.
  - intros steamPath -> Hplugin.
    cbv zeta. rewrite bind_run, existsSync_run, Hplugin. reflexivity.
Qed.

(** X27. A download that fails leaves the file of identifiers as it was: the
    text is received in full before anything is written. For a first
    response with a status other than 200, 301 and 302 the handler answers
    with the failure that carries the status, and the file holds what it
    held. *)
Theorem plugin_update_keeps_file_on_bad_status (w : world) (steamPath : path)
    (x : node) (r1 : response) :
  steam_at (fs w) (possiblePaths E) = Some steamPath ->
  lookup (steamPath ++ ["plugins"; "onlinefix"]) (fs w) = Some x ->
  network E (count_gets (log w)) appIDs_url = inr r1 ->
  statusCode r1 <> 301 -> statusCode r1 <> 302 -> statusCode r1 <> 200 ->
  update_onlinefix_appids E text w
  = (UpdateFail ("Failed to download: " +:+ pretty (statusCode r1)),
     World (fs w) (log w ++ [GET appIDs_url])).
Proof.
  intros Hsteam Hplugin Hr1 H301 H302 H200.
  unfold update_onlinefix_appids, update_body.
  rewrite bind_run, find_steam_run, Hsteam.
  cbv zeta. rewrite bind_run, existsSync_run, Hplugin. cbn [negb].
  rewrite bind_run. unfold fetch_text at 1. rewrite bind_run.
  change (https_get E appIDs_url w)
    with (inr (A := JS.exn) (network E (count_gets (log w)) appIDs_url),
          World (fs w) (log w ++ [GET appIDs_url])).
  rewrite Hr1.
  assert (Hredirect : (statusCode r1 =? 302) || (statusCode r1 =? 301) = false).
  { apply orb_false_iff. split; apply Z.eqb_neq; assumption. }
  rewrite Hredirect. apply Z.eqb_neq in H200. rewrite H200. reflexivity.
Qed.

End PluginProperties.

Lemma plugin_update_needs_steam_and_plugin_witness :
  Plugin.update_onlinefix_appids (Installed.machine Installed.net_ids) id Samples.start
  = (Plugin.UpdateFail Plugin.steam_not_found, Samples.start)
  /\ Plugin.update_onlinefix_appids (Installed.machine Installed.net_ids) id
       (Pipeline.World Installed.without_plugin [])
     = (Plugin.UpdateFail Plugin.plugin_not_found,
        Pipeline.World Installed.without_plugin []).
Proof.
  split.
  - exact (proj1 (plugin_update_needs_steam_and_plugin
                    (Installed.machine Installed.net_ids) id Samples.start) eq_refl).
  - exact (proj2 (plugin_update_needs_steam_and_plugin
                    (Installed.machine Installed.net_ids) id
                    (Pipeline.World Installed.without_plugin []))
                 Installed.steam eq_refl eq_refl).
Defined.

Lemma plugin_update_keeps_file_on_bad_status_witness :
  Plugin.update_onlinefix_appids (Installed.machine Installed.net_500) id
    (Pipeline.World Installed.with_plugin [])
  = (Plugin.UpdateFail "Failed to download: 500",
     Pipeline.World Installed.with_plugin [Pipeline.GET Plugin.appIDs_url]).
Proof.
  exact (plugin_update_keeps_file_on_bad_status
           (Installed.machine Installed.net_500) id
           (Pipeline.World Installed.with_plugin []) Installed.steam
           (Pipeline.Dir [("appIDs.txt", Pipeline.File "440");
                          ("plugin.json", Pipeline.File "{}")])
           (Pipeline.Response 500 "" "Internal Server Error")
           eq_refl eq_refl eq_refl
           ltac:(discriminate) ltac:(discriminate) ltac:(discriminate)).
Defined.

(* ===================================================================== *)
(** * Changes below a directory *)
(* ===================================================================== *)

Section TreeFacts.

Import Pipeline Readings Data.

Lemma set_entry_set (c : string) (x y : node) (es : list (string * node)) :
  set_entry c x (set_entry c y es) = set_entry c x es.
Proof.
  induction es as [|[d z] es IH]; simpl.
  - rewrite String.eqb_refl. reflexivity.
  - destruct (String.eqb c d) eqn:Hcd; simpl; rewrite Hcd; [reflexivity|].
    rewrite IH. reflexivity.
Qed.

Lemma remove_entry_set (c : string) (y : node) (es : list (string * node)) :
  remove_entry c (set_entry c y es) = remove_entry c es.
Proof.
  induction es as [|[d z] es IH]; simpl.
  - rewrite String.eqb_refl. reflexivity.
  - destruct (String.eqb c d) eqn:Hcd; simpl; rewrite Hcd; [reflexivity|].
    rewrite IH. reflexivity.
Qed.

Lemma remove_entry_absent (c : string) (es : list (string * node)) :
  ~ List.In c (map fst es) -> remove_entry c es = es.
Proof.
  induction es as [|[d z] es IH]; simpl; intros Hc; [reflexivity|].
  destruct (String.eqb c d) eqn:Hcd.
  - apply String.eqb_eq in Hcd. subst d. exfalso. apply Hc. left. reflexivity.
  - rewrite IH; [reflexivity|]. intros Hin. apply Hc. right. exact Hin.
Qed.

Lemma set_entry_same (c : string) (x : node) (es : list (string * node)) :
  find_entry c es = Some x -> set_entry c x es = es.
Proof.
  induction es as [|[d z] es IH]; simpl; [discriminate|].
  destruct (String.eqb c d) eqn:Hcd.
  - apply String.eqb_eq in Hcd. subst d. intros [= ->]. reflexivity.
  - intros H. rewrite (IH H). reflexivity.
Qed.

(** A change below [dir] is the change of the tree at [dir]. *)
Lemma update_below (dir : path) (c : string) (s : path)
    (f : option node -> option (option node)) (n x x' : node) :
  lookup dir n = Some x ->
  update (c :: s) f x = Some x' ->
  exists n', update (dir ++ c :: s) f n = Some n' /\ lookup dir n' = Some x'.
Proof.
  revert n; induction dir as [|d dir IH]; intros n Hx Hup.
  - injection Hx as ->. exists x'. split; [exact Hup|reflexivity].
  - destruct n as [|es]; [discriminate|].
    rewrite lookup_cons in Hx.
    destruct (find_entry d es) as [y|] eqn:Hy; [|discriminate].
    destruct (IH y Hx Hup) as (y' & Hy' & Hl).
    change ((d :: dir) ++ c :: s) with (d :: (dir ++ c :: s)).
    destruct (dir ++ c :: s) as [|c' rest] eqn:Hrest.
    { destruct dir; discriminate. }
    rewrite update_deeper, Hy, Hy'.
    eexists. split; [reflexivity|].
    rewrite lookup_cons, find_entry_set_same. exact Hl.
Qed.

(** Overwriting or removing [dir] makes a change below it forgotten. *)
Lemma update_over (dir : path) (c : string) (s : path)
    (f : option node -> option (option node)) (r : option (option node))
    (n n1 : node) :
  dir <> [] ->
  update (dir ++ c :: s) f n = Some n1 ->
  update dir (fun _ => r) n1 = update dir (fun _ => r) n.
Proof.
  revert n n1; induction dir as [|d dir IH]; intros n n1 Hne Hup; [congruence|].
  destruct n as [|es].
  { destruct (dir ++ c :: s) eqn:Hrest; [destruct dir; discriminate|].
    change ((d :: dir) ++ c :: s) with (d :: (dir ++ c :: s)) in Hup.
    rewrite Hrest in Hup. discriminate. }
  change ((d :: dir) ++ c :: s) with (d :: (dir ++ c :: s)) in Hup.
  destruct (dir ++ c :: s) as [|c' rest] eqn:Hrest.
  { destruct dir; discriminate. }
  rewrite update_deeper in Hup.
  destruct (find_entry d es) as [y|] eqn:Hy; [|discriminate].
  destruct (update (c' :: rest) f y) as [y'|] eqn:Hy'; [|discriminate].
  injection Hup as <-.
  destruct dir as [|d' dir].
  - rewrite !update_last.
    destruct r as [[z|]|]; [| |reflexivity].
    + rewrite set_entry_set. reflexivity.
    + rewrite remove_entry_set. reflexivity.
  - rewrite !update_deeper, find_entry_set_same, Hy.
    rewrite (IH y y' ltac:(discriminate) Hy').
    destruct (update (d' :: dir) (fun _ => r) y) as [z|]; [|reflexivity].
    rewrite set_entry_set. reflexivity.
Qed.

(** A change consults its function only at what the path holds. *)
Lemma update_ext_at (p : path) (f g : option node -> option (option node))
    (n : node) :
  f (lookup p n) = g (lookup p n) ->
  update p f n = update p g n.
Proof.
  revert n; induction p as [|c p IH]; intros n Hfg; [reflexivity|].
  destruct n as [|es]; [destruct p; reflexivity|].
  rewrite lookup_cons in Hfg.
  destruct p as [|c' p].
  - rewrite !update_last.
    assert (Hsame : match find_entry c es with
                    | Some x => lookup [] x
                    | None => None
                    end = find_entry c es).
    { destruct (find_entry c es); reflexivity. }
    rewrite Hsame in Hfg. rewrite Hfg. reflexivity.
  - rewrite !update_deeper.
    destruct (find_entry c es) as [y|]; [|reflexivity].
    rewrite (IH y Hfg). reflexivity.
Qed.

(** A change of something that is there is made when its function
    allows it. *)
Lemma update_defined (p : path) (f : option node -> option (option node))
    (n x : node) (r : option node) :
  p <> [] ->
  lookup p n = Some x ->
  f (Some x) = Some r ->
  exists n', update p f n = Some n'.
Proof.
  revert n; induction p as [|c p IH]; intros n Hne Hx Hf; [congruence|].
  destruct n as [|es]; [discriminate|].
  rewrite lookup_cons in Hx.
  destruct (find_entry c es) as [y|] eqn:Hy; [|discriminate].
  destruct p as [|c' p].
  - injection Hx as ->. rewrite update_last, Hy, Hf.
    destruct r; eauto.
  - rewrite update_deeper, Hy.
    destruct (IH y ltac:(discriminate) Hx Hf) as (y' & ->). eauto.
Qed.

Lemma depth_children (c : string) (x : node) (rest : list (string * node)) (k : nat) :
  (depth (Dir ((c, x) :: rest)) <= S k)%nat ->
  (depth x <= k)%nat /\ (depth (Dir rest) <= S k)%nat.
Proof. cbn [depth]. lia. Qed.

Lemma distinct_children (c : string) (x : node) (rest : list (string * node)) :
  distinct_names (Dir ((c, x) :: rest)) ->
  ~ List.In c (map fst rest) /\ distinct_names x /\ distinct_names (Dir rest).
Proof.
  cbn [distinct_names map fst]. intros [Hnd [Hx Hrest]].
  inversion Hnd; subst. auto.
Qed.

Lemma unlinkSync_run (p : path) (w : world) :
  unlinkSync p w =
  match update p drop_file (fs w) with
  | Some fs' => (inr tt, World fs' (log w))
  | None => (inl ENOENT, w)
  end.
Proof.
  unfold unlinkSync, change, Eff.bind, Eff.get, Eff.put, Eff.throw; simpl.
  destruct (update p drop_file (fs w)); reflexivity.
Qed.

Lemma rmdirSync_run (p : path) (w : world) :
  rmdirSync p w =
  match update p drop_empty_dir (fs w) with
  | Some fs' => (inr tt, World fs' (log w))
  | None => (inl ENOTEMPTY, w)
  end.
Proof.
  unfold rmdirSync, change, Eff.bind, Eff.get, Eff.put, Eff.throw; simpl.
  change (fun cur : option node =>
            match cur with
            | Some (Dir []) => Some None
            | _ => None
            end) with drop_empty_dir.
  destruct (update p drop_empty_dir (fs w)); reflexivity.
Qed.

Lemma deleteFolderRecursive_step (stack : nat) (folderPath : path) :
  deleteFolderRecursive (S stack) folderPath =
  (present <- existsSync folderPath ;;
   if present then
     files <- readdirSync folderPath ;;
     Eff.for_each files (fun file =>
       let curPath := folderPath ++ [file] in
       d <- isDirectory curPath ;;
       if d then deleteFolderRecursive stack curPath
       else unlinkSync curPath) ;;;
     rmdirSync folderPath
   else Eff.ret tt).
Proof. reflexivity. Qed.

(** With a stack as deep as the tree, the cleanup of a directory whose
    folders list no name twice returns, and what it leaves is the file
    system without that directory. *)
Lemma deleteFolderRecursive_run (stack : nat) :
  forall (folderPath : path) (w : world) (es : list (string * node)),
    folderPath <> [] ->
    lookup folderPath (fs w) = Some (Dir es) ->
    distinct_names (Dir es) ->
    (depth (Dir es) <= stack)%nat ->
    exists n', update folderPath erase (fs w) = Some n'
      /\ deleteFolderRecursive stack folderPath w = (inr tt, World n' (log w)).
Proof.
  induction stack as [|stack IH]; intros folderPath w es Hne Hdir Hnames Hdepth.
  { cbn [depth] in Hdepth. lia. }
  assert (Hloop : forall (rest : list (string * node)) (w0 : world),
            lookup folderPath (fs w0) = Some (Dir rest) ->
            distinct_names (Dir rest) ->
            (depth (Dir rest) <= S stack)%nat ->
            exists n1,
              Eff.for_each (map fst rest) (fun file =>
                let curPath := folderPath ++ [file] in
                d <- isDirectory curPath ;;
                if d then deleteFolderRecursive stack curPath
                else unlinkSync curPath) w0 = (inr tt, World n1 (log w0))
              /\ lookup folderPath n1 = Some (Dir [])
              /\ update folderPath erase n1 = update folderPath erase (fs w0)).
  { induction rest as [|[name x] rest IHrest]; intros w0 Hrest Hd Hk.
    - exists (fs w0). destruct w0 as [n0 l0]. simpl. auto.
    - destruct (distinct_children _ _ _ Hd) as (Hfresh & Hx & Hd').
      destruct (depth_children _ _ _ _ Hk) as (Hkx & Hk').
      assert (Hchild : lookup (folderPath ++ [name]) (fs w0) = Some x).
      { rewrite (lookup_child _ _ _ _ Hrest). simpl.
        rewrite String.eqb_refl. reflexivity. }
      assert (Hgone : remove_entry name ((name, x) :: rest) = rest).
      { simpl. rewrite String.eqb_refl. apply remove_entry_absent. exact Hfresh. }
      assert (Hstep : exists n1,
                 (d <- isDirectory (folderPath ++ [name]) ;;
                  if d then deleteFolderRecursive stack (folderPath ++ [name])
                  else unlinkSync (folderPath ++ [name])) w0
                 = (inr tt, World n1 (log w0))
                 /\ lookup folderPath n1 = Some (Dir rest)
                 /\ update folderPath erase n1 = update folderPath erase (fs w0)).
      { rewrite bind_run, isDirectory_run, Hchild.
        destruct x as [data|sub]; cbn [is_dir].
        - destruct (update_below folderPath name [] drop_file (fs w0)
                      (Dir ((name, File data) :: rest)) (Dir rest) Hrest)
            as (n1 & Hn1 & Hl).
          { rewrite update_last. simpl find_entry. rewrite String.eqb_refl.
            simpl drop_file. rewrite Hgone. reflexivity. }
          exists n1. rewrite unlinkSync_run, Hn1.
          split; [reflexivity|]. split; [exact Hl|].
          exact (update_over _ _ _ _ (Some None) _ _ Hne Hn1).
        - destruct (IH (folderPath ++ [name]) w0 sub
                      ltac:(destruct folderPath; discriminate) Hchild Hx Hkx)
            as (n1 & Hn1 & Hrun).
          exists n1. split; [exact Hrun|].
          destruct (update_below folderPath name [] erase (fs w0)
                      (Dir ((name, Dir sub) :: rest)) (Dir rest) Hrest)
            as (n1' & Hn1' & Hl).
          { rewrite update_last. unfold erase. rewrite Hgone. reflexivity. }
          rewrite Hn1 in Hn1'. injection Hn1' as <-.
          split; [exact Hl|].
          exact (update_over _ _ _ _ (Some None) _ _ Hne Hn1). }
      destruct Hstep as (n1 & Hrun1 & Hl1 & Herase1).
      destruct (IHrest (World n1 (log w0)) Hl1 Hd' Hk') as (n2 & Hrun2 & Hl2 & Herase2).
      exists n2. cbn [map fst Eff.for_each]. rewrite bind_run.
      cbv zeta in Hrun1 |- *. rewrite Hrun1.
      split; [exact Hrun2|]. split; [exact Hl2|].
      rewrite Herase2. exact Herase1. }
  destruct (Hloop es w Hdir Hnames Hdepth) as (n1 & Hrun & Hempty & Herase).
  destruct (update_defined folderPath erase (fs w) (Dir es) None Hne Hdir eq_refl)
    as (n' & Hn').
  exists n'. split; [exact Hn'|].
  rewrite deleteFolderRecursive_step, bind_run, existsSync_run, Hdir.
  rewrite bind_run, (readdirSync_run _ _ _ Hdir).
  rewrite bind_run. cbv zeta in Hrun |- *. rewrite Hrun.
  rewrite rmdirSync_run. cbn [fs log].
  rewrite (update_ext_at folderPath drop_empty_dir erase n1).
  - rewrite Herase, Hn'. reflexivity.
  - rewrite Hempty. reflexivity.
Qed.

(** X20. The cleanup removes the whole folder and nothing else. With a stack
    as deep as the folder, and no name twice in one directory, the call
    returns; afterwards nothing is at the folder's path, and every path
    apart from the folder holds what it held. *)
Theorem cleanup_removes_exactly_the_folder (stack : nat) (folderPath : path)
    (w : world) (es : list (string * node)) :
  folderPath <> [] ->
  lookup folderPath (fs w) = Some (Dir es) ->
  distinct_names (Dir es) ->
  (depth (Dir es) <= stack)%nat ->
  (deleteFolderRecursive stack folderPath w).1 = inr tt
  /\ update folderPath erase (fs w)
     = Some (fs (deleteFolderRecursive stack folderPath w).2)
  /\ log (deleteFolderRecursive stack folderPath w).2 = log w
  /\ lookup folderPath (fs (deleteFolderRecursive stack folderPath w).2) = None
  /\ forall q, apart folderPath q = true ->
       lookup q (fs (deleteFolderRecursive stack folderPath w).2) = lookup q (fs w).
Proof.
  intros Hne Hdir Hnames Hdepth.
  destruct (deleteFolderRecursive_run stack folderPath w es Hne Hdir Hnames Hdepth)
    as (n' & Hn' & ->).
  cbn [fst snd fs log].
  split; [reflexivity|]. split; [exact Hn'|]. split; [reflexivity|]. split.
  - destruct (update_lookup _ _ _ _ Hn') as (r & Hr & Hl).
    rewrite Hl. unfold erase in Hr. congruence.
  - intros q Hq. exact (update_apart _ _ _ _ _ Hn' Hq).
Qed.

End TreeFacts.

(* ===================================================================== *)
(** * What the copy and the cleanup leave alone *)
(* ===================================================================== *)

Section InstallPreservation.

Import Pipeline Readings.

Variable R : node -> node -> Prop.
Hypothesis R_refl : forall n, R n n.
Hypothesis R_trans : forall a b c, R a b -> R b c -> R a c.

Lemma preserves_for_each {A} (xs : list A) (body : A -> M unit) :
  (forall x, preserves R (body x)) -> preserves R (Eff.for_each xs body).
Proof.
  intros Hbody. induction xs as [|x xs IH]; cbn [Eff.for_each].
  - apply preserves_ret, R_refl.
  - apply preserves_bind; [exact R_trans|apply Hbody|intros _; exact IH].
Qed.

Lemma preserves_isDirectory (p : path) : preserves R (isDirectory p).
Proof. intros w. rewrite isDirectory_run. destruct (lookup p (fs w)); apply R_refl. Qed.

Lemma preserves_readdirSync_types (p : path) : preserves R (readdirSync_types p).
Proof.
  intros w. unfold readdirSync_types, Eff.bind, Eff.get; simpl.
  destruct (lookup p (fs w)) as [[|]|]; apply R_refl.
Qed.

Lemma preserves_readdirSync (p : path) : preserves R (readdirSync p).
Proof.
  unfold readdirSync.
  apply preserves_bind;
    [exact R_trans|apply preserves_readdirSync_types|intros es; apply preserves_ret, R_refl].
Qed.

Lemma preserves_find_item (pred : string -> M bool) (contents : list string) :
  (forall item, preserves R (pred item)) -> preserves R (find_item pred contents).
Proof.
  intros Hpred. induction contents as [|item rest IH]; cbn [find_item].
  - apply preserves_ret, R_refl.
  - apply preserves_bind; [exact R_trans|apply Hpred|intros [|]].
    + apply preserves_ret, R_refl.
    + exact IH.
Qed.

(** The search for the source folder only reads. *)
Lemma preserves_resolve_source (extractTempPath : path) (appID : string) :
  preserves R (resolve_source extractTempPath appID).
Proof.
  unfold resolve_source.
  apply preserves_bind; [exact R_trans|apply preserves_existsSync, R_refl|intros present].
  apply preserves_bind; [exact R_trans| |intros found].
  { destruct present; [apply preserves_isDirectory|apply preserves_ret, R_refl]. }
  destruct found; [apply preserves_ret, R_refl|].
  apply preserves_bind; [exact R_trans|apply preserves_readdirSync|intros contents].
  apply preserves_bind; [exact R_trans| |intros [item|]].
  - apply preserves_find_item. intros item.
    apply preserves_bind;
      [exact R_trans|apply preserves_isDirectory|intros d; apply preserves_ret, R_refl].
  - destruct (String.eqb item ""); apply preserves_ret, R_refl.
  - apply preserves_ret, R_refl.
Qed.

(** The folder the copy writes into, or the cleanup removes, and what
    every change at or below it does. *)
Variable dir : path.
Hypothesis R_update :
  forall s f n n', update (dir ++ s) f n = Some n' -> R n n'.
Hypothesis R_mkdir :
  forall s n n', mkdir_p (dir ++ s) n = Some n' -> R n n'.

Lemma preserves_copyFileSync (src s : path) :
  preserves R (copyFileSync src (dir ++ s)).
Proof.
  intros w. unfold copyFileSync, Eff.bind, Eff.get; simpl.
  destruct (lookup src (fs w)) as [[data|es]|]; try apply R_refl.
  rewrite writeFile_run.
  destruct (update (dir ++ s) (put_file data) (fs w)) as [n'|] eqn:Hn; simpl.
  - exact (R_update _ _ _ _ Hn).
  - apply R_refl.
Qed.

Lemma preserves_copyRecursive (stack : nat) :
  forall src s, preserves R (copyRecursive stack src (dir ++ s)).
Proof.
  induction stack as [|stack IH]; intros src s; cbn [copyRecursive].
  - apply preserves_throw, R_refl.
  - apply preserves_bind; [exact R_trans|apply preserves_readdirSync_types|intros entries].
    apply preserves_for_each. intros [name d]. cbn [fst snd].
    rewrite <- app_assoc. destruct d.
    + apply preserves_bind; [exact R_trans|apply preserves_existsSync, R_refl|intros present].
      apply preserves_bind; [exact R_trans| |intros _; apply IH].
      destruct present; [apply preserves_ret, R_refl|].
      apply preserves_change; [exact R_refl|]. intros n n'. apply R_mkdir.
    + apply preserves_copyFileSync.
Qed.

Lemma preserves_deleteFolderRecursive (stack : nat) :
  forall s, preserves R (deleteFolderRecursive stack (dir ++ s)).
Proof.
  induction stack as [|stack IH]; intros s; cbn [deleteFolderRecursive].
  - apply preserves_throw, R_refl.
  - apply preserves_bind; [exact R_trans|apply preserves_existsSync, R_refl|intros [|]].
    + apply preserves_bind; [exact R_trans|apply preserves_readdirSync|intros files].
      apply preserves_bind; [exact R_trans| |intros _].
      * apply preserves_for_each. intros file. rewrite <- app_assoc.
        apply preserves_bind; [exact R_trans|apply preserves_isDirectory|intros [|]].
        -- apply IH.
        -- apply preserves_change; [exact R_refl|]. intros n n'. apply R_update.
      * apply preserves_change; [exact R_refl|]. intros n n'. apply R_update.
    + apply preserves_ret, R_refl.
Qed.

End InstallPreservation.

Section InstallFrame.

Import Pipeline Readings.

Lemma unchanged_at_trans (q : path) (a b c : node) :
  unchanged_at q a b -> unchanged_at q b c -> unchanged_at q a c.
Proof. unfold unchanged_at. intros Hab Hbc. rewrite Hbc. exact Hab. Qed.

Lemma copyRecursive_frame (stack : nat) (src dest q : path) :
  apart dest q = true ->
  preserves (unchanged_at q) (copyRecursive stack src dest).
Proof.
  intros Hapart. rewrite <- (app_nil_r dest).
  apply (preserves_copyRecursive (unchanged_at q) (fun n => eq_refl)
           (unchanged_at_trans q) dest).
  - intros s f n n' Hup. exact (update_apart _ _ _ _ _ Hup (apart_inside _ _ _ Hapart)).
  - intros s n n' Hmk. exact (mkdir_p_apart _ _ _ _ Hmk (apart_inside _ _ _ Hapart)).
Qed.

Lemma deleteFolderRecursive_frame (stack : nat) (folderPath q : path) :
  apart folderPath q = true ->
  preserves (unchanged_at q) (deleteFolderRecursive stack folderPath).
Proof.
  intros Hapart. rewrite <- (app_nil_r folderPath).
  apply (preserves_deleteFolderRecursive (unchanged_at q) (fun n => eq_refl)
           (unchanged_at_trans q) folderPath).
  intros s f n n' Hup. exact (update_apart _ _ _ _ _ Hup (apart_inside _ _ _ Hapart)).
Qed.

Variable E : env.

(** X15. The handler touches only its workspace and the target folder. For a
    plain file name and a plain identifier, and whatever
    the outcome of the run, success or failure at any step, a path that is
    apart from the temporary directory of the run and from the target
    folder holds after the run what it held before. (The archive tools
    write into the extraction folder they are given, and nowhere else.) *)
Theorem run_touches_only_workspace_and_target (stack : nat) (url : string)
    (targetFolder : path) (appID fileName : string) (w : world) (q : path) :
  plain_name fileName = true ->
  plain_name appID = true ->
  apart (tempDir E) q = true ->
  apart targetFolder q = true ->
  lookup q (fs (download_extract_fix E stack url targetFolder appID fileName w).2)
  = lookup q (fs w).
Proof.
  intros _ _ Htemp Htarget.
  assert (H : preserves (unchanged_at q)
                (extractTempPath <- download_and_extract E url fileName ;;
                 install_and_clean E stack extractTempPath targetFolder appID)).
  { apply preserves_bind; [exact (unchanged_at_trans q)| |intros extractTempPath].
    - apply (preserves_download_and_extract _ (fun n => eq_refl)
               (unchanged_at_trans q) E (tempDir E)); [| |reflexivity].
      + intros c s f n n' Hup.
        exact (update_apart _ _ _ _ _ Hup (apart_inside _ _ _ Htemp)).
      + intros s n n' Hmk.
        exact (mkdir_p_apart _ _ _ _ Hmk (apart_inside _ _ _ Htemp)).
    - unfold install_and_clean.
      apply preserves_bind; [exact (unchanged_at_trans q)| |intros sourceFolder].
      { apply preserves_resolve_source;
          [intros n; reflexivity|exact (unchanged_at_trans q)]. }
      apply preserves_bind; [exact (unchanged_at_trans q)| |intros _].
      + apply copyRecursive_frame, Htarget.
      + apply deleteFolderRecursive_frame, Htemp. }
  specialize (H w). unfold download_extract_fix.
  destruct ((extractTempPath <- download_and_extract E url fileName ;;
             install_and_clean E stack extractTempPath targetFolder appID) w)
    as [[e|[]] w']; exact H.
Qed.

(** X16. The copy writes only into its destination: a path apart from the
    destination holds after the copy, finished or not, what it held
    before. In particular a source apart from the destination is left as
    it is. *)
Theorem copy_stays_inside_destination (stack : nat) (src dest q : path) (w : world) :
  apart dest q = true ->
  lookup q (fs (copyRecursive stack src dest w).2) = lookup q (fs w).
Proof. intros Hapart. exact (copyRecursive_frame stack src dest q Hapart w). Qed.

End InstallFrame.

(* ===================================================================== *)
(** * What the copy puts into the destination *)
(* ===================================================================== *)

Section CopyProperties.

Import Pipeline Readings Data.

Lemma apart_sym (p q : path) : apart p q = apart q p.
Proof. unfold apart. apply andb_comm. Qed.

Lemma apart_siblings (dir : path) (c d : string) (s : path) :
  c <> d -> apart (dir ++ [c]) (dir ++ d :: s) = true.
Proof.
  intros Hcd. induction dir as [|a dir IH].
  - unfold apart. simpl.
    assert (H1 : String.eqb c d = false) by (apply String.eqb_neq; exact Hcd).
    assert (H2 : String.eqb d c = false) by (apply String.eqb_neq; congruence).
    rewrite H1, H2. reflexivity.
  - unfold apart in *. simpl. rewrite String.eqb_refl. exact IH.
Qed.

Lemma apart_below (p q s t : path) :
  apart p q = true -> apart (p ++ s) (q ++ t) = true.
Proof.
  intros H. apply apart_inside. rewrite apart_sym. apply apart_inside.
  rewrite apart_sym. exact H.
Qed.

Lemma copyRecursive_step (stack : nat) (src dest : path) :
  copyRecursive (S stack) src dest =
  (entries <- readdirSync_types src ;;
   Eff.for_each entries (copy_entry stack src dest)).
Proof. reflexivity. Qed.

Lemma readdirSync_types_run (p : path) (w : world) (es : list (string * node)) :
  lookup p (fs w) = Some (Dir es) ->
  readdirSync_types p w = (inr (map dirent es), w).
Proof.
  intros Hp. unfold readdirSync_types, Eff.bind, Eff.get; simpl.
  rewrite Hp. reflexivity.
Qed.

Lemma copyFileSync_run (src dest : path) (w : world) (data : string) :
  lookup src (fs w) = Some (File data) ->
  copyFileSync src dest w = writeFile dest data w.
Proof.
  intros Hsrc. unfold copyFileSync, Eff.bind, Eff.get; simpl.
  rewrite Hsrc. reflexivity.
Qed.

Lemma mkdirSync_run (p : path) (w : world) :
  mkdirSync p w =
  match mkdir_p p (fs w) with
  | Some fs' => (inr tt, World fs' (log w))
  | None => (inl EEXIST, w)
  end.
Proof.
  unfold mkdirSync, change, Eff.bind, Eff.get, Eff.put, Eff.throw; simpl.
  destruct (mkdir_p p (fs w)); reflexivity.
Qed.

(** A file that has been written is there; where it was written there
    was no directory. *)
Lemma put_file_written (p : path) (data : string) (n n' : node) :
  update p (put_file data) n = Some n' ->
  lookup p n' = Some (File data)
  /\ (lookup p n = None \/ exists old, lookup p n = Some (File old)).
Proof.
  intros Hup. destruct (update_lookup _ _ _ _ Hup) as (r & Hr & Hl).
  rewrite Hl. unfold put_file in Hr.
  destruct (lookup p n) as [[old|es]|]; inversion Hr; subst; eauto.
Qed.

(** A directory that has just been made is empty. *)
Lemma mkdir_p_fresh (p : path) :
  forall n n', mkdir_p p n = Some n' ->
    lookup p n = None \/ lookup p n = Some (Dir []) ->
    lookup p n' = Some (Dir []).
Proof.
  induction p as [|c p IH]; intros n n' Hmk Hn.
  - destruct n as [|es]; [discriminate|]. simpl in Hmk. injection Hmk as <-.
    destruct Hn as [Hn|Hn]; [discriminate|exact Hn].
  - destruct n as [|es]; [discriminate|].
    simpl in Hmk. rewrite lookup_cons in Hn.
    destruct (mkdir_p p _) as [x'|] eqn:Hx'; [|discriminate].
    injection Hmk as <-. rewrite lookup_cons, find_entry_set_same.
    apply (IH _ _ Hx').
    destruct (find_entry c es) as [x|]; [exact Hn|].
    destruct p; [right; reflexivity|left; reflexivity].
Qed.

Lemma mkdirSync_frame (p q : path) :
  apart p q = true -> preserves (unchanged_at q) (mkdirSync p).
Proof.
  intros Hapart. apply preserves_change; [intros n; reflexivity|].
  intros n n' Hmk. exact (mkdir_p_apart _ _ _ _ Hmk Hapart).
Qed.

(** One entry is copied into the destination's entry of its name. *)
Lemma copy_entry_frame (stack : nat) (src dest : path) (entry : string * bool)
    (q : path) :
  apart (dest ++ [fst entry]) q = true ->
  preserves (unchanged_at q) (copy_entry stack src dest entry).
Proof.
  intros Hapart. unfold copy_entry. cbv zeta. destruct (snd entry).
  - apply preserves_bind;
      [exact (unchanged_at_trans q)
      |apply preserves_existsSync; intros n; reflexivity|intros present].
    apply preserves_bind; [exact (unchanged_at_trans q)| |intros _].
    + destruct present; [apply preserves_ret; intros n; reflexivity|].
      apply mkdirSync_frame, Hapart.
    + apply copyRecursive_frame, Hapart.
  - rewrite <- (app_nil_r (dest ++ [fst entry])).
    apply (preserves_copyFileSync (unchanged_at q) (fun n => eq_refl)
             (dest ++ [fst entry])).
    intros s f n n' Hup. exact (update_apart _ _ _ _ _ Hup (apart_inside _ _ _ Hapart)).
Qed.

Lemma copy_loop_frame (stack : nat) (src dest : path) (entries : list (string * bool))
    (q : path) :
  (forall name, List.In name (map fst entries) -> apart (dest ++ [name]) q = true) ->
  preserves (unchanged_at q) (Eff.for_each entries (copy_entry stack src dest)).
Proof.
  intros Hall.
  induction entries as [|entry entries IH]; cbn [Eff.for_each].
  - apply preserves_ret. intros n. reflexivity.
  - apply preserves_bind; [exact (unchanged_at_trans q)| |intros _].
    + apply copy_entry_frame, Hall. left. reflexivity.
    + apply IH. intros name Hname. apply Hall. right. exact Hname.
Qed.

Lemma dirent_names (es : list (string * node)) : map fst (map dirent es) = map fst es.
Proof. rewrite map_map. reflexivity. Qed.

(** After one more entry, what has been placed under an earlier name is
    still there. *)
Lemma copy_loop_keeps_sibling (stack : nat) (src dest : path)
    (rest : list (string * node)) (name : string) (rel : path) (w : world) :
  ~ List.In name (map fst rest) ->
  lookup (dest ++ name :: rel)
    (fs (Eff.for_each (map dirent rest) (copy_entry stack src dest) w).2)
  = lookup (dest ++ name :: rel) (fs w).
Proof.
  intros Hfresh.
  apply (copy_loop_frame stack src dest (map dirent rest) (dest ++ name :: rel)).
  intros name' Hname'. rewrite dirent_names in Hname'.
  apply apart_siblings. intros ->. exact (Hfresh Hname').
Qed.

(** The source, apart from the destination, is the same after an entry. *)
Lemma copy_entry_keeps_source (stack : nat) (src dest : path)
    (entry : string * bool) (s : path) (w : world) :
  apart src dest = true ->
  lookup (src ++ s) (fs (copy_entry stack src dest entry w).2) = lookup (src ++ s) (fs w).
Proof.
  intros Hapart.
  apply (copy_entry_frame stack src dest entry (src ++ s)).
  rewrite apart_sym. apply apart_below. exact Hapart.
Qed.

Lemma copyRecursive_places (stack : nat) :
  forall (src dest : path) (w w' : world) (es : list (string * node)),
    apart src dest = true ->
    lookup src (fs w) = Some (Dir es) ->
    distinct_names (Dir es) ->
    copyRecursive stack src dest w = (inr tt, w') ->
    forall rel data, lookup rel (Dir es) = Some (File data) ->
      lookup (dest ++ rel) (fs w') = Some (File data).
Proof.
  induction stack as [|stack IH]; intros src dest w w' es Hapart Hsrc Hnames Hrun;
    [discriminate|].
  rewrite copyRecursive_step, bind_run, (readdirSync_types_run _ _ _ Hsrc) in Hrun.
  assert (Hmembers : forall e, List.In e es ->
                       lookup (src ++ [fst e]) (fs w) = Some (snd e)).
  { intros e He. rewrite (lookup_child _ _ _ _ Hsrc).
    apply find_entry_of_member; [apply Hnames|exact He]. }
  clear Hsrc. revert w Hnames Hrun Hmembers.
  induction es as [|[name x] rest IHrest]; intros w Hnames Hrun Hmembers rel data Hrel.
  { destruct rel; discriminate. }
  destruct (distinct_children _ _ _ Hnames) as (Hfresh & Hx & Hnames').
  cbn [map Eff.for_each] in Hrun.
  apply bind_returns in Hrun. destruct Hrun as ([] & w1 & Hbody & Hrest).
  destruct rel as [|c rel']; [discriminate|].
  rewrite lookup_cons in Hrel. cbn [find_entry] in Hrel.
  destruct (String.eqb c name) eqn:Hc.
  - apply String.eqb_eq in Hc. subst c.
    pose proof (copy_loop_keeps_sibling stack src dest rest name rel' w1 Hfresh) as Hkeep.
    rewrite Hrest in Hkeep. cbn [snd] in Hkeep. rewrite Hkeep.
    pose proof (Hmembers (name, x) (or_introl eq_refl)) as Hx0. cbn [fst snd] in Hx0.
    unfold copy_entry, dirent in Hbody. cbn [fst snd] in Hbody. cbv zeta in Hbody.
    destruct x as [d0|sub]; cbn [is_dir] in Hbody.
    + destruct rel' as [|c' rel']; [|discriminate]. injection Hrel as ->.
      rewrite (copyFileSync_run _ _ _ _ Hx0), writeFile_run in Hbody.
      destruct (update (dest ++ [name]) (put_file data) (fs w)) as [n1|] eqn:Hup;
        [|discriminate].
      injection Hbody as <-. cbn [fs].
      exact (proj1 (put_file_written _ _ _ _ Hup)).
    + rewrite bind_run, existsSync_run, bind_run in Hbody.
      assert (Hstart : exists w0,
                 copyRecursive stack (src ++ [name]) (dest ++ [name]) w0 = (inr tt, w1)
                 /\ lookup (src ++ [name]) (fs w0) = Some (Dir sub)).
      { destruct (lookup (dest ++ [name]) (fs w)) as [y|].
        - exists w. split; [exact Hbody|exact Hx0].
        - destruct (mkdirSync (dest ++ [name]) w) as [[e|[]] w0] eqn:Hmk; [discriminate|].
          exists w0. split; [exact Hbody|].
          pose proof (mkdirSync_frame (dest ++ [name]) (src ++ [name])
                        ltac:(rewrite apart_sym; apply apart_below; exact Hapart) w)
            as Hframe.
          rewrite Hmk in Hframe. unfold unchanged_at in Hframe. cbn [snd] in Hframe.
          rewrite Hframe. exact Hx0. }
      destruct Hstart as (w0 & Hcopy & Hsub).
      pose proof (IH (src ++ [name]) (dest ++ [name]) w0 w1 sub
                    (apart_below _ _ _ _ Hapart) Hsub Hx Hcopy rel' data Hrel) as Hplaced.
      rewrite <- app_assoc in Hplaced. exact Hplaced.
  - apply (IHrest w1 Hnames' Hrest).
    + intros e He.
      pose proof (copy_entry_keeps_source stack src dest (dirent (name, x)) [fst e] w Hapart)
        as Hsame.
      rewrite Hbody in Hsame. cbn [snd] in Hsame. rewrite Hsame.
      apply Hmembers. right. exact He.
    + rewrite lookup_cons. exact Hrel.
Qed.

Lemma copyRecursive_keeps (stack : nat) :
  forall (src dest : path) (w : world) (es : list (string * node)),
    apart src dest = true ->
    lookup src (fs w) = Some (Dir es) ->
    distinct_names (Dir es) ->
    forall rel, lookup rel (Dir es) = None ->
      lookup (dest ++ rel) (fs (copyRecursive stack src dest w).2)
      = lookup (dest ++ rel) (fs w).
Proof.
  induction stack as [|stack IH]; intros src dest w es Hapart Hsrc Hnames rel Hrel;
    [reflexivity|].
  rewrite copyRecursive_step, bind_run, (readdirSync_types_run _ _ _ Hsrc).
  assert (Hmembers : forall e, List.In e es ->
                       lookup (src ++ [fst e]) (fs w) = Some (snd e)).
  { intros e He. rewrite (lookup_child _ _ _ _ Hsrc).
    apply find_entry_of_member; [apply Hnames|exact He]. }
  clear Hsrc. revert w Hnames Hmembers rel Hrel.
  induction es as [|[name x] rest IHrest]; intros w Hnames Hmembers rel Hrel;
    [reflexivity|].
  destruct (distinct_children _ _ _ Hnames) as (Hfresh & Hx & Hnames').
  destruct rel as [|c rel']; [discriminate|].
  rewrite lookup_cons in Hrel. cbn [find_entry] in Hrel.
  pose proof (Hmembers (name, x) (or_introl eq_refl)) as Hx0. cbn [fst snd] in Hx0.
  (* what the entry [name] does to the path *)
  assert (Hentry : lookup (dest ++ c :: rel')
                     (fs (copy_entry stack src dest (dirent (name, x)) w).2)
                   = lookup (dest ++ c :: rel') (fs w)).
  { destruct (String.eqb c name) eqn:Hc.
    - apply String.eqb_eq in Hc. subst c.
      unfold copy_entry, dirent. cbn [fst snd]. cbv zeta.
      change (dest ++ name :: rel') with (dest ++ [name] ++ rel').
      rewrite app_assoc.
      destruct x as [d0|sub]; cbn [is_dir].
      + rewrite (copyFileSync_run _ _ _ _ Hx0), writeFile_run.
        destruct (update (dest ++ [name]) (put_file d0) (fs w)) as [n1|] eqn:Hup;
          [|reflexivity].
        cbn [snd fs].
        destruct (put_file_written _ _ _ _ Hup) as (Hnew & Hold).
        rewrite !(lookup_app (dest ++ [name]) rel'), Hnew.
        destruct rel' as [|c' rel']; [discriminate|].
        destruct Hold as [->|(old & ->)]; reflexivity.
      + rewrite bind_run, existsSync_run, bind_run.
        destruct (lookup (dest ++ [name]) (fs w)) as [y|] eqn:Hy.
        * cbn [Eff.ret].
          exact (IH (src ++ [name]) (dest ++ [name]) w sub
                   (apart_below _ _ _ _ Hapart) Hx0 Hx rel' Hrel).
        * rewrite mkdirSync_run.
          destruct (mkdir_p (dest ++ [name]) (fs w)) as [n1|] eqn:Hmk; [|reflexivity].
          assert (Hsub : lookup (src ++ [name]) n1 = Some (Dir sub)).
          { rewrite (mkdir_p_apart _ _ _ _ Hmk
                       ltac:(rewrite apart_sym; apply apart_below; exact Hapart)).
            exact Hx0. }
          rewrite (IH (src ++ [name]) (dest ++ [name]) (World n1 (log w)) sub
                     (apart_below _ _ _ _ Hapart) Hsub Hx rel' Hrel).
          cbn [fs]. rewrite !(lookup_app (dest ++ [name]) rel'), Hy.
          rewrite (mkdir_p_fresh _ _ _ Hmk (or_introl Hy)).
          destruct rel' as [|c' rel']; [discriminate|reflexivity].
    - apply (copy_entry_frame stack src dest (dirent (name, x)) (dest ++ c :: rel')).
      apply apart_siblings. unfold dirent. cbn [fst].
      intros Heq. subst c. rewrite String.eqb_refl in Hc. discriminate. }
  cbn [map Eff.for_each]. rewrite bind_run.
  destruct (copy_entry stack src dest (dirent (name, x)) w) as [[e|[]] w1] eqn:Hbody;
    cbn [snd] in Hentry; [exact Hentry|].
  rewrite <- Hentry.
  apply (IHrest w1 Hnames').
  - intros e He.
    pose proof (copy_entry_keeps_source stack src dest (dirent (name, x)) [fst e] w Hapart)
      as Hsame.
    rewrite Hbody in Hsame. cbn [snd] in Hsame. rewrite Hsame.
    apply Hmembers. right. exact He.
  - rewrite lookup_cons.
    destruct (String.eqb c name) eqn:Hc; [|exact Hrel].
    apply String.eqb_eq in Hc. subst c.
    destruct (find_entry name rest) as [y|] eqn:Hy; [|reflexivity].
    exfalso. apply Hfresh. clear -Hy.
    induction rest as [|[d z] rest IH]; [discriminate|].
    simpl in Hy. destruct (String.eqb name d) eqn:Hd.
    + apply String.eqb_eq in Hd. left. symmetry. exact Hd.
    + right. exact (IH Hy).
Qed.

Lemma copy_places_to (stack : nat) (src dest : path) (w w' : world)
    (es : list (string * node)) (rel : path) (data : string) :
  apart src dest = true ->
  lookup src (fs w) = Some (Dir es) ->
  distinct_names (Dir es) ->
  copyRecursive stack src dest w = (inr tt, w') ->
  lookup (src ++ rel) (fs w) = Some (File data) ->
  lookup (dest ++ rel) (fs w') = Some (File data).
Proof.
  intros Hapart Hsrc Hnames Hrun Hfile.
  apply (copyRecursive_places stack src dest w w' es Hapart Hsrc Hnames Hrun).
  rewrite lookup_app, Hsrc in Hfile. exact Hfile.
Qed.

(** X17. A copy that returns has placed every file of the source. For a source
    directory apart from the destination, with no name twice in one of its
    folders: each file at a path below the source is, after the copy, at
    the same path below the destination, with the same content. *)
Theorem copy_places_every_file (stack : nat) (src dest : path) (w w' : world)
    (es : list (string * node)) (rel : path) (data : string) :
  apart src dest = true ->
  lookup src (fs w) = Some (Dir es) ->
  distinct_names (Dir es) ->
  copyRecursive stack src dest w = (inr tt, w') ->
  lookup (src ++ rel) (fs w) = Some (File data) ->
  lookup (dest ++ rel) (fs w') = Some (File data)
  /\ lookup (src ++ rel) (fs w') = Some (File data).
Proof.
  intros Hapart Hsrc Hnames Hrun Hfile. split.
  - exact (copy_places_to stack src dest w w' es rel data Hapart Hsrc Hnames Hrun Hfile).
  - pose proof (copyRecursive_frame stack src dest (src ++ rel)
                  ltac:(rewrite apart_sym; apply apart_inside; exact Hapart) w) as Hframe.
    rewrite Hrun in Hframe. unfold unchanged_at in Hframe. cbn [snd] in Hframe.
    rewrite Hframe. exact Hfile.
Qed.

(** X18. The copy merges into the destination: it removes nothing and changes
    only what the source has a counterpart for. For a source directory
    apart from the destination, with no name twice in one of its folders:
    a path below the destination whose counterpart below the source does
    not exist holds after the copy, finished or not, what it held
    before. *)
Theorem copy_keeps_what_the_source_lacks (stack : nat) (src dest : path) (w : world)
    (es : list (string * node)) (rel : path) :
  apart src dest = true ->
  lookup src (fs w) = Some (Dir es) ->
  distinct_names (Dir es) ->
  lookup (src ++ rel) (fs w) = None ->
  lookup (dest ++ rel) (fs (copyRecursive stack src dest w).2)
  = lookup (dest ++ rel) (fs w).
Proof.
  intros Hapart Hsrc Hnames Hnone.
  apply (copyRecursive_keeps stack src dest w es Hapart Hsrc Hnames).
  rewrite lookup_app, Hsrc in Hnone. exact Hnone.
Qed.

End CopyProperties.

(* ===================================================================== *)
(** * A run that succeeds *)
(* ===================================================================== *)

Section SuccessProperties.

Import Pipeline Readings Data.

Variable E : env.





End SuccessProperties.

(** Names that differ, in every folder of a tree given in full. *)
Ltac names_differ :=
  repeat first
    [ apply List.NoDup_nil
    | apply List.NoDup_cons; [simpl; intuition discriminate|] ].

Ltac distinct_tree :=
  cbn [Data.distinct_names map fst]; repeat split; names_differ.

Lemma cleanup_removes_exactly_the_folder_witness :
  (Pipeline.deleteFolderRecursive 8 Staged.source Staged.staged).1 = inr tt
  /\ Pipeline.update Staged.source Data.erase Staged.disk
     = Some (Pipeline.fs (Pipeline.deleteFolderRecursive 8 Staged.source Staged.staged).2)
  /\ Pipeline.log (Pipeline.deleteFolderRecursive 8 Staged.source Staged.staged).2 = []
  /\ Pipeline.lookup Staged.source
       (Pipeline.fs (Pipeline.deleteFolderRecursive 8 Staged.source Staged.staged).2)
     = None
  /\ forall q, Pipeline.apart Staged.source q = true ->
       Pipeline.lookup q
         (Pipeline.fs (Pipeline.deleteFolderRecursive 8 Staged.source Staged.staged).2)
       = Pipeline.lookup q Staged.disk.
Proof.
  apply (cleanup_removes_exactly_the_folder 8 Staged.source Staged.staged Staged.payload).
  - discriminate.
  - reflexivity.
  - unfold Staged.payload. distinct_tree.
  - vm_compute. lia.
Defined.

Lemma run_touches_only_workspace_and_target_witness :
  Pipeline.lookup ["C:"; "Program Files"]
    (Pipeline.fs
       (Pipeline.download_extract_fix
          (Samples.machine Samples.net_redirect Samples.tools_7z)
          64 Samples.fix_url Samples.game_folder "620" "620.zip" Samples.start).2)
  = Pipeline.lookup ["C:"; "Program Files"] Samples.disk.
Proof.
  apply (run_touches_only_workspace_and_target
           (Samples.machine Samples.net_redirect Samples.tools_7z)
           64 Samples.fix_url Samples.game_folder "620" "620.zip" Samples.start
           ["C:"; "Program Files"]); reflexivity.
Defined.

Lemma copy_stays_inside_destination_witness :
  Pipeline.lookup ["C:"; "Temp"]
    (Pipeline.fs (Pipeline.copyRecursive 8 Staged.source Staged.target Staged.staged).2)
  = Some (Pipeline.Dir [("fix", Pipeline.Dir Staged.payload)]).
Proof.
  apply (copy_stays_inside_destination 8 Staged.source Staged.target ["C:"; "Temp"]
           Staged.staged).
  reflexivity.
Defined.

Lemma copy_places_every_file_witness :
  Pipeline.lookup (Staged.target ++ ["docs"; "readme.txt"])
    (Pipeline.fs (Pipeline.copyRecursive 8 Staged.source Staged.target Staged.staged).2)
  = Some (Pipeline.File "read me")
  /\ Pipeline.lookup (Staged.source ++ ["docs"; "readme.txt"])
       (Pipeline.fs (Pipeline.copyRecursive 8 Staged.source Staged.target Staged.staged).2)
     = Some (Pipeline.File "read me").
Proof.
  apply (copy_places_every_file 8 Staged.source Staged.target Staged.staged _ Staged.payload
           ["docs"; "readme.txt"] "read me").
  - reflexivity.
  - reflexivity.
  - unfold Staged.payload. distinct_tree.
  - vm_compute. reflexivity.
  - reflexivity.
Defined.

Lemma copy_keeps_what_the_source_lacks_witness :
  Pipeline.lookup (Staged.target ++ ["save.dat"])
    (Pipeline.fs (Pipeline.copyRecursive 8 Staged.source Staged.target Staged.staged).2)
  = Some (Pipeline.File "progress").
Proof.
  apply (copy_keeps_what_the_source_lacks 8 Staged.source Staged.target Staged.staged
           Staged.payload ["save.dat"]).
  - reflexivity.
  - reflexivity.
  - unfold Staged.payload. distinct_tree.
  - reflexivity.
Defined.


(* ===================================================================== *)
(** * Properties of the bypass download *)
(* ===================================================================== *)

Section BypassProperties.

Import Pipeline Readings.

Variable E : env.

(** X23. A bypass download that answers with success has saved the body of
    the final response (the first one, or the one a single redirect led
    to, whatever its status) in the file chosen in the dialog, and names
    that file in its answer. *)
Theorem bypass_saves_the_final_body (dialog : option path) (url : string)
    (w w' : world) (msg : string) (saved : path) :
  download_bypass E dialog url w = (BypassOk msg saved, w') ->
  dialog = Some saved
  /\ exists r,
       final_response E (count_gets (log w)) url = Some r
       /\ lookup saved (fs w') = Some (File (body r)).
Proof.
  unfold download_bypass. destruct dialog as [savePath|]; [|discriminate].
  rewrite download_promise_run. unfold final_response.
  destruct (update savePath (put_file "") (fs w)) as [fs1|] eqn:Hfs1; [|discriminate].
  cbv zeta.
  destruct (network E (count_gets (log w)) url) as [err|r1]; [discriminate|].
  rewrite (orb_comm (statusCode r1 =? 301)).
  destruct ((statusCode r1 =? 302) || (statusCode r1 =? 301)).
  - destruct (network E (S (count_gets (log w))) (location r1)) as [err|r2];
      [discriminate|].
    destruct (write_after_open savePath (body r2) (fs w) fs1
                (log w ++ [GET url; GET (location r1)]) Hfs1) as (fs2 & -> & Hl).
    intros [= _ <- <-]. split; [reflexivity|]. exists r2. auto.
  - destruct (negb (statusCode r1 =? 200)); [discriminate|].
    destruct (write_after_open savePath (body r1) (fs w) fs1
                (log w ++ [GET url]) Hfs1) as (fs2 & -> & Hl).
    intros [= _ <- <-]. split; [reflexivity|]. exists r1. auto.
Qed.

Lemma download_promise_frame (url : string) (dest q : path) (w : world) :
  apart dest q = true ->
  lookup q (fs (download_promise E url dest w).2) = lookup q (fs w).
Proof.
  intros Hapart. rewrite download_promise_run.
  destruct (update dest (put_file "") (fs w)) as [fs1|] eqn:Hfs1; [|reflexivity].
  cbv zeta.
  assert (H1 : lookup q fs1 = lookup q (fs w)).
  { exact (update_apart _ _ _ _ _ Hfs1 Hapart). }
  assert (Hunlinked : lookup q (unlinked dest fs1) = lookup q (fs w)).
  { unfold unlinked.
    destruct (update dest drop_file fs1) as [fs2|] eqn:Hfs2; [|exact H1].
    rewrite (update_apart _ _ _ _ _ Hfs2 Hapart). exact H1. }
  assert (Hwritten : forall data l,
            lookup q (fs (writeFile dest data (World fs1 l)).2) = lookup q (fs w)).
  { intros data l. rewrite writeFile_run. cbn [fs].
    destruct (update dest (put_file data) fs1) as [fs2|] eqn:Hfs2; [|exact H1].
    cbn [snd fs]. rewrite (update_apart _ _ _ _ _ Hfs2 Hapart). exact H1. }
  destruct (network E (count_gets (log w)) url) as [err|r1]; [exact Hunlinked|].
  destruct ((statusCode r1 =? 302) || (statusCode r1 =? 301)).
  - destruct (network E (S (count_gets (log w))) (location r1)) as [err|r2];
      [exact Hunlinked|apply Hwritten].
  - destruct (negb (statusCode r1 =? 200)); [exact H1|apply Hwritten].
Qed.

(** X24. The bypass download touches only the chosen file. Whatever its
    outcome, a path apart from the file chosen in the dialog holds
    afterwards what it held before; and when the dialog is cancelled
    nothing is changed and no request is sent. *)
Theorem bypass_touches_only_the_chosen_file (dialog : option path) (url : string)
    (w : world) :
  (dialog = None ->
   download_bypass E dialog url w = (BypassCancelled "Download cancelled", w))
  /\ forall savePath q,
       dialog = Some savePath ->
       apart savePath q = true ->
       lookup q (fs (download_bypass E dialog url w).2) = lookup q (fs w).
Proof.
  split; [intros ->; reflexivity|].
  intros savePath q -> Hapart. unfold download_bypass.
  pose proof (download_promise_frame url savePath q w Hapart) as H.
  destruct (download_promise E url savePath w) as [[e|[]] w']; exact H.
Qed.

End BypassProperties.

Lemma bypass_saves_the_final_body_witness :
  Pipeline.lookup ["C:"; "Temp"; "bypass.zip"]
    (Pipeline.fs
       (Pipeline.download_bypass (Samples.machine Samples.net_redirect Samples.tools_7z)
          (Some ["C:"; "Temp"; "bypass.zip"]) Samples.fix_url Samples.start).2)
  = Some (Pipeline.File "PK-archive").
Proof.
  destruct (bypass_saves_the_final_body
              (Samples.machine Samples.net_redirect Samples.tools_7z)
              (Some ["C:"; "Temp"; "bypass.zip"]) Samples.fix_url Samples.start
              (Pipeline.download_bypass
                 (Samples.machine Samples.net_redirect Samples.tools_7z)
                 (Some ["C:"; "Temp"; "bypass.zip"]) Samples.fix_url Samples.start).2
              "Bypass downloaded successfully!" ["C:"; "Temp"; "bypass.zip"] eq_refl)
    as (_ & r & Hfinal & Hsaved).
  injection Hfinal as <-. exact Hsaved.
Defined.

Lemma bypass_touches_only_the_chosen_file_witness :
  Pipeline.download_bypass (Samples.machine Samples.net_redirect Samples.tools_7z)
    None Samples.fix_url Samples.start
  = (Pipeline.BypassCancelled "Download cancelled", Samples.start)
  /\ Pipeline.lookup Samples.game_folder
       (Pipeline.fs
          (Pipeline.download_bypass (Samples.machine Samples.net_404 Samples.tools_7z)
             (Some ["C:"; "Temp"; "bypass.zip"]) Samples.fix_url Samples.start).2)
     = Pipeline.lookup Samples.game_folder Samples.disk.
Proof.
  split.
  - exact (proj1 (bypass_touches_only_the_chosen_file
                    (Samples.machine Samples.net_redirect Samples.tools_7z)
                    None Samples.fix_url Samples.start) eq_refl).
  - exact (proj2 (bypass_touches_only_the_chosen_file
                    (Samples.machine Samples.net_404 Samples.tools_7z)
                    (Some ["C:"; "Temp"; "bypass.zip"]) Samples.fix_url Samples.start)
                 ["C:"; "Temp"; "bypass.zip"] Samples.game_folder eq_refl eq_refl).
Defined.

Lemma cached_after_fetch_witness :
  (Catalog.get_steam_applist Samples.online Samples.stale_world).1
  = Catalog.AppListOk Samples.new_lookup (JS.Num 2) true.
Proof.
  apply (cached_after_fetch Samples.online Samples.stale_world Samples.new_catalog).
  - vm_compute. reflexivity.
  - vm_compute. reflexivity.
  - vm_compute. reflexivity.
Defined.

Lemma cached_after_stale_fallback_witness :
  (Catalog.get_steam_applist Samples.offline Samples.stale_world).1
  = Catalog.AppListOk Samples.old_lookup (JS.Num 1) false.
Proof.
  apply (cached_after_stale_fallback Samples.offline Samples.stale_world
           (Catalog.File (92 * Samples.day) (Samples.stringify Samples.old_catalog))
           Samples.unreachable Samples.old_catalog).
  - reflexivity.
  - vm_compute. discriminate.
  - vm_compute. discriminate.
  - reflexivity.
  - vm_compute. reflexivity.
  - vm_compute. reflexivity.
Defined.

Lemma early_failure_leaves_workspace_witness :
  Pipeline.download_extract_fix (Samples.machine Samples.net_404 Samples.tools_7z)
    64 Samples.fix_url Samples.game_folder "620" "620.zip" Samples.start
  = (Pipeline.FixFail "Failed to download: 404",
     (Pipeline.download_and_extract (Samples.machine Samples.net_404 Samples.tools_7z)
        Samples.fix_url "620.zip" Samples.start).2)
  /\ (Pipeline.fs
        (Pipeline.download_and_extract (Samples.machine Samples.net_404 Samples.tools_7z)
           Samples.fix_url "620.zip" Samples.start).2
      = Pipeline.fs Samples.start
      \/ Pipeline.lookup
           (Pipeline.tempDir (Samples.machine Samples.net_404 Samples.tools_7z))
           (Pipeline.fs
              (Pipeline.download_and_extract
                 (Samples.machine Samples.net_404 Samples.tools_7z)
                 Samples.fix_url "620.zip" Samples.start).2)
         <> None).
Proof.
  apply (early_failure_leaves_workspace
           (Samples.machine Samples.net_404 Samples.tools_7z)
           64 Samples.fix_url Samples.game_folder "620" "620.zip" Samples.start
           _ (JS.Error "Failed to download: 404")).
  vm_compute. reflexivity.
Defined.
